(** * certbot-nginx [parser_obj]: a shallow embedding and its properties

    The module [certbot_nginx/parser_obj.py] turns the raw nested lists that
    pyparsing produces into a tree of [Sentence], [Statements] and [Block]
    objects, lets callers re-indent the tree, and dumps it back to lists.

    Embedding choices.
    - Raw input is the inductive type [raw]: a string, a list, or some other
      Python value (an integer stands for those).
    - Parsed objects live in a [store] (a list of objects addressed by
      position): methods mutate them in place and a context's [parent] is a
      reference to another object, read after that object was changed.
    - A raw list handed to a parser is a tree: no list object occurs at two
      places of it.  The parse functions return, next to the store and the
      result, the caller's raw value as it is after the call, which makes the
      in-place [append] of [Block.parse] visible.
    - A [Sentence] keeps its tokens by value.  In Python [Sentence._data] is
      the caller's list itself when no spacing is added; no property below
      looks at the caller's list after a later mutation of the object.
    - Strings are Python 3 [str] restricted to code points below 256.
    - Methods that recurse through the store take a recursion budget, as
      the interpreter does; exhausting it raises [RecursionError].  Parsing
      recurses on the raw value itself: the interpreter's limit on deeply
      nested input is not modelled there.
    - A context is held by value.  [parse_raw] completes a context that has
      no hooks in place; the model shows this in the context of the object
      it makes, not in another object that shares the caller's context. *)

From Stdlib Require Import ZArith Ascii String List Bool Lia.
From stdpp Require Import base list strings.
Import ListNotations.
Set Warnings "-register-all".
Local Open Scope string_scope.
Local Open Scope list_scope.

(** ** Python strings *)

Module Str.

Definition nl_char : ascii := ascii_of_nat 10.
Definition nl : string := String nl_char EmptyString.

(** [str.isspace] on one character: the code points below 256 that Python 3
    classifies as whitespace. *)
Definition isspace_char (c : ascii) : bool :=
  let n := nat_of_ascii c in
  ((9 <=? n)%nat && (n <=? 13)%nat)
  || ((28 <=? n)%nat && (n <=? 32)%nat)
  || (n =? 133)%nat || (n =? 160)%nat.

Fixpoint all_chars (p : ascii -> bool) (s : string) : bool :=
  match s with
  | EmptyString => true
  | String c s' => p c && all_chars p s'
  end.

(** [s.isspace()]: at least one character, and all of them whitespace. *)
Definition isspace (s : string) : bool :=
  match s with
  | EmptyString => false
  | String _ _ => all_chars isspace_char s
  end.

Fixpoint mem (c : ascii) (chars : string) : bool :=
  match chars with
  | EmptyString => false
  | String d chars' => Ascii.eqb c d || mem c chars'
  end.

Fixpoint lstrip (chars s : string) : string :=
  match s with
  | EmptyString => EmptyString
  | String c s' => if mem c chars then lstrip chars s' else s
  end.

Fixpoint rstrip (chars s : string) : string :=
  match s with
  | EmptyString => EmptyString
  | String c s' =>
      match rstrip chars s' with
      | EmptyString => if mem c chars then EmptyString else String c EmptyString
      | r => String c r
      end
  end.

(** [s.strip(chars)]: every leading and every trailing character that occurs
    in [chars] is removed. *)
Definition strip (chars s : string) : string := rstrip chars (lstrip chars s).

(** [s.rfind(c)] for a one-character needle: the highest index, or -1. *)
Fixpoint rfind (c : ascii) (s : string) : Z :=
  match s with
  | EmptyString => (-1)%Z
  | String d s' =>
      let r := rfind c s' in
      if (0 <=? r)%Z then (r + 1)%Z
      else if Ascii.eqb d c then 0%Z else (-1)%Z
  end.

(** [s[n:]] for [0 <= n]. *)
Fixpoint drop (n : nat) (s : string) : string :=
  match n, s with
  | O, _ => s
  | S n', String _ s' => drop n' s'
  | S _, EmptyString => EmptyString
  end.

(** The one-character strings of [s], as iterating over a [str] yields them. *)
Fixpoint chars (s : string) : list string :=
  match s with
  | EmptyString => []
  | String c s' => String c EmptyString :: chars s'
  end.

End Str.

(** The two quote characters (double and single) that [Sentence.words]
    passes to [strip]. *)
Definition quotes : string :=
  String (ascii_of_nat 34) (String (ascii_of_nat 39) EmptyString).

(** ** Raw nodes, exceptions, results *)

Inductive raw : Type :=
| RStr (s : string)
| RList (l : list raw)
| RInt (z : Z).

Definition is_str (v : raw) : bool :=
  match v with RStr _ => true | _ => false end.

Definition is_list (v : raw) : bool :=
  match v with RList _ => true | _ => false end.

(** [MisconfigurationError] is the module's own error; the others are what
    the interpreter raises.  [ReferenceError] stands for a location that holds
    no object of the class a method expects, which a Python [self] never is. *)
Inductive exn : Type :=
| MisconfigurationError
| IndexError
| AttributeError
| TypeError
| RecursionError
| ReferenceError.

Inductive res (A : Type) : Type :=
| Ok (a : A)
| Raise (e : exn).
Arguments Ok {A} a.
Arguments Raise {A} e.

Definition res_bind {A B} (r : res A) (f : A -> res B) : res B :=
  match r with
  | Ok a => f a
  | Raise e => Raise e
  end.

Definition res_map {A B} (f : A -> B) (r : res A) : res B :=
  res_bind r (fun a => Ok (f a)).

Fixpoint res_all {A B} (f : A -> res B) (l : list A) : res (list B) :=
  match l with
  | [] => Ok []
  | x :: l' =>
      res_bind (f x) (fun y => res_bind (res_all f l') (fun ys => Ok (y :: ys)))
  end.

(** ** Objects and the store *)

Abbreviation loc := nat.

(** The classes that can stand in [parsing_hooks]. *)
Inductive hook : Type := Block_t | Sentence_t | Statements_t.

Definition DEFAULT_PARSING_HOOKS : list hook := [Block_t; Sentence_t; Statements_t].

Record ParseContext : Type := mkContext {
  parent : option loc;
  parsing_hooks : option (list hook)
}.

(** The attributes of the three classes ([_tabs], which the module never
    reads, is left out). *)
Inductive obj : Type :=
| Sentence (context : option ParseContext) (_data : list string)
| Statements (context : option ParseContext) (_data : list loc)
             (_trailing_whitespace : option string)
| Block (context : option ParseContext) (_data : list loc)
        (names contents : option loc).

Abbreviation store := (list obj).

(** State and exceptions together: a method call maps a store to the store it
    leaves and what it returned or raised. *)
Definition M (A : Type) : Type := store -> store * res A.

Definition ret {A} (a : A) : M A := fun st => (st, Ok a).
Definition raise {A} (e : exn) : M A := fun st => (st, Raise e).
Definition bind {A B} (m : M A) (f : A -> M B) : M B :=
  fun st =>
    match m st with
    | (st', Ok a) => f a st'
    | (st', Raise e) => (st', Raise e)
    end.
Definition lift {A} (r : res A) : M A := fun st => (st, r).
Definition reading {A} (f : store -> res A) : M A := fun st => (st, f st).

Notation "'do' x <~ m 'in' k" := (bind m (fun x => k))
  (at level 10, x name, m at level 100, k at level 200).
Notation "'run' m 'in' k" := (bind m (fun _ => k))
  (at level 10, m at level 100, k at level 200).

(** A new object takes the next free location. *)
Definition alloc (o : obj) : M loc := fun st => (st ++ [o], Ok (length st)).

Definition context_of (o : obj) : option ParseContext :=
  match o with
  | Sentence c _ => c
  | Statements c _ _ => c
  | Block c _ _ _ => c
  end.

Definition get_obj (self : loc) (st : store) : res obj :=
  match st !! self with
  | Some o => Ok o
  | None => Raise ReferenceError
  end.

Definition get_sentence (self : loc) (st : store) : res (list string) :=
  match st !! self with
  | Some (Sentence _ d) => Ok d
  | _ => Raise ReferenceError
  end.

(** Attribute assignments, one per attribute the module writes. *)
Definition set_sentence_data (self : loc) (d : list string) : M unit := fun st =>
  match st !! self with
  | Some (Sentence c _) => (<[self := Sentence c d]> st, Ok tt)
  | _ => (st, Raise ReferenceError)
  end.

Definition set_statements_data (self : loc) (d : list loc) : M unit := fun st =>
  match st !! self with
  | Some (Statements c _ tw) => (<[self := Statements c d tw]> st, Ok tt)
  | _ => (st, Raise ReferenceError)
  end.

Definition set_trailing_whitespace (self : loc) (tw : string) : M unit := fun st =>
  match st !! self with
  | Some (Statements c d _) => (<[self := Statements c d (Some tw)]> st, Ok tt)
  | _ => (st, Raise ReferenceError)
  end.

Definition set_block_names (self names : loc) : M unit := fun st =>
  match st !! self with
  | Some (Block c d _ k) => (<[self := Block c d (Some names) k]> st, Ok tt)
  | _ => (st, Raise ReferenceError)
  end.

Definition set_block_contents (self contents : loc) : M unit := fun st =>
  match st !! self with
  | Some (Block c d n _) => (<[self := Block c d n (Some contents)]> st, Ok tt)
  | _ => (st, Raise ReferenceError)
  end.

Definition set_block_data (self : loc) (d : list loc) : M unit := fun st =>
  match st !! self with
  | Some (Block c _ n k) => (<[self := Block c d n k]> st, Ok tt)
  | _ => (st, Raise ReferenceError)
  end.

(** [WithLists.child_context]: a context whose parent is [self].  With no
    context of its own the object makes one with no hooks. *)
Definition child_context (self : loc) (st : store) : res ParseContext :=
  res_bind (get_obj self st) (fun o =>
    match context_of o with
    | None => Ok (mkContext (Some self) None)
    | Some c => Ok (mkContext (Some self) (parsing_hooks c))
    end).

(** ** Structural predicates ([should_parse]) *)

Definition Statements_should_parse (lists : raw) : bool := is_list lists.

Definition Sentence_should_parse (lists : raw) : bool :=
  match lists with
  | RList l => (0 <? length l)%nat && forallb is_str l
  | _ => false
  end.

Definition Block_should_parse (lists : raw) : bool :=
  match lists with
  | RList l =>
      (length l =? 2)%nat &&
      match l with
      | l0 :: l1 :: _ => Sentence_should_parse l0 && is_list l1
      | _ => false
      end
  | _ => false
  end.

Definition should_parse (type_ : hook) (lists : raw) : bool :=
  match type_ with
  | Block_t => Block_should_parse lists
  | Sentence_t => Sentence_should_parse lists
  | Statements_t => Statements_should_parse lists
  end.

(** [type_(context)]: the object a constructor leaves before [parse]. *)
Definition new (type_ : hook) (context : option ParseContext) : obj :=
  match type_ with
  | Block_t => Block context [] None None
  | Sentence_t => Sentence context []
  | Statements_t => Statements context [] None
  end.

(** ** [_space_list] *)

(** [x.isspace()] on a raw element; only strings have the method. *)
Definition py_isspace (v : raw) : res bool :=
  match v with
  | RStr s => Ok (Str.isspace s)
  | _ => Raise AttributeError
  end.

(** What [list_[i]] ranges over: the elements of a list, the characters of a
    string; anything else has no [len]. *)
Definition py_items (v : raw) : res (list raw) :=
  match v with
  | RList l => Ok l
  | RStr s => Ok (map RStr (Str.chars s))
  | RInt _ => Raise TypeError
  end.

Definition py_index {A} (l : list A) (i : nat) : res A :=
  match l !! i with
  | Some x => Ok x
  | None => Raise IndexError
  end.

(** One turn of the loop of [_space_list], at index [i]. *)
Definition _space_list_step (list_ : list raw) (acc : res (list raw)) (i : nat)
  : res (list raw) :=
  res_bind acc (fun spaced_statement =>
  res_bind (py_index list_ i) (fun x =>
  let spaced_statement := x :: spaced_statement in
  if (0 <? i)%nat then
    res_bind (py_isspace x) (fun xs =>
    if negb xs then
      res_bind (py_index list_ (i - 1)) (fun y =>
      res_bind (py_isspace y) (fun ys =>
      if negb ys then Ok (RStr " " :: spaced_statement)
      else Ok spaced_statement))
    else Ok spaced_statement)
  else Ok spaced_statement)).

Definition _space_list (list_ : raw) : res (list raw) :=
  res_bind (py_items list_) (fun items =>
  fold_left (_space_list_step items) (rev (seq 0 (length items))) (Ok [])).

(** ** Parsing *)

(** The strings of a list whose elements are all strings. *)
Fixpoint strings_of (l : list raw) : option (list string) :=
  match l with
  | [] => Some []
  | RStr s :: l' => option_map (cons s) (strings_of l')
  | _ :: _ => None
  end.

(** [Sentence.parse].  The caller's list is not touched: [_space_list] builds
    a new one. *)
Definition Sentence_parse (self : loc) (parse_this : raw) (add_spaces : bool)
  : M unit :=
  do parse_this <~ (if add_spaces
                    then lift (res_map RList (_space_list parse_this))
                    else ret parse_this) in
  match parse_this with
  | RList l =>
      match strings_of l with
      | Some d => set_sentence_data self d
      | None => raise MisconfigurationError
      end
  | _ => raise MisconfigurationError
  end.

(** What a parser returns: the caller's raw value after the call, the store,
    and the result. *)
Definition parsed (R A : Type) : Type := (R * store * res A)%type.

Section Parsers.

(** The recursive call to [parse_raw]. *)
Variable parse_raw_rec :
  raw -> option ParseContext -> bool -> store -> parsed raw loc.

(** [[parse_raw(elem, self.child_context(), add_spaces) for elem in
    parse_this[:n]]]; the elements from [n] on are not visited. *)
Fixpoint parse_elems (self : loc) (add_spaces : bool) (n : nat)
    (parse_this : list raw) (st : store) {struct parse_this}
  : parsed (list raw) (list loc) :=
  match n, parse_this with
  | S n', elem :: rest =>
      match child_context self st with
      | Raise e => (parse_this, st, Raise e)
      | Ok ctx =>
          match parse_raw_rec elem (Some ctx) add_spaces st with
          | (elem', st1, Raise e) => (elem' :: rest, st1, Raise e)
          | (elem', st1, Ok x) =>
              match parse_elems self add_spaces n' rest st1 with
              | (rest', st2, r) => (elem' :: rest', st2, res_map (cons x) r)
              end
          end
      end
  | _, _ => (parse_this, st, Ok [])
  end.

(** The trailing whitespace of a list of statements, if it has one. *)
Definition trailing_whitespace (l : list raw) : option string :=
  match last l with
  | Some (RStr s) => if Str.isspace s then Some s else None
  | _ => None
  end.

(** [Statements.parse]. *)
Definition Statements_parse (self : loc) (parse_this : raw) (add_spaces : bool)
    (st : store) : parsed raw unit :=
  match parse_this with
  | RList l =>
      let '(st1, r1, n) :=
        match trailing_whitespace l with
        | Some s =>
            let '(st1, r1) := set_trailing_whitespace self s st in
            (st1, r1, (length l - 1)%nat)
        | None => (st, Ok tt, length l)
        end in
      match r1 with
      | Raise e => (parse_this, st1, Raise e)
      | Ok _ =>
          match parse_elems self add_spaces n l st1 with
          | (l', st2, Raise e) => (RList l', st2, Raise e)
          | (l', st2, Ok d) =>
              let '(st3, r3) := set_statements_data self d st2 in
              (RList l', st3, r3)
          end
      end
  | _ => (parse_this, st, Raise MisconfigurationError)
  end.

(** [parse_this[0].append(" ")]. *)
Definition py_append (v : raw) (x : raw) : res raw :=
  match v with
  | RList l => Ok (RList (l ++ [x]))
  | _ => Raise AttributeError
  end.

(** [Block.parse]. *)
Definition Block_parse (self : loc) (parse_this : raw) (add_spaces : bool)
    (st : store) : parsed raw unit :=
  if negb (Block_should_parse parse_this) then
    (parse_this, st, Raise MisconfigurationError)
  else
    match parse_this with
    | RList (p0 :: p1 :: rest) =>
        match (do ctx <~ reading (child_context self) in
               do names <~ alloc (Sentence (Some ctx) []) in
               run set_block_names self names in
               ret names) st with
        | (st1, Raise e) => (parse_this, st1, Raise e)
        | (st1, Ok names) =>
            match (if add_spaces then py_append p0 (RStr " ") else Ok p0) with
            | Raise e => (parse_this, st1, Raise e)
            | Ok p0' =>
                match (run Sentence_parse names p0' add_spaces in
                       do ctx <~ reading (child_context self) in
                       do contents <~ alloc (Statements (Some ctx) [] None) in
                       run set_block_contents self contents in
                       ret contents) st1 with
                | (st2, Raise e) => (RList (p0' :: p1 :: rest), st2, Raise e)
                | (st2, Ok contents) =>
                    match Statements_parse contents p1 add_spaces st2 with
                    | (p1', st3, Raise e) =>
                        (RList (p0' :: p1' :: rest), st3, Raise e)
                    | (p1', st3, Ok _) =>
                        let '(st4, r4) :=
                          set_block_data self [names; contents] st3 in
                        (RList (p0' :: p1' :: rest), st4, r4)
                    end
                end
            end
        end
    | _ => (parse_this, st, Raise IndexError)
    end.

(** [parser.parse(lists_, add_spaces)]: the method of the class of [parser]. *)
Definition parse_method (parser : loc) (lists_ : raw) (add_spaces : bool)
    (st : store) : parsed raw unit :=
  match st !! parser with
  | Some (Sentence _ _) =>
      let '(st', r) := Sentence_parse parser lists_ add_spaces st in
      (lists_, st', r)
  | Some (Statements _ _ _) => Statements_parse parser lists_ add_spaces st
  | Some (Block _ _ _ _) => Block_parse parser lists_ add_spaces st
  | None => (lists_, st, Raise ReferenceError)
  end.

End Parsers.

(** [_choose_parser]: the first hook that accepts [list_] makes the object. *)
Fixpoint _choose_parser_loop (child_context : ParseContext)
    (hooks : list hook) (list_ : raw) : M loc :=
  match hooks with
  | [] => raise MisconfigurationError
  | type_ :: hooks' =>
      if should_parse type_ list_ then alloc (new type_ (Some child_context))
      else _choose_parser_loop child_context hooks' list_
  end.

Definition _choose_parser (child_context : ParseContext) (list_ : raw) : M loc :=
  match parsing_hooks child_context with
  | Some hooks => _choose_parser_loop child_context hooks list_
  | None => raise TypeError
  end.

(** [parse_raw]. *)
Fixpoint parse_raw (lists_ : raw) (context : option ParseContext)
    (add_spaces : bool) (st : store) {struct lists_} : parsed raw loc :=
  let context :=
    match context with
    | None => mkContext None (Some DEFAULT_PARSING_HOOKS)
    | Some c => c
    end in
  let context :=
    match parsing_hooks context with
    | None => mkContext (parent context) (Some DEFAULT_PARSING_HOOKS)
    | Some _ => context
    end in
  match _choose_parser context lists_ st with
  | (st1, Raise e) => (lists_, st1, Raise e)
  | (st1, Ok parser) =>
      match parse_method parse_raw parser lists_ add_spaces st1 with
      | (lists_', st2, Raise e) => (lists_', st2, Raise e)
      | (lists_', st2, Ok _) => (lists_', st2, Ok parser)
      end
  end.

(** ** Methods of parsed objects *)

(** [Sentence.words]. *)
Definition words_of (d : list string) : list string :=
  map (Str.strip quotes) (List.filter (fun word => negb (Str.isspace word)) d).

Definition words (st : store) (self : loc) : res (list string) :=
  res_map words_of (get_sentence self st).

(** [get_tabs], by the class of [self]. *)
Definition Sentence_get_tabs (d : list string) : res string :=
  res_bind (py_index d 0) (fun first =>
  if negb (Str.isspace first) then Ok EmptyString
  else
    let rindex := Str.rfind Str.nl_char first in
    Ok (Str.drop (Z.to_nat (rindex + 1)) first)).

Fixpoint get_tabs (fuel : nat) (st : store) (self : loc) : res string :=
  match fuel with
  | O => Raise RecursionError
  | S fuel' =>
      res_bind (get_obj self st) (fun o =>
      match o with
      | Sentence _ d => Sentence_get_tabs d
      | Statements _ d _ =>
          match d with
          | first :: _ => get_tabs fuel' st first
          | [] => Ok EmptyString
          end
      | Block _ _ names _ =>
          match names with
          | Some n => get_tabs fuel' st n
          | None => Raise AttributeError
          end
      end)
  end.

(** [Sentence.set_tabs]. *)
Definition Sentence_set_tabs (self : loc) (tabs : string) : M unit :=
  do d <~ reading (get_sentence self) in
  do first <~ lift (py_index d 0) in
  if Str.isspace first then ret tt
  else set_sentence_data self (String.append Str.nl tabs :: d).

(** [for x in l: f(x)], stopping at the first exception. *)
Fixpoint for_each {A} (f : A -> M unit) (l : list A) : M unit :=
  match l with
  | [] => ret tt
  | x :: l' => run f x in for_each f l'
  end.

Fixpoint set_tabs (fuel : nat) (self : loc) (tabs : string) : M unit :=
  match fuel with
  | O => raise RecursionError
  | S fuel' =>
      do o <~ reading (get_obj self) in
      match o with
      | Sentence _ _ => Sentence_set_tabs self tabs
      | Statements context d _ =>
          run for_each (fun statement => set_tabs fuel' statement tabs) d in
          match context with
          | Some (mkContext (Some p) _) =>
              do t <~ reading (fun st => get_tabs fuel' st p) in
              set_trailing_whitespace self (String.append Str.nl t)
          | _ => ret tt
          end
      | Block _ _ names contents =>
          match names with
          | None => raise AttributeError
          | Some n =>
              run set_tabs fuel' n tabs in
              match contents with
              | None => raise AttributeError
              | Some c => set_tabs fuel' c (String.append tabs "    ")
              end
          end
      end
  end.

(** [dump]: [WithLists.dump] and its two overrides. *)
Fixpoint dump (fuel : nat) (st : store) (self : loc) (include_spaces : bool)
  : res raw :=
  match fuel with
  | O => Raise RecursionError
  | S fuel' =>
      res_bind (get_obj self st) (fun o =>
      match o with
      | Sentence _ d =>
          if negb include_spaces then Ok (RList (map RStr (words_of d)))
          else Ok (RList (map RStr d))
      | Statements _ d tw =>
          res_bind (res_all (fun elem => dump fuel' st elem include_spaces) d)
            (fun data =>
          match tw with
          | Some s =>
              if include_spaces then Ok (RList (data ++ [RStr s]))
              else Ok (RList data)
          | None => Ok (RList data)
          end)
      | Block _ d _ _ =>
          res_map RList
            (res_all (fun elem => dump fuel' st elem include_spaces) d)
      end)
  end.

(** [iterate].  The generators are run to their end; [match_] is a predicate
    on objects of the store, or absent. *)
Definition matches (match_ : option (store -> loc -> bool)) (st : store)
    (self : loc) : bool :=
  match match_ with
  | None => true
  | Some f => f st self
  end.

Fixpoint iterate (fuel : nat) (st : store) (self : loc) (expanded : bool)
    (match_ : option (store -> loc -> bool)) : res (list loc) :=
  match fuel with
  | O => Raise RecursionError
  | S fuel' =>
      res_bind (get_obj self st) (fun o =>
      match o with
      | Sentence _ _ =>
          Ok (if matches match_ st self then [self] else [])
      | Statements _ d _ =>
          res_map (@concat loc)
            (res_all (fun elem => iterate fuel' st elem expanded match_) d)
      | Block _ _ _ contents =>
          let own := if matches match_ st self then [self] else [] in
          if expanded then
            match contents with
            | None => Raise AttributeError
            | Some c =>
                res_map (app own) (iterate fuel' st c expanded match_)
            end
          else Ok own
      end)
  end.

(** [_is_comment]. *)
Definition _is_comment (st : store) (parsed_obj : loc) : res bool :=
  res_bind (get_obj parsed_obj st) (fun o =>
  match o with
  | Sentence _ _ =>
      res_bind (words st parsed_obj) (fun w =>
      res_bind (py_index w 0) (fun first =>
      Ok (String.eqb first "#")))
  | _ => Ok false
  end).

(** ** [Sentence.__getitem__] and the comment that marks what Certbot manages *)

(** The module's two constants. *)
Definition COMMENT : string := " managed by Certbot".
Definition COMMENT_BLOCK : list string := ["#"; COMMENT].

(** [s * n] on a string: [n] copies, none when [n] is not positive. *)
Definition py_str_mul (s : string) (n : Z) : string :=
  Nat.iter (Z.to_nat n) (String.append s) EmptyString.

(** [l[i]] for an integer index: a negative one counts from the end. *)
Definition py_getitem {A} (l : list A) (i : Z) : res A :=
  let n := Z.of_nat (length l) in
  if (0 <=? i)%Z then py_index l (Z.to_nat i)
  else if (- n <=? i)%Z then py_index l (Z.to_nat (n + i))
  else Raise IndexError.

(** [Sentence.__getitem__]. *)
Definition Sentence___getitem__ (st : store) (self : loc) (index : Z) : res string :=
  res_bind (words st self) (fun w => py_getitem w index).

(** The loop of [_is_certbot_comment], from index [i] on. *)
Fixpoint _is_certbot_comment_loop (i : nat) (ws : list string) : res bool :=
  match ws with
  | [] => Ok true
  | word :: ws' =>
      res_bind (py_index COMMENT_BLOCK i) (fun c =>
      if negb (String.eqb word c) then Ok false
      else _is_certbot_comment_loop (S i) ws')
  end.

(** [_is_certbot_comment]. *)
Definition _is_certbot_comment (st : store) (parsed_obj : loc) : res bool :=
  res_bind (_is_comment st parsed_obj) (fun c =>
  if negb c then Ok false
  else
    res_bind (words st parsed_obj) (fun w =>
    if negb (length w =? length COMMENT_BLOCK)%nat then Ok false
    else _is_certbot_comment_loop 0 w)).

(** [_certbot_comment]. *)
Definition _certbot_comment (context : option ParseContext) (preceding_spaces : Z)
  : M loc :=
  do result <~ alloc (Sentence context []) in
  run Sentence_parse result
        (RList (RStr (py_str_mul " " preceding_spaces) :: map RStr COMMENT_BLOCK))
        false in
  ret result.

(** ** Vocabulary of the statements *)

Definition class_of (o : obj) : hook :=
  match o with
  | Sentence _ _ => Sentence_t
  | Statements _ _ _ => Statements_t
  | Block _ _ _ _ => Block_t
  end.

(** The hooks [parse_raw] dispatches over for a given [context] argument. *)
Definition hooks_in_force (context : option ParseContext) : list hook :=
  match context with
  | Some (mkContext _ (Some hooks)) => hooks
  | _ => DEFAULT_PARSING_HOOKS
  end.

Definition parent_of (context : option ParseContext) : option loc :=
  match context with
  | Some c => parent c
  | None => None
  end.

(** Nesting depth of a raw value: the recursion [dump] needs to rebuild it. *)
Fixpoint depth (r : raw) : nat :=
  match r with
  | RList l => S (fold_right (fun e n => Nat.max (depth e) n) 0%nat l)
  | _ => 0%nat
  end.

(** [evolves self st st']: every object of [st] is still there in [st'], with
    its class and context, and unchanged unless it is [self]. *)
Definition evolves (self : loc) (st st' : store) : Prop :=
  forall k o, st !! k = Some o ->
    exists o', st' !! k = Some o' /\ class_of o' = class_of o /\
               context_of o' = context_of o /\ (k <> self -> o' = o).

(** [extends st st']: [st'] only adds objects to [st]. *)
Definition extends (st st' : store) : Prop :=
  forall k o, st !! k = Some o -> st' !! k = Some o.

(** [keeps_from n st st']: the objects of [st] at [n] and above are in [st']. *)
Definition keeps_from (n : nat) (st st' : store) : Prop :=
  forall k o, (n <= k)%nat -> st !! k = Some o -> st' !! k = Some o.

(** What [set_tabs] may change in an object: the tokens of a [Sentence], the
    trailing whitespace of a [Statements] whose context has a parent. *)
Definition retabbed (o o' : obj) : Prop :=
  match o with
  | Sentence c d => exists d', o' = Sentence c d' /\ (d <> [] -> d' <> [])
  | Statements c d tw =>
      exists tw', o' = Statements c d tw' /\ (parent_of c = None -> tw' = tw)
  | Block _ _ _ _ => o' = o
  end.

Definition retabs (st st' : store) : Prop :=
  forall k, match st !! k with
            | Some o => exists o', st' !! k = Some o' /\ retabbed o o'
            | None => st' !! k = None
            end.

(** The spec's reading of spacing synthesis, token by token: a single space
    goes before a token when neither it nor the token before it is whitespace. *)
Fixpoint spaced_from (prev : string) (ws : list string) : list string :=
  match ws with
  | [] => []
  | w :: ws' =>
      (if negb (Str.isspace w) && negb (Str.isspace prev) then [" "] else [])
      ++ w :: spaced_from w ws'
  end.

Definition spaced_spec (ws : list string) : list string :=
  match ws with
  | [] => []
  | w :: ws' => w :: spaced_from w ws'
  end.

(** No two neighbours of [ws] are both non-whitespace. *)
Fixpoint separated_from (prev : string) (ws : list string) : bool :=
  match ws with
  | [] => true
  | w :: ws' =>
      (Str.isspace w || Str.isspace prev) && separated_from w ws'
  end.

Definition separated (ws : list string) : bool :=
  match ws with
  | [] => true
  | w :: ws' => separated_from w ws'
  end.

(** The spec's reading of [words]: at most one quote character is taken from
    each end of a token. *)
Definition strip_one_quote_spec (s : string) : string :=
  let s1 := match s with
            | String c s' => if Str.mem c quotes then s' else s
            | EmptyString => s
            end in
  String.rev
    (match String.rev s1 with
     | String c s' => if Str.mem c quotes then s' else String.rev s1
     | EmptyString => EmptyString
     end).

(** The context [parse_raw] works with, once its two defaults are filled in. *)
Definition context_in_force (context : option ParseContext) : ParseContext :=
  match context with
  | None => mkContext None (Some DEFAULT_PARSING_HOOKS)
  | Some c =>
      match parsing_hooks c with
      | None => mkContext (parent c) (Some DEFAULT_PARSING_HOOKS)
      | Some _ => c
      end
  end.

(** The variant first-match dispatch picks for [r]. *)
Definition first_match (context : option ParseContext) (r : raw) : option hook :=
  find (fun type_ => should_parse type_ r) (hooks_in_force context).

(** What every call of [parse_raw] on [r] guarantees about the store and the
    result: objects already there are untouched, the new object sits at the
    first free location with the class dispatch chose, and the only error is
    the module's own. *)
Definition parse_raw_basic (r : raw) : Prop :=
  forall ctx b st r' st' res,
    parse_raw r ctx b st = (r', st', res) ->
    extends st st' /\
    (forall e, res = Raise e -> e = MisconfigurationError) /\
    (forall p, res = Ok p -> p = length st) /\
    match first_match ctx r with
    | Some t =>
        exists o, st' !! (length st) = Some o /\ class_of o = t /\
                  context_of o = Some (context_in_force ctx)
    | None => res = Raise MisconfigurationError /\ st' = st
    end.

(** Without spacing synthesis a call of [parse_raw] leaves the caller's raw
    value as it was. *)
Definition parse_raw_pure (r : raw) : Prop :=
  forall ctx (st : store) r' st' res,
    parse_raw r ctx false st = (r', st', res) -> r' = r.

(** A node parsed from [r] without spacing synthesis dumps back to [r], in
    every later store that still holds the objects the parse created. *)
Definition parse_raw_roundtrip (r : raw) : Prop :=
  forall ctx (st : store) r' st' p,
    parse_raw r ctx false st = (r', st', Ok p) ->
    forall (st'' : store) fuel,
      keeps_from (length st) st' st'' -> (depth r <= fuel)%nat ->
      dump fuel st'' p true = Ok r.

(** ** Worked examples *)

(** The block [server { listen 80; }] as pyparsing hands it over. *)
Definition ex_block : raw :=
  RList [RList [RStr "server"; RStr " "];
         RList [RList [RStr (String.append Str.nl "    "); RStr "listen";
                       RStr " "; RStr "80"; RStr ";"];
                RStr Str.nl]].

(** Two blocks side by side, [a { x; }] and [b { y; }]: a list of statements. *)
Definition ex_two_blocks : raw :=
  RList [RList [RList [RStr "a"; RStr " "]; RList [RList [RStr "x"; RStr ";"]]];
         RList [RList [RStr "b"; RStr " "]; RList [RList [RStr "y"; RStr ";"]]]].

(** The store after parsing [ex_block] with the defaults: the block at 0, its
    names at 1, its contents at 2, the sentence of the body at 3. *)
Definition ex_store : store := snd (fst (parse_raw ex_block None false [])).

(** A block whose lines carry no whitespace of their own, and its store. *)
Definition ex_plain_block : raw :=
  RList [RList [RStr "server"; RStr "name"];
         RList [RList [RStr "thing"; RStr "1"]; RList [RStr "thing"; RStr "2"]]].

Definition ex_plain_store : store :=
  snd (fst (parse_raw ex_plain_block None false [])).

(** [ex_store] after [set_tabs] with two spaces on the block. *)
Definition ex_retabbed : store := fst (set_tabs 4 0%nat "  " ex_store).

(** The objects [iterate] may yield: those that are not a [Statements]. *)
Definition visible (st : store) (x : loc) : Prop :=
  exists o, st !! x = Some o /\ class_of o <> Statements_t.

Definition starts_in (chars s : string) : bool :=
  match s with
  | String c _ => Str.mem c chars
  | EmptyString => false
  end.

Fixpoint ends_in (chars s : string) : bool :=
  match s with
  | EmptyString => false
  | String c EmptyString => Str.mem c chars
  | String _ s' => ends_in chars s'
  end.

Definition made_of (chars s : string) : bool :=
  Str.all_chars (fun c => Str.mem c chars) s.

(** [w] is [t] without its leading and trailing run of [chars]. *)
Definition stripped_of (chars t w : string) : Prop :=
  exists p s,
    t = String.append p (String.append w s) /\
    made_of chars p = true /\ made_of chars s = true /\
    starts_in chars w = false /\ ends_in chars w = false.

Definition dq : ascii := ascii_of_nat 34.

(** A token wrapped in two double quotes on each side. *)
Definition ex_quoted : string :=
  String dq (String dq (String "a" (String dq (String dq EmptyString)))).

Section AllFirst.
Variable P : raw -> bool.
(** [P] holds of the first [n] elements of [l]. *)
Fixpoint all_first (n : nat) (l : list raw) {struct l} : bool :=
  match n, l with
  | S n', e :: rest => P e && all_first n' rest
  | _, _ => true
  end.
End AllFirst.

(** How many elements of a list of statements are statements: all but a
    trailing whitespace. *)
Definition statements_count (l : list raw) : nat :=
  match trailing_whitespace l with
  | Some _ => (length l - 1)%nat
  | None => length l
  end.

(** Well-formed raw nodes under the default hooks: a list such that every
    value dispatch reaches inside it is a list again.  Strings occur only as
    the tokens of a sentence and as trailing whitespace. *)
Fixpoint well_formed (r : raw) : bool :=
  match r with
  | RList l =>
      if Block_should_parse r then
        match l with
        | [_; RList body] => all_first well_formed (statements_count body) body
        | _ => false
        end
      else if Sentence_should_parse r then true
      else all_first well_formed (statements_count l) l
  | _ => false
  end.

Definition is_ok {A} (r : res A) : bool :=
  match r with Ok _ => true | Raise _ => false end.

(** Under the default hooks [parse_raw] returns a node exactly for the
    well-formed raw values. *)
Definition parse_raw_decided (r : raw) : Prop :=
  forall ctx b (st : store) r' st' res,
    hooks_in_force ctx = DEFAULT_PARSING_HOOKS ->
    parse_raw r ctx b st = (r', st', res) ->
    is_ok res = well_formed r.

(** [iterate] returns on a node parsed from [r], within the depth of [r]. *)
Definition parse_raw_iterable (r : raw) : Prop :=
  forall ctx b (st : store) r' st' p,
    parse_raw r ctx b st = (r', st', Ok p) ->
    forall (st'' : store) fuel expanded match_,
      keeps_from (length st) st' st'' -> (depth r <= fuel)%nat ->
      is_ok (iterate fuel st'' p expanded match_) = true.

(** Tokens other than the single space that spacing synthesis inserts. *)
Definition not_single_space (w : string) : bool := negb (String.eqb w " ").

(** [linked n st par p]: below [p] the store holds a tree of height at most
    [n] as the parsers build it: sentences with a token, statements whose
    context points to [par] and whose children point back to them, blocks
    with a sentence for names and statements for contents. *)
Fixpoint linked (n : nat) (st : store) (par : option loc) (p : loc) : Prop :=
  match n with
  | O => False
  | S n' =>
      match st !! p with
      | Some (Sentence _ d) => d <> []
      | Some (Statements c ds _) =>
          parent_of c = par /\ Forall (linked n' st (Some p)) ds
      | Some (Block _ _ (Some nm) (Some k)) =>
          (exists cn dn, st !! nm = Some (Sentence cn dn) /\ dn <> []) /\
          (exists ck dk twk, st !! k = Some (Statements ck dk twk)) /\
          linked n' st (Some p) k
      | _ => False
      end
  end.

(** [get_tabs] returns on [q], now and after any re-indentation. *)
Definition tabbable (H : nat) (st : store) (q : loc) : Prop :=
  forall (st' : store) fuel,
    retabs st st' -> (H <= fuel)%nat -> exists t, get_tabs fuel st' q = Ok t.

(** A node parsed from [r] heads a linked tree no higher than the depth of
    [r], in every later store that still holds the objects the parse created. *)
Definition parse_raw_linked (r : raw) : Prop :=
  forall ctx b (st : store) r' st' p,
    parse_raw r ctx b st = (r', st', Ok p) ->
    forall (st'' : store) n,
      keeps_from (length st) st' st'' -> (depth r <= n)%nat ->
      linked n st'' (parent_of ctx) p.

(** ** Vocabulary of the further properties *)

(** What re-indentation with whitespace leaves alone: the words of a
    [Sentence], the children of a [Statements], a [Block]. *)
Definition same_words_obj (o o' : obj) : Prop :=
  match o with
  | Sentence c d => exists d', o' = Sentence c d' /\ words_of d' = words_of d
  | Statements c ds _ => exists tw', o' = Statements c ds tw'
  | Block _ _ _ _ => o' = o
  end.

Definition same_words (st st' : store) : Prop :=
  forall k, match st !! k with
            | Some o => exists o', st' !! k = Some o' /\ same_words_obj o o'
            | None => st' !! k = None
            end.

(** Parsing [r] with and without spacing synthesis, from stores that differ
    in whitespace only: the same result, and stores that differ in
    whitespace only. *)
Definition parse_raw_spacing (r : raw) : Prop :=
  forall ctx (stA stB : store) rA stA' resA rB stB' resB,
    same_words stB stA ->
    parse_raw r ctx true stA = (rA, stA', resA) ->
    parse_raw r ctx false stB = (rB, stB', resB) ->
    resA = resB /\ same_words stB' stA'.

(** [built n st hooks par p]: below [p] the store holds a tree of height at
    most [n] in which every object has the hooks [hooks] and, as the parent
    of its context, the object that holds it ([par] for [p] itself): a
    [Statements] for its statements, a [Block] for its names and contents;
    the data of a [Block] are its names and its contents. *)
Fixpoint built (n : nat) (st : store) (hooks : list hook) (par : option loc)
    (p : loc) : Prop :=
  match n with
  | O => False
  | S n' =>
      match st !! p with
      | Some (Sentence c _) => c = Some (mkContext par (Some hooks))
      | Some (Statements c ds _) =>
          c = Some (mkContext par (Some hooks)) /\
          Forall (built n' st hooks (Some p)) ds
      | Some (Block c data (Some nm) (Some k)) =>
          c = Some (mkContext par (Some hooks)) /\ data = [nm; k] /\
          (exists dn,
             st !! nm = Some (Sentence (Some (mkContext (Some p) (Some hooks))) dn)) /\
          (exists dk twk,
             st !! k = Some (Statements (Some (mkContext (Some p) (Some hooks))) dk twk)) /\
          built n' st hooks (Some p) k
      | _ => False
      end
  end.

Definition parse_raw_built (r : raw) : Prop :=
  forall ctx b (st : store) r' st' p,
    parse_raw r ctx b st = (r', st', Ok p) ->
    forall (st'' : store) n,
      keeps_from (length st) st' st'' -> (depth r <= n)%nat ->
      built n st'' (hooks_in_force ctx) (parent_of ctx) p.

(** The strings among the elements of a raw list. *)
Fixpoint texts (l : list raw) : list string :=
  match l with
  | [] => []
  | RStr s :: l' => s :: texts l'
  | _ :: l' => texts l'
  end.

Section Bare.
Variable hooks : list hook.

Section MapFirst.
Variable f : raw -> raw.
(** [f] on the first [n] elements of [l]. *)
Fixpoint map_first (n : nat) (l : list raw) {struct l} : list raw :=
  match n, l with
  | S n', e :: rest => f e :: map_first n' rest
  | _, _ => []
  end.
End MapFirst.

(** A raw value as it reads without its whitespace, under first-match
    dispatch over [hooks]: a sentence keeps its words, a list of statements
    loses its trailing whitespace, a block is its names and its body. *)
Fixpoint bare (r : raw) : raw :=
  match r with
  | RList l =>
      match find (fun type_ => should_parse type_ r) hooks with
      | Some Sentence_t => RList (map RStr (words_of (texts l)))
      | Some Statements_t => RList (map_first bare (statements_count l) l)
      | Some Block_t =>
          match l with
          | RList names :: RList body :: _ =>
              RList [RList (map RStr (words_of (texts names)));
                     RList (map_first bare (statements_count body) body)]
          | _ => r
          end
      | None => r
      end
  | _ => r
  end.
End Bare.

(** A node parsed from [r] dumps, without whitespace, to [r] laid bare. *)
Definition parse_raw_bare (r : raw) : Prop :=
  forall ctx b (st : store) r' st' p,
    parse_raw r ctx b st = (r', st', Ok p) ->
    forall (st'' : store) fuel,
      keeps_from (length st) st' st'' -> (depth r <= fuel)%nat ->
      dump fuel st'' p false = Ok (bare (hooks_in_force ctx) r).

(** The object at [x] is a [Sentence]: a predicate for [iterate], and what
    the children of a list of statements are when it holds no block. *)
Definition is_sentence (st : store) (x : loc) : bool :=
  match st !! x with
  | Some (Sentence _ _) => true
  | _ => false
  end.


(** * Properties *)

(** ** Raw values *)

Lemma depth_elem (l : list raw) (e : raw) :
  In e l -> (depth e < depth (RList l))%nat.
Proof.
  simpl. induction l as [|x l IH]; simpl; intros Hin; [contradiction|].
  destruct Hin as [->|Hin]; [lia|]. specialize (IH Hin). lia.
Qed.

Lemma raw_depth_ind (P : raw -> Prop) :
  (forall r, (forall r', (depth r' < depth r)%nat -> P r') -> P r) ->
  forall r, P r.
Proof.
  intros step r. remember (depth r) as n eqn:Hn.
  revert r Hn. induction (lt_wf n) as [n _ IH]. intros r ->.
  apply step. intros r' Hlt. exact (IH _ Hlt r' eq_refl).
Qed.

Lemma strings_of_map (l : list raw) (d : list string) :
  strings_of l = Some d -> l = map RStr d.
Proof.
  revert d. induction l as [|x l IH]; simpl; intros d H.
  - injection H as <-. reflexivity.
  - destruct x as [s| |]; try discriminate.
    destruct (strings_of l) as [d'|]; simpl in H; [|discriminate].
    injection H as <-. simpl. f_equal. apply IH. reflexivity.
Qed.

Lemma strings_of_RStr (d : list string) : strings_of (map RStr d) = Some d.
Proof. induction d as [|s d IH]; simpl; [reflexivity|]. rewrite IH. reflexivity. Qed.

Lemma strings_of_forallb (l : list raw) :
  forallb is_str l = true -> exists d, strings_of l = Some d.
Proof.
  induction l as [|x l IH]; simpl; intros H; [eexists; reflexivity|].
  apply andb_true_iff in H as [Hx Hl]. destruct x; try discriminate.
  destruct (IH Hl) as [d ->]. eexists; reflexivity.
Qed.

(** ** The store under the parsers *)

Lemma extends_refl st : extends st st.
Proof. intros k o H. exact H. Qed.

Lemma extends_trans st1 st2 st3 :
  extends st1 st2 -> extends st2 st3 -> extends st1 st3.
Proof. intros H1 H2 k o H. apply H2, H1, H. Qed.

Lemma extends_app st (o : obj) : extends st (st ++ [o]).
Proof.
  intros k o' H. rewrite lookup_app_l; [exact H|].
  apply lookup_lt_Some in H. exact H.
Qed.

Lemma extends_length st st' : extends st st' -> (length st <= length st')%nat.
Proof.
  intros H. destruct (decide (length st <= length st')%nat) as [|Hn]; [assumption|].
  destruct (lookup_lt_is_Some_2 st (length st')) as [o Ho]; [lia|].
  apply H in Ho. apply lookup_lt_Some in Ho. lia.
Qed.

Lemma evolves_refl self st : evolves self st st.
Proof. intros k o H. exists o. auto. Qed.

Lemma evolves_trans self st1 st2 st3 :
  evolves self st1 st2 -> evolves self st2 st3 -> evolves self st1 st3.
Proof.
  intros H1 H2 k o H.
  destruct (H1 k o H) as (o1 & Ho1 & Hc1 & Hx1 & He1).
  destruct (H2 k o1 Ho1) as (o2 & Ho2 & Hc2 & Hx2 & He2).
  exists o2. repeat split; try congruence.
  intros Hne. rewrite (He2 Hne). auto.
Qed.

Lemma extends_evolves self st st' : extends st st' -> evolves self st st'.
Proof. intros H k o Hk. exists o. auto. Qed.

Lemma evolves_extends self st st' st0 :
  extends st0 st -> (length st0 <= self)%nat -> evolves self st st' ->
  extends st0 st'.
Proof.
  intros H0 Hle H k o Hk.
  destruct (H k o (H0 k o Hk)) as (o' & Ho' & _ & _ & He).
  rewrite Ho', He; [reflexivity|].
  apply lookup_lt_Some in Hk. lia.
Qed.

Lemma evolves_insert self st (o o' : obj) :
  st !! self = Some o -> class_of o' = class_of o ->
  context_of o' = context_of o -> evolves self st (<[self := o']> st).
Proof.
  intros Hs Hc Hx k o1 Hk. destruct (decide (k = self)) as [->|Hne].
  - exists o'. rewrite list_lookup_insert_eq; [|eapply lookup_lt_Some; eauto].
    rewrite Hs in Hk. injection Hk as <-. repeat split; auto. contradiction.
  - exists o1. rewrite list_lookup_insert_ne; auto.
Qed.

Lemma keeps_from_weaken n m st st' :
  (n <= m)%nat -> keeps_from n st st' -> keeps_from m st st'.
Proof. intros Hle H k o Hk. apply H. lia. Qed.

(** The attribute assignments change [self] only, and keep its class. *)
Ltac setter_evolves :=
  let st := fresh "st" in let st' := fresh "st'" in let r := fresh "r" in
  let H := fresh "H" in
  intros st st' r H;
  match type of H with
  | ?f _ = _ => unfold f in H
  | ?f _ _ = _ => unfold f in H
  | ?f _ _ _ = _ => unfold f in H
  end;
  match type of H with
  | context [st !! ?self] =>
      destruct (st !! self) as [[]|] eqn:Hs; injection H as <- <-;
      try apply evolves_refl;
      eapply evolves_insert; [exact Hs|reflexivity|reflexivity]
  end.

Lemma set_sentence_data_evolves self d :
  forall st st' r, set_sentence_data self d st = (st', r) -> evolves self st st'.
Proof. setter_evolves. Qed.

Lemma set_statements_data_evolves self d :
  forall st st' r, set_statements_data self d st = (st', r) -> evolves self st st'.
Proof. setter_evolves. Qed.

Lemma set_trailing_whitespace_evolves self tw :
  forall st st' r, set_trailing_whitespace self tw st = (st', r) -> evolves self st st'.
Proof. setter_evolves. Qed.

Lemma set_block_names_evolves self n :
  forall st st' r, set_block_names self n st = (st', r) -> evolves self st st'.
Proof. setter_evolves. Qed.

Lemma set_block_contents_evolves self c :
  forall st st' r, set_block_contents self c st = (st', r) -> evolves self st st'.
Proof. setter_evolves. Qed.

Lemma set_block_data_evolves self d :
  forall st st' r, set_block_data self d st = (st', r) -> evolves self st st'.
Proof. setter_evolves. Qed.

(** ** [_space_list] against its token-by-token reading *)

Lemma fold_left_rev {A B} (g : B -> A -> B) (l : list A) (a : B) :
  fold_left g (rev l) a = fold_right (fun i acc => g acc i) a l.
Proof.
  induction l as [|x l IH]; simpl; [reflexivity|].
  rewrite fold_left_app. simpl. rewrite IH. reflexivity.
Qed.

Lemma py_index_middle (pre suf : list string) (w : string) :
  py_index (map RStr (pre ++ w :: suf)) (length pre) = Ok (RStr w).
Proof.
  unfold py_index. rewrite list_lookup_fmap.
  rewrite lookup_app_r by lia. rewrite Nat.sub_diag. reflexivity.
Qed.

Lemma space_list_loop (suf pre : list string) (prev : string) :
  fold_right
    (fun i acc => _space_list_step (map RStr (pre ++ prev :: suf)) acc i)
    (Ok []) (seq (S (length pre)) (length suf))
  = Ok (map RStr (spaced_from prev suf)).
Proof.
  revert pre prev. induction suf as [|w suf IH]; intros pre prev; [reflexivity|].
  simpl length. rewrite <- cons_seq. simpl fold_right.
  specialize (IH (pre ++ [prev]) w).
  rewrite <- app_assoc in IH. simpl in IH.
  rewrite length_app in IH. simpl in IH. rewrite Nat.add_1_r in IH.
  rewrite IH. unfold _space_list_step. simpl res_bind.
  pose proof (py_index_middle (pre ++ [prev]) suf w) as Hw.
  rewrite <- app_assoc, length_app in Hw. simpl in Hw. rewrite Nat.add_1_r in Hw.
  rewrite Hw. simpl.
  rewrite Nat.sub_0_r, (py_index_middle pre (w :: suf) prev). simpl.
  destruct (Str.isspace w); simpl; [reflexivity|].
  destruct (Str.isspace prev); reflexivity.
Qed.

Lemma space_list_strings (ws : list string) :
  _space_list (RList (map RStr ws)) = Ok (map RStr (spaced_spec ws)).
Proof.
  unfold _space_list. simpl res_bind. rewrite fold_left_rev, length_map.
  destruct ws as [|w ws]; [reflexivity|].
  simpl length. rewrite <- cons_seq.
  pose proof (space_list_loop ws [] w) as H. simpl in H |- *.
  rewrite H. reflexivity.
Qed.

Lemma spaced_from_separated (ws : list string) (prev : string) :
  separated_from prev ws = true -> spaced_from prev ws = ws.
Proof.
  revert prev. induction ws as [|w ws IH]; intros prev H; [reflexivity|].
  simpl in *. apply andb_true_iff in H as [H1 H2]. rewrite (IH _ H2).
  destruct (Str.isspace w), (Str.isspace prev); simpl in *; try reflexivity.
  discriminate.
Qed.

Lemma spaced_from_is_separated (ws : list string) (prev : string) :
  separated_from prev (spaced_from prev ws) = true.
Proof.
  revert prev. induction ws as [|w ws IH]; intros prev; [reflexivity|].
  simpl. destruct (Str.isspace w) eqn:Hw, (Str.isspace prev) eqn:Hp; simpl;
    rewrite ?Hw, ?Hp, ?IH; reflexivity.
Qed.

Lemma spaced_spec_separated (ws : list string) :
  separated ws = true -> spaced_spec ws = ws.
Proof.
  destruct ws as [|w ws]; [reflexivity|]. simpl. intros H.
  rewrite spaced_from_separated; auto.
Qed.

Lemma spaced_spec_is_separated (ws : list string) :
  separated (spaced_spec ws) = true.
Proof. destruct ws as [|w ws]; [reflexivity|]. apply spaced_from_is_separated. Qed.

Lemma spaced_from_between (pre post : list string) (p a b : string) :
  Str.isspace a = false -> Str.isspace b = false ->
  exists pre' post',
    spaced_from p (pre ++ a :: b :: post) = pre' ++ a :: " " :: b :: post'.
Proof.
  intros Ha Hb. revert p. induction pre as [|x pre IH]; intros p.
  - simpl. rewrite Ha, Hb. simpl. eexists _, _. reflexivity.
  - simpl. destruct (IH x) as (pre' & post' & ->).
    eexists (_ ++ x :: pre'), post'. rewrite <- app_assoc. reflexivity.
Qed.

Lemma spaced_spec_between (pre post : list string) (a b : string) :
  Str.isspace a = false -> Str.isspace b = false ->
  exists pre' post',
    spaced_spec (pre ++ a :: b :: post) = pre' ++ a :: " " :: b :: post'.
Proof.
  intros Ha Hb. destruct pre as [|x pre].
  - simpl. rewrite Ha, Hb. simpl. exists [], (spaced_from b post). reflexivity.
  - simpl. destruct (spaced_from_between pre post x a b Ha Hb) as (pre' & post' & ->).
    exists (x :: pre'), post'. reflexivity.
Qed.

Lemma spaced_from_only_spaces (ws : list string) (p : string) :
  List.filter not_single_space (spaced_from p ws) = List.filter not_single_space ws.
Proof.
  revert p. induction ws as [|w ws IH]; intros p; [reflexivity|].
  simpl. destruct (negb (Str.isspace w) && negb (Str.isspace p)); simpl;
    rewrite IH; reflexivity.
Qed.

Lemma spaced_spec_only_spaces (ws : list string) :
  List.filter not_single_space (spaced_spec ws) = List.filter not_single_space ws.
Proof.
  destruct ws as [|w ws]; [reflexivity|]. simpl.
  rewrite spaced_from_only_spaces. reflexivity.
Qed.

(** ** Dispatch *)

Lemma parse_raw_eq r ctx b st :
  parse_raw r ctx b st =
  match _choose_parser (context_in_force ctx) r st with
  | (st1, Raise e) => (r, st1, Raise e)
  | (st1, Ok parser) =>
      match parse_method parse_raw parser r b st1 with
      | (r', st2, Raise e) => (r', st2, Raise e)
      | (r', st2, Ok _) => (r', st2, Ok parser)
      end
  end.
Proof. destruct r, ctx as [[? [?|]]|]; reflexivity. Qed.

Lemma choose_parser_loop_find ctx hooks r st :
  _choose_parser_loop ctx hooks r st =
  match find (fun type_ => should_parse type_ r) hooks with
  | Some t => (st ++ [new t (Some ctx)], Ok (length st))
  | None => (st, Raise MisconfigurationError)
  end.
Proof.
  induction hooks as [|t hooks IH]; simpl; [reflexivity|].
  destruct (should_parse t r); [reflexivity|exact IH].
Qed.

Lemma choose_parser_first_match ctx r st :
  _choose_parser (context_in_force ctx) r st =
  match first_match ctx r with
  | Some t => (st ++ [new t (Some (context_in_force ctx))], Ok (length st))
  | None => (st, Raise MisconfigurationError)
  end.
Proof.
  unfold _choose_parser, first_match.
  destruct ctx as [[p [hooks|]]|]; exact (choose_parser_loop_find _ _ _ _).
Qed.

Lemma class_of_new t c : class_of (new t c) = t.
Proof. destruct t; reflexivity. Qed.

Lemma context_of_new t c : context_of (new t c) = c.
Proof. destruct t; reflexivity. Qed.

Lemma Sentence_should_parse_strings r :
  Sentence_should_parse r = true ->
  exists d, r = RList (map RStr d) /\ d <> [].
Proof.
  destruct r as [|l|]; simpl; try discriminate. intros H.
  apply andb_true_iff in H as [Hlen Hall].
  destruct (strings_of_forallb l Hall) as [d Hd].
  apply strings_of_map in Hd. subst l. exists d. split; [reflexivity|].
  intros ->. discriminate.
Qed.

Lemma Sentence_parse_strings self d b st c d0 :
  st !! self = Some (Sentence c d0) ->
  Sentence_parse self (RList (map RStr d)) b st =
  (<[self := Sentence c (if b then spaced_spec d else d)]> st, Ok tt).
Proof.
  intros Hs. unfold Sentence_parse, bind.
  destruct b; simpl.
  - unfold lift, res_map. rewrite space_list_strings. simpl.
    rewrite strings_of_RStr. unfold set_sentence_data. rewrite Hs. reflexivity.
  - rewrite strings_of_RStr. unfold set_sentence_data. rewrite Hs. reflexivity.
Qed.

Lemma child_context_Some self st o :
  st !! self = Some o ->
  child_context self st
  = Ok (mkContext (Some self)
          (match context_of o with Some c => parsing_hooks c | None => None end)).
Proof.
  intros H. unfold child_context, get_obj. rewrite H. simpl.
  destruct (context_of o); reflexivity.
Qed.

Lemma Block_should_parse_shape r :
  Block_should_parse r = true ->
  exists d l1, r = RList [RList (map RStr d); RList l1] /\ d <> [].
Proof.
  destruct r as [|l|]; simpl; try discriminate.
  destruct l as [|p0 [|p1 [|? ?]]]; simpl; try discriminate.
  intros H. apply andb_true_iff in H as [H0 H1].
  apply Sentence_should_parse_strings in H0 as (d & -> & Hd).
  destruct p1 as [|l1|]; try discriminate. eauto.
Qed.

Lemma Block_parse_eq (rec : raw -> option ParseContext -> bool -> store -> parsed raw loc) (self : loc) (d : list string) l1 (b : bool) (st : store) c d0 n0 k0 :
  st !! self = Some (Block c d0 n0 k0) -> d <> [] ->
  let ctx := Some (mkContext (Some self)
                     (match c with Some c => parsing_hooks c | None => None end)) in
  let names := length st in
  let contents := S (length st) in
  let dn := if b then d ++ [" "] else d in
  let p0' := RList (map RStr dn) in
  let st2 := <[self := Block c d0 (Some names) (Some contents)]> st
             ++ [Sentence ctx (if b then spaced_spec dn else dn);
                 Statements ctx [] None] in
  Block_parse rec self (RList [RList (map RStr d); RList l1]) b st =
  match Statements_parse rec contents (RList l1) b st2 with
  | (p1', st3, Raise e) => (RList [p0'; p1'], st3, Raise e)
  | (p1', st3, Ok _) =>
      let '(st4, r4) := set_block_data self [names; contents] st3 in
      (RList [p0'; p1'], st4, r4)
  end.
Proof.
  intros Hs Hd ctx names contents dn p0' st2.
  assert (Hlt : (self < length st)%nat) by (eapply lookup_lt_Some; eauto).
  unfold Block_parse.
  assert (Hsp : Block_should_parse (RList [RList (map RStr d); RList l1]) = true).
  { simpl. rewrite andb_true_r. apply andb_true_iff. split.
    - destruct d; [congruence|reflexivity].
    - clear. induction d; simpl; auto. }
  rewrite Hsp. cbn [negb].
  unfold bind at 1. unfold reading at 1.
  rewrite (child_context_Some _ _ _ Hs). cbn [context_of].
  unfold bind at 1. unfold alloc at 1.
  unfold bind at 1. unfold set_block_names.
  rewrite lookup_app_l by assumption. rewrite Hs.
  unfold ret at 1.
  rewrite insert_app_l by assumption.
  assert (Hp0 : (if b then py_append (RList (map RStr d)) (RStr " ")
                 else Ok (RList (map RStr d))) = Ok p0').
  { subst p0' dn. destruct b; simpl; [rewrite map_app|]; reflexivity. }
  rewrite Hp0. subst p0'.
  unfold bind at 1.
  erewrite Sentence_parse_strings; cycle 1.
  { rewrite lookup_app_r; rewrite length_insert; [|lia].
    rewrite Nat.sub_diag. reflexivity. }
  rewrite insert_app_r_alt; rewrite length_insert; [|lia].
  rewrite Nat.sub_diag. cbn [insert list_insert].
  unfold bind at 1, reading at 1.
  erewrite child_context_Some; cycle 1.
  { rewrite lookup_app_l; [|rewrite length_insert; lia].
    apply list_lookup_insert_eq. assumption. }
  cbn [context_of].
  unfold bind at 1, alloc at 1.
  unfold bind at 1, set_block_contents.
  rewrite <- app_assoc. cbn [app].
  rewrite lookup_app_l; [|rewrite length_insert; lia].
  rewrite list_lookup_insert_eq by assumption.
  unfold ret.
  rewrite insert_app_l; [|rewrite length_insert; lia].
  rewrite list_insert_insert_eq.
  rewrite length_app, length_insert. cbn [length]. rewrite Nat.add_1_r.
  reflexivity.
Qed.

Lemma Statements_parse_eq (rec : raw -> option ParseContext -> bool -> store -> parsed raw loc)
    (self : loc) (l : list raw) (b : bool) (st : store) c d0 tw0 :
  st !! self = Some (Statements c d0 tw0) ->
  let tw := match trailing_whitespace l with Some s => Some s | None => tw0 end in
  let n := match trailing_whitespace l with
           | Some _ => (length l - 1)%nat
           | None => length l
           end in
  let st1 := <[self := Statements c d0 tw]> st in
  Statements_parse rec self (RList l) b st =
  match parse_elems rec self b n l st1 with
  | (l', st2, Raise e) => (RList l', st2, Raise e)
  | (l', st2, Ok d) =>
      let '(st3, r3) := set_statements_data self d st2 in (RList l', st3, r3)
  end.
Proof.
  intros Hs tw n st1. unfold Statements_parse. subst tw n st1.
  destruct (trailing_whitespace l) as [s|].
  - unfold set_trailing_whitespace. rewrite Hs. reflexivity.
  - rewrite list_insert_id by assumption. reflexivity.
Qed.

Lemma res_map_Raise {A B} (f : A -> B) (r : res A) e :
  res_map f r = Raise e -> r = Raise e.
Proof. destruct r; simpl; [discriminate|congruence]. Qed.

Lemma parse_elems_basic (l : list raw) :
  Forall parse_raw_basic l ->
  forall (self : loc) b n (st : store) l' st' res,
    is_Some (st !! self) ->
    parse_elems parse_raw self b n l st = (l', st', res) ->
    extends st st' /\ (forall e, res = Raise e -> e = MisconfigurationError).
Proof.
  induction 1 as [|elem rest Helem _ IH]; intros self b n st l' st' res [o Ho] H.
  - destruct n; simpl in H; injection H as <- <- <-;
      (split; [apply extends_refl|discriminate]).
  - destruct n as [|n]; simpl in H.
    { injection H as <- <- <-. split; [apply extends_refl|discriminate]. }
    rewrite (child_context_Some _ _ _ Ho) in H.
    destruct (parse_raw elem _ b st) as [[elem' st1] [x|e]] eqn:Hp;
      apply Helem in Hp as (Hext & Herr & _).
    + destruct (parse_elems parse_raw self b n rest st1) as [[rest' st2] r] eqn:Hr.
      apply IH in Hr as [Hext2 Herr2]; [|exists o; apply Hext, Ho].
      injection H as <- <- <-. split; [eapply extends_trans; eauto|].
      intros e He. apply res_map_Raise in He. auto.
    + injection H as <- <- <-. split; [assumption|].
      intros e' He'. injection He' as <-. auto.
Qed.

Lemma Statements_parse_basic (l : list raw) :
  Forall parse_raw_basic l ->
  forall (self : loc) b (st : store) o r' st' res,
    st !! self = Some o -> class_of o = Statements_t ->
    Statements_parse parse_raw self (RList l) b st = (r', st', res) ->
    evolves self st st' /\ (forall e, res = Raise e -> e = MisconfigurationError).
Proof.
  intros Hl self b st o r' st' res Hs Hc H.
  destruct o as [|c d0 tw0|]; try discriminate.
  rewrite (Statements_parse_eq _ _ _ _ _ _ _ _ Hs) in H.
  match type of H with context [parse_elems _ _ _ ?n _ ?st1] =>
    destruct (parse_elems parse_raw self b n l st1) as [[l' st2] [d|e]] eqn:Hp;
    assert (Hev1 : evolves self st st1)
      by (eapply evolves_insert; [exact Hs|reflexivity|reflexivity]);
    assert (Hs1 : exists o1, st1 !! self = Some o1 /\ class_of o1 = Statements_t)
      by (eexists; split; [apply list_lookup_insert_eq; eapply lookup_lt_Some; eauto|reflexivity])
  end; destruct Hs1 as (o1 & Hs1 & Hc1);
    eapply parse_elems_basic in Hp as [Hext Herr]; eauto.
  - destruct (set_statements_data self d st2) as [st3 r3] eqn:Hset.
    injection H as <- <- <-. split.
    + eapply evolves_trans; [exact Hev1|].
      eapply evolves_trans; [apply extends_evolves; exact Hext|].
      eapply set_statements_data_evolves; eauto.
    + intros e He. subst r3. unfold set_statements_data in Hset.
      rewrite (Hext _ _ Hs1) in Hset. destruct o1; discriminate.
  - injection H as <- <- <-. split.
    + eapply evolves_trans; [exact Hev1|]. apply extends_evolves; exact Hext.
    + intros e' He'. injection He' as <-. auto.
Qed.

Lemma extends_app_gen (st ext : store) : extends st (st ++ ext).
Proof.
  intros k o H. rewrite lookup_app_l; [exact H|].
  apply lookup_lt_Some in H. exact H.
Qed.

Lemma evolves_new (self x : loc) (st st1 st2 : store) :
  evolves self st st1 -> evolves x st1 st2 -> (length st <= x)%nat ->
  evolves self st st2.
Proof.
  intros H1 H2 Hle k o Hk.
  destruct (H1 k o Hk) as (o1 & Ho1 & Hc1 & Hx1 & He1).
  destruct (H2 k o1 Ho1) as (o2 & Ho2 & Hc2 & Hx2 & He2).
  assert (k <> x) by (apply lookup_lt_Some in Hk; lia).
  exists o2. repeat split; try congruence.
  intros Hne. rewrite He2, He1; auto.
Qed.

Lemma Block_parse_basic (l1 : list raw) :
  Forall parse_raw_basic l1 ->
  forall (self : loc) (d : list string) b (st : store) c d0 n0 k0 r' st' res,
    st !! self = Some (Block c d0 n0 k0) -> d <> [] ->
    Block_parse parse_raw self (RList [RList (map RStr d); RList l1]) b st
    = (r', st', res) ->
    evolves self st st' /\ (forall e, res = Raise e -> e = MisconfigurationError).
Proof.
  intros Hl self d b st c d0 n0 k0 r' st' res Hs Hd H.
  assert (Hlt : (self < length st)%nat) by (eapply lookup_lt_Some; eauto).
  rewrite (Block_parse_eq _ _ _ _ _ _ _ _ _ _ Hs Hd) in H.
  match type of H with context [Statements_parse _ ?k _ _ ?st2] =>
    destruct (Statements_parse parse_raw k (RList l1) b st2)
      as [[p1' st3] r3] eqn:Hp;
    assert (Hev2 : evolves self st st2)
      by (eapply evolves_trans; [|apply extends_evolves, extends_app_gen];
          eapply evolves_insert; [exact Hs|reflexivity|reflexivity]);
    assert (Hs2 : exists o2, st2 !! self = Some o2 /\ class_of o2 = Block_t)
      by (eexists; split;
          [rewrite lookup_app_l by (rewrite length_insert; lia);
           apply list_lookup_insert_eq; assumption|reflexivity])
  end.
  destruct Hs2 as (o2 & Hs2 & Hc2).
  eapply Statements_parse_basic in Hp as [Hev3 Herr3]; eauto; cycle 1.
  { rewrite lookup_app_r; rewrite length_insert; [|lia].
    replace (S (length st) - length st)%nat with 1%nat by lia. reflexivity. }
  { reflexivity. }
  assert (Hev : evolves self st st3) by (eapply evolves_new; eauto).
  destruct r3 as [[]|e].
  - destruct (set_block_data self _ st3) as [st4 r4] eqn:Hset.
    injection H as <- <- <-. split.
    + eapply evolves_trans; [exact Hev|].
      eapply set_block_data_evolves; eauto.
    + intros e He. subst r4. unfold set_block_data in Hset.
      destruct (Hev3 _ _ Hs2) as (o3 & Ho3 & Hc3 & _).
      rewrite Ho3 in Hset. rewrite Hc2 in Hc3.
      destruct o3; try discriminate Hc3. discriminate Hset.
  - injection H as <- <- <-. split; [exact Hev|].
    intros e' He'. injection He' as <-. auto.
Qed.

Lemma first_match_should_parse ctx r t :
  first_match ctx r = Some t -> should_parse t r = true.
Proof. unfold first_match. intros H. apply find_some in H as [_ H]. exact H. Qed.

Lemma parse_raw_basic_all (r : raw) : parse_raw_basic r.
Proof.
  induction r as [r IH] using raw_depth_ind.
  intros ctx b st r' st' res H.
  rewrite parse_raw_eq, choose_parser_first_match in H.
  destruct (first_match ctx r) as [t|] eqn:Hfm; cycle 1.
  { injection H as <- <- <-. split; [apply extends_refl|].
    split; [intros e He; congruence|]. split; [discriminate|]. auto. }
  pose proof (first_match_should_parse _ _ _ Hfm) as Hsp.
  set (c := Some (context_in_force ctx)) in *.
  assert (Hnew : (st ++ [new t c]) !! length st = Some (new t c)).
  { rewrite lookup_app_r by lia. rewrite Nat.sub_diag. reflexivity. }
  assert (Hmeth : exists r1 st1 r2,
    parse_method parse_raw (length st) r b (st ++ [new t c]) = (r1, st1, r2) /\
    evolves (length st) (st ++ [new t c]) st1 /\
    (forall e, r2 = Raise e -> e = MisconfigurationError)).
  { unfold parse_method. rewrite Hnew. destruct t; simpl in Hsp |- *.
    - apply Block_should_parse_shape in Hsp as (d & l1 & -> & Hd).
      destruct (Block_parse parse_raw (length st) _ b (st ++ [Block c [] None None]))
        as [[r1 st1] r2] eqn:Hp.
      exists r1, st1, r2. split; [reflexivity|].
      eapply (Block_parse_basic l1); [|exact Hnew|exact Hd|exact Hp].
      apply Forall_forall. intros e He. apply IH.
      apply list_elem_of_In, depth_elem in He.
      pose proof (depth_elem [RList (map RStr d); RList l1] (RList l1)
                    ltac:(simpl; auto)). lia.
    - apply Sentence_should_parse_strings in Hsp as (d & -> & Hd).
      erewrite Sentence_parse_strings by exact Hnew.
      do 3 eexists. split; [reflexivity|]. split; [|discriminate].
      eapply evolves_insert; [exact Hnew|reflexivity|reflexivity].
    - destruct r as [|l|]; try discriminate.
      destruct (Statements_parse parse_raw (length st) _ b (st ++ [Statements c [] None]))
        as [[r1 st1] r2] eqn:Hp.
      exists r1, st1, r2. split; [reflexivity|].
      eapply (Statements_parse_basic l); [|exact Hnew|reflexivity|exact Hp].
      apply Forall_forall. intros e He. apply IH.
      apply depth_elem, list_elem_of_In; assumption. }
  destruct Hmeth as (r1 & st1 & r2 & Hm & Hev & Herr). rewrite Hm in H.
  assert (Hext : extends st st1).
  { eapply evolves_extends; [apply extends_app| |exact Hev]. lia. }
  assert (Hobj : exists o, st1 !! length st = Some o /\ class_of o = t /\
                           context_of o = c).
  { destruct (Hev _ _ Hnew) as (o & Ho & Hc & Hx & _). exists o.
    rewrite Hc, Hx, class_of_new, context_of_new. auto. }
  destruct r2 as [[]|e]; injection H as <- <- <-.
  - repeat split; auto; try discriminate. intros p Hp. congruence.
  - repeat split; auto; try discriminate. intros e' He'.
    injection He' as <-. auto.
Qed.

(** ** A list with an element that is neither a string nor a list *)

Lemma first_match_RInt ctx z : first_match ctx (RInt z) = None.
Proof.
  unfold first_match. induction (hooks_in_force ctx) as [|t l IH]; [reflexivity|].
  simpl. destruct t; exact IH.
Qed.

Lemma first_match_RStr ctx s : first_match ctx (RStr s) = None.
Proof.
  unfold first_match. induction (hooks_in_force ctx) as [|t l IH]; [reflexivity|].
  simpl. destruct t; exact IH.
Qed.

Lemma parse_elems_RInt (l : list raw) (z : Z) :
  forall (self : loc) b n (st : store) l' st' res,
    In (RInt z) (take n l) -> is_Some (st !! self) ->
    parse_elems parse_raw self b n l st = (l', st', res) ->
    res = Raise MisconfigurationError.
Proof.
  induction l as [|elem rest IH]; intros self b n st l' st' res Hin [o Ho] H.
  { destruct n; contradiction. }
  destruct n as [|n]; [contradiction|]. simpl in H, Hin.
  rewrite (child_context_Some _ _ _ Ho) in H.
  destruct (parse_raw elem _ b st) as [[elem' st1] [x|e]] eqn:Hp;
    pose proof (parse_raw_basic_all _ _ _ _ _ _ _ Hp) as (Hext & Herr & _ & Hfm).
  - destruct (parse_elems parse_raw self b n rest st1) as [[rest' st2] r] eqn:Hr.
    injection H as <- <- <-. destruct Hin as [->|Hin].
    + rewrite first_match_RInt in Hfm. destruct Hfm; discriminate.
    + eapply IH in Hr; eauto. subst r. reflexivity.
  - injection H as <- <- <-. rewrite (Herr e); reflexivity.
Qed.

Lemma In_take_last {A} (l : list A) (x y : A) :
  In x l -> last l = Some y -> x <> y -> In x (take (length l - 1) l).
Proof.
  intros Hin Hlast Hne. apply last_Some in Hlast as [l' ->].
  rewrite length_app. simpl. replace (length l' + 1 - 1)%nat with (length l') by lia.
  rewrite take_app_length. apply in_app_or in Hin as [Hin|[Hin|[]]]; congruence.
Qed.

Lemma trailing_whitespace_last (l : list raw) s :
  trailing_whitespace l = Some s -> last l = Some (RStr s) /\ Str.isspace s = true.
Proof.
  unfold trailing_whitespace. destruct (last l) as [[s'| |]|]; try discriminate.
  destruct (Str.isspace s') eqn:Hs; [|discriminate]. intros [= <-]. auto.
Qed.

Lemma parse_raw_RInt_element (l : list raw) (z : Z) ctx b (st : store) :
  In (RInt z) l ->
  exists r' st', parse_raw (RList l) ctx b st = (r', st', Raise MisconfigurationError).
Proof.
  intros Hin.
  destruct (parse_raw (RList l) ctx b st) as [[r' st'] res] eqn:H.
  exists r', st'. f_equal.
  pose proof (parse_raw_basic_all _ _ _ _ _ _ _ H) as (_ & Herr & _ & _).
  destruct res as [p|e]; [|rewrite (Herr e); reflexivity]. exfalso.
  rewrite parse_raw_eq, choose_parser_first_match in H.
  destruct (first_match ctx (RList l)) as [t|] eqn:Hfm; [|discriminate].
  pose proof (first_match_should_parse _ _ _ Hfm) as Hsp.
  set (c := Some (context_in_force ctx)) in *.
  assert (Hnew : (st ++ [new t c]) !! length st = Some (new t c)).
  { rewrite lookup_app_r by lia. rewrite Nat.sub_diag. reflexivity. }
  unfold parse_method in H. rewrite Hnew in H.
  destruct t; cbn [should_parse new] in Hsp, H.
  - apply Block_should_parse_shape in Hsp as (d & l1 & [= ->] & _).
    destruct Hin as [|[|[]]]; discriminate.
  - apply Sentence_should_parse_strings in Hsp as (d & [= ->] & _).
    apply in_map_iff in Hin as (s & Hs & _). discriminate.
  - erewrite Statements_parse_eq in H by exact Hnew.
    match type of H with context [parse_elems _ _ _ ?n _ ?st1] =>
      destruct (parse_elems parse_raw (length st) b n l st1)
        as [[l' st2] r] eqn:Hp end.
    apply parse_elems_RInt with (z := z) in Hp.
    + subst r. discriminate.
    + destruct (trailing_whitespace l) as [s|] eqn:Htw.
      * apply trailing_whitespace_last in Htw as [Hlast _].
        eapply In_take_last; eauto; discriminate.
      * rewrite firstn_all. exact Hin.
    + rewrite list_lookup_insert_eq; [eauto|]. rewrite length_app. simpl. lia.
Qed.

(** ** Parsing without spacing synthesis does not touch its input *)

Ltac break_match_in H :=
  match type of H with
  | context [match ?x with _ => _ end] =>
      lazymatch x with
      | context [match _ with _ => _ end] => fail
      | _ => destruct x eqn:?
      end
  end.

Lemma parse_elems_pure (l : list raw) :
  Forall parse_raw_pure l ->
  forall (self : loc) n (st : store) l' st' res,
    parse_elems parse_raw self false n l st = (l', st', res) -> l' = l.
Proof.
  induction 1 as [|elem rest Helem _ IH]; intros self n st l' st' res H.
  - destruct n; simpl in H; injection H as <- <- <-; reflexivity.
  - destruct n as [|n]; simpl in H; [injection H as <- <- <-; reflexivity|].
    destruct (child_context self st); [|injection H as <- <- <-; reflexivity].
    destruct (parse_raw elem _ false st) as [[elem' st1] [x|e]] eqn:Hp;
      apply Helem in Hp as ->.
    + destruct (parse_elems parse_raw self false n rest st1)
        as [[rest' st2] r] eqn:Hr.
      apply IH in Hr as ->. injection H as <- <- <-. reflexivity.
    + injection H as <- <- <-. reflexivity.
Qed.

Lemma Statements_parse_pure (l : list raw) :
  Forall parse_raw_pure l ->
  forall (self : loc) (st : store) r' st' res,
    Statements_parse parse_raw self (RList l) false st = (r', st', res) ->
    r' = RList l.
Proof.
  intros Hl self st r' st' res H. unfold Statements_parse in H.
  repeat break_match_in H;
    try match goal with
        | Hp : parse_elems _ _ _ _ _ _ = _ |- _ =>
            apply parse_elems_pure in Hp; [subst|assumption]
        end;
    injection H as <- <- <-; reflexivity.
Qed.

Lemma Block_parse_pure (p0 : raw) (l1 : list raw) :
  Forall parse_raw_pure l1 ->
  forall (self : loc) (st : store) r' st' res,
    Block_parse parse_raw self (RList [p0; RList l1]) false st = (r', st', res) ->
    r' = RList [p0; RList l1].
Proof.
  intros Hl self st r' st' res H. unfold Block_parse in H.
  cbn [py_append] in H.
  repeat break_match_in H;
    try match goal with
        | Hp : Statements_parse _ _ _ _ _ = _ |- _ =>
            apply Statements_parse_pure in Hp; [subst|assumption]
        end;
    injection H as <- <- <-; reflexivity.
Qed.

Lemma parse_raw_pure_all (r : raw) : parse_raw_pure r.
Proof.
  induction r as [r IH] using raw_depth_ind.
  intros ctx st r' st' res H. rewrite parse_raw_eq in H.
  destruct (_choose_parser _ r st) as [st1 [parser|e]];
    [|injection H as <- <- <-; reflexivity].
  assert (Hm : forall r1 st2 r2,
    parse_method parse_raw parser r false st1 = (r1, st2, r2) -> r1 = r).
  { unfold parse_method. intros r1 st2 r2 Hm.
    destruct (st1 !! parser) as [[| |]|]; try (injection Hm as <- <- <-; reflexivity).
    - destruct (Sentence_parse parser r false st1). injection Hm as <- <- <-.
      reflexivity.
    - destruct r as [|l|]; try (injection Hm as <- <- <-; reflexivity).
      eapply (Statements_parse_pure l); [|exact Hm].
      apply Forall_forall. intros e He. apply IH.
      apply depth_elem, list_elem_of_In; assumption.
    - destruct (Block_should_parse r) eqn:Hsp.
      + apply Block_should_parse_shape in Hsp as (d & l1 & -> & _).
        eapply (Block_parse_pure _ l1); [|exact Hm].
        apply Forall_forall. intros e He. apply IH.
        apply list_elem_of_In, depth_elem in He.
        pose proof (depth_elem [RList (map RStr d); RList l1] (RList l1)
                      ltac:(simpl; auto)). lia.
      + unfold Block_parse in Hm. rewrite Hsp in Hm.
        injection Hm as <- <- <-. reflexivity. }
  destruct (parse_method parse_raw parser r false st1) as [[r1 st2] r2].
  rewrite (Hm _ _ _ eq_refl) in H.
  destruct r2; injection H as <- <- <-; reflexivity.
Qed.

(** ** Round trip *)

Lemma depth_take (l : list raw) n e fuel :
  (depth (RList l) <= S fuel)%nat -> In e (take n l) -> (depth e <= fuel)%nat.
Proof.
  intros Hd Hin. assert (In e l).
  { apply list_elem_of_In. eapply subseteq_take. apply list_elem_of_In. eauto. }
  apply depth_elem in H. lia.
Qed.

Lemma parse_elems_roundtrip (l : list raw) :
  Forall parse_raw_roundtrip l ->
  forall (self : loc) n (st : store) l' st' ds,
    is_Some (st !! self) ->
    parse_elems parse_raw self false n l st = (l', st', Ok ds) ->
    forall (st'' : store) fuel,
      keeps_from (length st) st' st'' ->
      (forall e, In e (take n l) -> (depth e <= fuel)%nat) ->
      res_all (fun x => dump fuel st'' x true) ds = Ok (take n l).
Proof.
  induction 1 as [|elem rest Helem _ IH];
    intros self n st l' st' ds [o Ho] H st'' fuel Hk Hd.
  - destruct n; simpl in H; injection H as <- <- <-; reflexivity.
  - destruct n as [|n]; simpl in H; [injection H as <- <- <-; reflexivity|].
    rewrite (child_context_Some _ _ _ Ho) in H.
    destruct (parse_raw elem _ false st) as [[elem' st1] [x|e]] eqn:Hp;
      [|discriminate].
    destruct (parse_elems parse_raw self false n rest st1)
      as [[rest' st2] [ds'|e]] eqn:Hr; [|discriminate].
    injection H as <- <- <-.
    pose proof (parse_raw_basic_all _ _ _ _ _ _ _ Hp) as (Hext & _).
    pose proof (parse_elems_basic rest ltac:(apply Forall_forall; intros;
      apply parse_raw_basic_all) _ _ _ _ _ _ _
      ltac:(exists o; apply Hext, Ho) Hr) as (Hext2 & _).
    simpl take. simpl res_all.
    erewrite (Helem _ _ _ _ _ Hp); cycle 1.
    { intros k o' Hle Hk'. apply Hk; [assumption|]. apply Hext2, Hk'. }
    { apply Hd. left. reflexivity. }
    simpl. erewrite IH; [reflexivity| |exact Hr| |].
    + exists o. apply Hext, Ho.
    + eapply keeps_from_weaken; [|exact Hk]. apply extends_length, Hext.
    + intros e He. apply Hd. right. exact He.
Qed.

Lemma dump_S fuel (st : store) (self : loc) include_spaces :
  dump (S fuel) st self include_spaces =
  res_bind (get_obj self st) (fun o =>
    match o with
    | Sentence _ d =>
        if negb include_spaces then Ok (RList (map RStr (words_of d)))
        else Ok (RList (map RStr d))
    | Statements _ d tw =>
        res_bind (res_all (fun elem => dump fuel st elem include_spaces) d)
          (fun data =>
             match tw with
             | Some s =>
                 if include_spaces then Ok (RList (data ++ [RStr s]))
                 else Ok (RList data)
             | None => Ok (RList data)
             end)
    | Block _ d _ _ =>
        res_map RList (res_all (fun elem => dump fuel st elem include_spaces) d)
    end).
Proof. reflexivity. Qed.

Lemma all_basic (l : list raw) : Forall parse_raw_basic l.
Proof. apply Forall_forall. intros. apply parse_raw_basic_all. Qed.

Lemma take_trailing (l : list raw) s :
  trailing_whitespace l = Some s -> take (length l - 1) l ++ [RStr s] = l.
Proof.
  intros H. apply trailing_whitespace_last in H as [H _].
  apply last_Some in H as [l' ->].
  rewrite length_app. simpl.
  replace (length l' + 1 - 1)%nat with (length l') by lia.
  rewrite take_app_length. reflexivity.
Qed.

Lemma Statements_parse_roundtrip (l : list raw) :
  Forall parse_raw_roundtrip l ->
  forall (self : loc) (st : store) c d0 r' st',
    st !! self = Some (Statements c d0 None) ->
    Statements_parse parse_raw self (RList l) false st = (r', st', Ok tt) ->
    forall (st'' : store) fuel,
      keeps_from (length st) st' st'' ->
      (forall o, st' !! self = Some o -> st'' !! self = Some o) ->
      (depth (RList l) <= fuel)%nat ->
      dump fuel st'' self true = Ok (RList l).
Proof.
  intros Hl self st c d0 r' st' Hs H st'' fuel Hk Hself Hd.
  assert (Hlt : (self < length st)%nat) by (eapply lookup_lt_Some; eauto).
  rewrite (Statements_parse_eq _ _ _ _ _ _ _ _ Hs) in H.
  match type of H with context [parse_elems _ _ _ ?n _ ?s1] =>
    set (st1 := s1) in *; set (n0 := n) in *
  end.
  destruct (parse_elems parse_raw self false n0 l st1)
    as [[l' st2] [ds|e]] eqn:Hp; [|discriminate H].
  set (tw := match trailing_whitespace l with Some s => Some s | None => None end) in *.
  assert (Hs1 : st1 !! self = Some (Statements c d0 tw))
    by (apply list_lookup_insert_eq; assumption).
  pose proof (parse_elems_basic l (all_basic l) _ _ _ _ _ _ _
                ltac:(eauto) Hp) as (Hext & _).
  unfold set_statements_data in H. rewrite (Hext _ _ Hs1) in H.
  injection H as <- <-.
  destruct fuel as [|fuel]; [simpl in Hd; lia|].
  rewrite dump_S. unfold get_obj.
  rewrite (Hself (Statements c ds tw)); cycle 1.
  { apply list_lookup_insert_eq. apply lookup_lt_Some in Hs1.
    apply extends_length in Hext. lia. }
  simpl res_bind.
  erewrite (parse_elems_roundtrip l Hl); [| |exact Hp| |]; cycle 1.
  { eauto. }
  { subst st1. rewrite length_insert. intros k o Hle Hko. apply Hk; [assumption|].
    rewrite list_lookup_insert_ne by lia. exact Hko. }
  { intros e He. eapply depth_take; eauto. }
  simpl. subst tw n0. destruct (trailing_whitespace l) as [s|] eqn:Htw.
  - rewrite (take_trailing _ _ Htw). reflexivity.
  - rewrite firstn_all. reflexivity.
Qed.

Lemma Block_parse_roundtrip (l1 : list raw) :
  Forall parse_raw_roundtrip l1 ->
  forall (self : loc) (d : list string) (st : store) c d0 n0 k0 r' st',
    st !! self = Some (Block c d0 n0 k0) -> d <> [] ->
    Block_parse parse_raw self (RList [RList (map RStr d); RList l1]) false st
    = (r', st', Ok tt) ->
    forall (st'' : store) fuel,
      keeps_from (length st) st' st'' ->
      (forall o, st' !! self = Some o -> st'' !! self = Some o) ->
      (depth (RList [RList (map RStr d); RList l1]) <= fuel)%nat ->
      dump fuel st'' self true = Ok (RList [RList (map RStr d); RList l1]).
Proof.
  intros Hl self d st c d0 n0 k0 r' st' Hs Hne H st'' fuel Hk Hself Hd.
  assert (Hlt : (self < length st)%nat) by (eapply lookup_lt_Some; eauto).
  rewrite (Block_parse_eq _ _ _ _ _ _ _ _ _ _ Hs Hne) in H.
  match type of H with context [Statements_parse _ ?k _ _ ?s2] =>
    set (st2 := s2) in *; set (contents := k) in *
  end.
  destruct (Statements_parse parse_raw contents (RList l1) false st2)
    as [[p1' st3] [[]|e]] eqn:Hp; [|discriminate H].
  assert (Hlen2 : length st2 = S (S (length st))).
  { subst st2. rewrite length_app, length_insert. simpl. lia. }
  assert (Hs2 : st2 !! self = Some (Block c d0 (Some (length st)) (Some contents))).
  { subst st2. rewrite lookup_app_l by (rewrite length_insert; lia).
    apply list_lookup_insert_eq; assumption. }
  assert (Hn2 : exists cx, st2 !! length st = Some (Sentence cx d)).
  { subst st2. rewrite lookup_app_r; rewrite length_insert; [|lia].
    rewrite Nat.sub_diag. eexists; reflexivity. }
  assert (Hc2 : exists cx, st2 !! contents = Some (Statements cx [] None)).
  { subst st2 contents. rewrite lookup_app_r; rewrite length_insert; [|lia].
    replace (S (length st) - length st)%nat with 1%nat by lia.
    eexists; reflexivity. }
  destruct Hn2 as (cxn & Hn2). destruct Hc2 as (cxc & Hc2).
  pose proof (Statements_parse_basic l1 (all_basic l1) _ _ _ _ _ _ _
                Hc2 eq_refl Hp) as (Hev & _).
  destruct (Hev _ _ Hs2) as (o3 & Ho3 & _ & _ & He3).
  rewrite He3 in Ho3 by (subst contents; lia). clear He3 o3.
  destruct (Hev _ _ Hn2) as (o3 & Hn3 & _ & _ & He3).
  rewrite He3 in Hn3 by (subst contents; lia). clear He3 o3.
  unfold set_block_data in H. rewrite Ho3 in H. injection H as <- <-.
  assert (Hlen3 : (length st2 <= length st3)%nat).
  { destruct (decide (length st2 <= length st3)%nat) as [|Hn]; [assumption|].
    exfalso. destruct (Hev _ _ Hc2) as (o & Ho & _).
    apply lookup_lt_Some in Ho. subst contents. lia. }
  assert (Hk3 : keeps_from (length st) st3 st'').
  { intros k o Hle Hko. apply Hk; [assumption|].
    rewrite list_lookup_insert_ne by lia. exact Hko. }
  destruct fuel as [|fuel]; [simpl in Hd; lia|].
  rewrite dump_S. unfold get_obj.
  rewrite (Hself (Block c [length st; contents] (Some (length st)) (Some contents)));
    cycle 1.
  { apply list_lookup_insert_eq. eapply lookup_lt_Some; exact Ho3. }
  simpl res_bind.
  assert (Hd1 : (depth (RList l1) <= fuel)%nat).
  { simpl in Hd |- *. lia. }
  destruct fuel as [|fuel]; [simpl in Hd1; lia|].
  cbn [res_all]. rewrite (dump_S _ _ (length st)). unfold get_obj at 1.
  rewrite (Hk3 (length st) _ (le_n _) Hn3). cbn [res_bind negb].
  erewrite (Statements_parse_roundtrip l1 Hl _ _ _ _ _ _ Hc2 Hp); cycle 1.
  { eapply keeps_from_weaken; [|exact Hk3]. lia. }
  { intros o Ho. apply Hk3; [subst contents; lia|exact Ho]. }
  { exact Hd1. }
  reflexivity.
Qed.

Lemma parse_raw_roundtrip_all (r : raw) : parse_raw_roundtrip r.
Proof.
  induction r as [r IH] using raw_depth_ind.
  intros ctx st r' st' p H st'' fuel Hk Hd.
  pose proof (parse_raw_basic_all _ _ _ _ _ _ _ H) as (_ & _ & Hp & _).
  specialize (Hp _ eq_refl). subst p.
  rewrite parse_raw_eq, choose_parser_first_match in H.
  destruct (first_match ctx r) as [t|] eqn:Hfm; [|discriminate H].
  pose proof (first_match_should_parse _ _ _ Hfm) as Hsp.
  set (c := Some (context_in_force ctx)) in *.
  assert (Hnew : (st ++ [new t c]) !! length st = Some (new t c)).
  { rewrite lookup_app_r by lia. rewrite Nat.sub_diag. reflexivity. }
  destruct (parse_method parse_raw (length st) r false (st ++ [new t c]))
    as [[r1 st1] [[]|e]] eqn:Hm; [|discriminate H].
  injection H as <- <-.
  assert (Hself : forall o, st1 !! length st = Some o -> st'' !! length st = Some o).
  { intros o Ho. apply Hk; [lia|exact Ho]. }
  assert (Hk1 : keeps_from (length (st ++ [new t c])) st1 st'').
  { eapply keeps_from_weaken; [|exact Hk]. rewrite length_app. lia. }
  unfold parse_method in Hm. rewrite Hnew in Hm.
  destruct t; cbn [should_parse new] in Hsp, Hm, Hnew.
  - apply Block_should_parse_shape in Hsp as (d & l1 & -> & Hne).
    eapply (Block_parse_roundtrip l1); [|exact Hnew|exact Hne|exact Hm| | |];
      try assumption.
    apply Forall_forall. intros e He. apply IH.
    apply list_elem_of_In, depth_elem in He.
    pose proof (depth_elem [RList (map RStr d); RList l1] (RList l1)
                  ltac:(simpl; auto)). lia.
  - apply Sentence_should_parse_strings in Hsp as (d & -> & Hne).
    rewrite (Sentence_parse_strings _ _ _ _ _ _ Hnew) in Hm.
    injection Hm as <- <-.
    destruct fuel as [|fuel]; [simpl in Hd; lia|].
    rewrite dump_S. unfold get_obj. rewrite (Hself (Sentence c d)); [reflexivity|].
    apply list_lookup_insert_eq. rewrite length_app. simpl. lia.
  - destruct r as [|l|]; try discriminate.
    eapply (Statements_parse_roundtrip l); [|exact Hnew|exact Hm| | |];
      try assumption.
    apply Forall_forall. intros e He. apply IH.
    apply depth_elem, list_elem_of_In; assumption.
Qed.

(** ** Re-indentation *)

Lemma retabbed_refl o : retabbed o o.
Proof. destruct o; simpl; eauto. Qed.

Lemma retabbed_trans o1 o2 o3 : retabbed o1 o2 -> retabbed o2 o3 -> retabbed o1 o3.
Proof.
  destruct o1; simpl.
  - intros (d' & -> & H1) (d'' & -> & H2). eauto.
  - intros (tw' & -> & H1) (tw'' & -> & H2). exists tw''. split; [reflexivity|].
    intros Hp. rewrite H2, H1; auto.
  - intros -> H. exact H.
Qed.

Lemma retabs_refl (st : store) : retabs st st.
Proof. intros k. destruct (st !! k) as [o|]; [|reflexivity]. exists o. split; [reflexivity|apply retabbed_refl]. Qed.

Lemma retabs_trans (st1 st2 st3 : store) :
  retabs st1 st2 -> retabs st2 st3 -> retabs st1 st3.
Proof.
  intros H1 H2 k. specialize (H1 k). specialize (H2 k).
  destruct (st1 !! k) as [o1|].
  - destruct H1 as (o2 & Ho2 & Hr1). rewrite Ho2 in H2.
    destruct H2 as (o3 & Ho3 & Hr2). exists o3. split; [assumption|].
    eapply retabbed_trans; eauto.
  - rewrite H1 in H2. exact H2.
Qed.

Lemma retabs_insert (st : store) (self : loc) o o' :
  st !! self = Some o -> retabbed o o' -> retabs st (<[self := o']> st).
Proof.
  intros Hs Hr k. destruct (decide (k = self)) as [->|Hne].
  - rewrite Hs. exists o'. split; [|assumption].
    apply list_lookup_insert_eq. eapply lookup_lt_Some; eauto.
  - rewrite list_lookup_insert_ne by auto.
    destruct (st !! k) as [o1|]; [|reflexivity].
    exists o1. split; [reflexivity|apply retabbed_refl].
Qed.

Lemma Sentence_set_tabs_eq (self : loc) tabs (st : store) c first d :
  st !! self = Some (Sentence c (first :: d)) ->
  Sentence_set_tabs self tabs st =
  if Str.isspace first then (st, Ok tt)
  else (<[self := Sentence c (String.append Str.nl tabs :: first :: d)]> st, Ok tt).
Proof.
  intros Hs. unfold Sentence_set_tabs, bind, reading, get_sentence, lift.
  rewrite Hs. simpl. destruct (Str.isspace first); [reflexivity|].
  unfold set_sentence_data. rewrite Hs. reflexivity.
Qed.

Lemma Sentence_set_tabs_retabs (self : loc) tabs (st st' : store) r :
  Sentence_set_tabs self tabs st = (st', r) -> retabs st st'.
Proof.
  intros H. destruct (st !! self) as [[c [|first d]| |]|] eqn:Hs.
  2:{ rewrite (Sentence_set_tabs_eq _ _ _ _ _ _ Hs) in H.
      destruct (Str.isspace first); injection H as <- <-;
        [apply retabs_refl|].
      eapply retabs_insert; [exact Hs|]. simpl.
      eexists. split; [reflexivity|]. discriminate. }
  all: unfold Sentence_set_tabs, bind, reading, get_sentence, lift in H;
    rewrite Hs in H; simpl in H; injection H as <- <-; apply retabs_refl.
Qed.

Lemma for_each_retabs {A} (f : A -> M unit) (l : list A) :
  (forall x (st st' : store) r, f x st = (st', r) -> retabs st st') ->
  forall (st st' : store) r, for_each f l st = (st', r) -> retabs st st'.
Proof.
  intros Hf. induction l as [|x l IH]; simpl; intros st st' r H.
  - injection H as <- <-. apply retabs_refl.
  - unfold bind in H. destruct (f x st) as [st1 [[]|e]] eqn:Hx.
    + eapply retabs_trans; [eapply Hf; exact Hx|]. eapply IH; exact H.
    + injection H as <- <-. eapply Hf; exact Hx.
Qed.

Lemma set_tabs_S fuel (self : loc) tabs (st : store) :
  set_tabs (S fuel) self tabs st =
  match st !! self with
  | None => (st, Raise ReferenceError)
  | Some (Sentence _ _) => Sentence_set_tabs self tabs st
  | Some (Statements context d _) =>
      (run for_each (fun statement => set_tabs fuel statement tabs) d in
       match parent_of context with
       | Some p =>
           do t <~ reading (fun st => get_tabs fuel st p) in
           set_trailing_whitespace self (String.append Str.nl t)
       | None => ret tt
       end) st
  | Some (Block _ _ names contents) =>
      match names with
      | None => (st, Raise AttributeError)
      | Some n =>
          (run set_tabs fuel n tabs in
           match contents with
           | None => raise AttributeError
           | Some c => set_tabs fuel c (String.append tabs "    ")
           end) st
      end
  end.
Proof.
  simpl. unfold bind at 1. unfold reading at 1, get_obj.
  destruct (st !! self) as [[| c d tw|c d [n|] k]|]; try reflexivity.
  destruct c as [[[p|] h]|]; reflexivity.
Qed.

Lemma set_tabs_retabs fuel :
  forall (self : loc) tabs (st st' : store) r,
    set_tabs fuel self tabs st = (st', r) -> retabs st st'.
Proof.
  induction fuel as [|fuel IH]; intros self tabs st st' r H.
  { injection H as <- <-. apply retabs_refl. }
  rewrite set_tabs_S in H.
  destruct (st !! self) as [[c d|c d tw|c d [n|] k]|] eqn:Hs;
    try (injection H as <- <-; apply retabs_refl).
  - eapply Sentence_set_tabs_retabs; exact H.
  - unfold bind in H.
    destruct (for_each _ d st) as [st1 [[]|e]] eqn:Hf;
      [|injection H as <- <-; eapply for_each_retabs; [|exact Hf];
        intros ? ? ? ? Hx; eapply IH; exact Hx].
    assert (Hr1 : retabs st st1)
      by (eapply for_each_retabs; [|exact Hf];
          intros ? ? ? ? Hx; eapply IH; exact Hx).
    destruct (parent_of c) as [p|] eqn:Hp;
      [|injection H as <- <-; exact Hr1].
    unfold reading in H. destruct (get_tabs fuel st1 p) as [t|e];
      [|injection H as <- <-; exact Hr1].
    eapply retabs_trans; [exact Hr1|].
    pose proof (Hr1 self) as Hself. rewrite Hs in Hself.
    destruct Hself as (o' & Ho' & tw' & -> & _).
    unfold set_trailing_whitespace in H. rewrite Ho' in H.
    injection H as <- <-. eapply retabs_insert; [exact Ho'|].
    simpl. eexists. split; [reflexivity|]. intros Hn. congruence.
  - unfold bind in H. destruct (set_tabs fuel n tabs st) as [st1 [[]|e]] eqn:Hn.
    + eapply retabs_trans; [eapply IH; exact Hn|].
      destruct k as [k|]; [eapply IH; exact H|].
      injection H as <- <-. apply retabs_refl.
    + injection H as <- <-. eapply IH; exact Hn.
Qed.

Lemma rfind_absent c s : Str.mem c s = false -> Str.rfind c s = (-1)%Z.
Proof.
  induction s as [|d s IH]; simpl; [reflexivity|]. intros H.
  apply orb_false_iff in H as [Hd Hs]. rewrite (IH Hs). simpl.
  rewrite Ascii.eqb_sym, Hd. reflexivity.
Qed.

Lemma Sentence_get_tabs_prepended tabs d :
  Str.all_chars Str.isspace_char tabs = true ->
  Str.mem Str.nl_char tabs = false ->
  Sentence_get_tabs (String.append Str.nl tabs :: d) = Ok tabs.
Proof.
  intros Hws Hnl. unfold Sentence_get_tabs.
  change (String.append Str.nl tabs) with (String Str.nl_char tabs).
  simpl. rewrite Hws. simpl. rewrite (rfind_absent _ _ Hnl). reflexivity.
Qed.

(** ** Traversal *)

Lemma iterate_S fuel (st : store) (self : loc) expanded match_ :
  iterate (S fuel) st self expanded match_ =
  res_bind (get_obj self st) (fun o =>
    match o with
    | Sentence _ _ => Ok (if matches match_ st self then [self] else [])
    | Statements _ d _ =>
        res_map (@concat loc)
          (res_all (fun elem => iterate fuel st elem expanded match_) d)
    | Block _ _ _ contents =>
        let own := if matches match_ st self then [self] else [] in
        if expanded then
          match contents with
          | None => Raise AttributeError
          | Some c => res_map (app own) (iterate fuel st c expanded match_)
          end
        else Ok own
    end).
Proof. reflexivity. Qed.

Lemma res_all_Forall {A B} (f : A -> res B) (P : B -> Prop) (l : list A) ys :
  (forall x y, f x = Ok y -> P y) -> res_all f l = Ok ys -> Forall P ys.
Proof.
  intros Hf. revert ys. induction l as [|x l IH]; simpl; intros ys H.
  - injection H as <-. constructor.
  - destruct (f x) as [y|] eqn:Hx; simpl in H; [|discriminate H].
    destruct (res_all f l) as [ys'|]; simpl in H; [|discriminate H].
    injection H as <-. constructor; eauto.
Qed.

Lemma Forall_concat {A} (P : A -> Prop) (ls : list (list A)) :
  Forall (Forall P) ls -> Forall P (concat ls).
Proof.
  induction 1; simpl; [constructor|]. apply Forall_app. auto.
Qed.

Lemma iterate_visible fuel :
  forall (st : store) (self : loc) expanded match_ out,
    iterate fuel st self expanded match_ = Ok out -> Forall (visible st) out.
Proof.
  induction fuel as [|fuel IH]; intros st self expanded match_ out H;
    [discriminate H|].
  rewrite iterate_S in H. unfold get_obj in H.
  destruct (st !! self) as [o|] eqn:Hs; [|discriminate H]. simpl in H.
  assert (Hown : forall b : bool, class_of o <> Statements_t ->
                   Forall (visible st) (if b then [self] else [])).
  { intros [] Hc; constructor; [|constructor]. exists o. auto. }
  destruct o as [c d|c d tw|c d n k].
  - injection H as <-. apply Hown. discriminate.
  - destruct (res_all _ d) as [outs|] eqn:Hall; simpl in H; [|discriminate H].
    injection H as <-. apply Forall_concat.
    eapply res_all_Forall; [|exact Hall]. intros x y Hx. eapply IH; exact Hx.
  - destruct expanded.
    + destruct k as [k|]; [|discriminate H].
      destruct (iterate fuel st k true match_) as [rest|] eqn:Hk; simpl in H;
        [|discriminate H].
      injection H as <-. apply Forall_app. split.
      * apply Hown. discriminate.
      * eapply IH; exact Hk.
    + injection H as <-. apply Hown. discriminate.
Qed.

(** ** Words *)

Lemma append_String c p x :
  String.append (String c p) x = String c (String.append p x).
Proof. reflexivity. Qed.

Lemma append_Empty x : String.append EmptyString x = x.
Proof. reflexivity. Qed.

Lemma lstrip_spec chars s :
  exists p, s = String.append p (Str.lstrip chars s) /\
            made_of chars p = true /\
            starts_in chars (Str.lstrip chars s) = false.
Proof.
  induction s as [|c s (p & Hs & Hp & Hst)]; simpl.
  - exists EmptyString. auto.
  - destruct (Str.mem c chars) eqn:Hc.
    + exists (String c p). rewrite append_String. unfold made_of in *. simpl.
      rewrite Hc, Hp. repeat split; [f_equal; exact Hs|exact Hst].
    + exists EmptyString. rewrite append_Empty. simpl. auto.
Qed.

Lemma rstrip_spec chars u :
  exists s, u = String.append (Str.rstrip chars u) s /\
            made_of chars s = true /\
            ends_in chars (Str.rstrip chars u) = false /\
            (starts_in chars u = false ->
             starts_in chars (Str.rstrip chars u) = false).
Proof.
  induction u as [|c u (s & Hu & Hs & He & Hst)]; simpl.
  - exists EmptyString. auto.
  - destruct (Str.rstrip chars u) as [|c2 r2] eqn:Hr.
    + destruct (Str.mem c chars) eqn:Hc.
      * exists (String c s). rewrite append_Empty in *. unfold made_of in *.
        simpl. rewrite Hc, Hs. repeat split; try congruence.
      * exists s. rewrite append_String, append_Empty in *. simpl. rewrite Hc.
        repeat split; try congruence.
    + exists s. rewrite !append_String in *. simpl in *.
      repeat split; try congruence; auto.
Qed.

Lemma strip_spec chars t : stripped_of chars t (Str.strip chars t).
Proof.
  unfold Str.strip. destruct (lstrip_spec chars t) as (p & Ht & Hp & Hst).
  destruct (rstrip_spec chars (Str.lstrip chars t)) as (s & Hu & Hs & He & Hst').
  exists p, s. repeat split; auto. rewrite <- Hu. exact Ht.
Qed.

(** ** Well-formed raw values *)

Lemma well_formed_eq r :
  well_formed r =
  match r with
  | RList l =>
      if Block_should_parse r then
        match l with
        | [_; RList body] => all_first well_formed (statements_count body) body
        | _ => false
        end
      else if Sentence_should_parse r then true
      else all_first well_formed (statements_count l) l
  | _ => false
  end.
Proof. destruct r; reflexivity. Qed.

Lemma hooks_of_child c (self : loc) :
  hooks_in_force
    (Some (mkContext (Some self)
             (match c with Some c => parsing_hooks c | None => None end)))
  = hooks_in_force c.
Proof. destruct c as [[p [h|]]|]; reflexivity. Qed.

Lemma parse_elems_decided (l : list raw) :
  Forall parse_raw_decided l ->
  forall (self : loc) b n (st : store) o l' st' res,
    st !! self = Some o ->
    hooks_in_force (context_of o) = DEFAULT_PARSING_HOOKS ->
    parse_elems parse_raw self b n l st = (l', st', res) ->
    is_ok res = all_first well_formed n l.
Proof.
  induction 1 as [|elem rest Helem _ IH];
    intros self b n st o l' st' res Hs Hh H.
  - destruct n; simpl in H; injection H as <- <- <-; reflexivity.
  - destruct n as [|n]; simpl in H; [injection H as <- <- <-; reflexivity|].
    rewrite (child_context_Some _ _ _ Hs) in H. simpl all_first.
    destruct (parse_raw elem _ b st) as [[elem' st1] [x|e]] eqn:Hx.
    + destruct (parse_elems parse_raw self b n rest st1) as [[rest' st2] r] eqn:Hr.
      injection H as <- <- <-.
      pose proof (parse_raw_basic_all _ _ _ _ _ _ _ Hx) as (Hext & _).
      apply Helem in Hx.
      2:{ rewrite hooks_of_child. exact Hh. }
      rewrite <- Hx. simpl.
      rewrite <- (IH _ _ _ _ _ _ _ _ (Hext _ _ Hs) Hh Hr).
      destruct r; reflexivity.
    + injection H as <- <- <-. apply Helem in Hx.
      2:{ rewrite hooks_of_child. exact Hh. }
      rewrite <- Hx. reflexivity.
Qed.

Lemma Statements_parse_decided (l : list raw) :
  Forall parse_raw_decided l ->
  forall (self : loc) b (st : store) c d0 tw0 r' st' res,
    st !! self = Some (Statements c d0 tw0) ->
    hooks_in_force c = DEFAULT_PARSING_HOOKS ->
    Statements_parse parse_raw self (RList l) b st = (r', st', res) ->
    is_ok res = all_first well_formed (statements_count l) l.
Proof.
  intros Hl self b st c d0 tw0 r' st' res Hs Hh H.
  rewrite (Statements_parse_eq _ _ _ _ _ _ _ _ Hs) in H.
  fold (statements_count l) in H.
  match type of H with context [parse_elems _ _ _ _ _ ?s1] =>
    set (st1 := s1) in * end.
  assert (Hs1 : exists tw, st1 !! self = Some (Statements c d0 tw)).
  { eexists. apply list_lookup_insert_eq. eapply lookup_lt_Some; exact Hs. }
  destruct Hs1 as (tw & Hs1).
  destruct (parse_elems parse_raw self b (statements_count l) l st1)
    as [[l' st2] r] eqn:Hp.
  pose proof (parse_elems_basic l (all_basic l) _ _ _ _ _ _ _
                ltac:(eauto) Hp) as (Hext & _).
  rewrite <- (parse_elems_decided l Hl _ _ _ _ _ _ _ _ Hs1 Hh Hp).
  destruct r as [ds|e]; [|injection H as <- <- <-; reflexivity].
  unfold set_statements_data in H. rewrite (Hext _ _ Hs1) in H.
  injection H as <- <- <-. reflexivity.
Qed.

Lemma Block_parse_decided (l1 : list raw) :
  Forall parse_raw_decided l1 ->
  forall (self : loc) (d : list string) b (st : store) c d0 n0 k0 r' st' res,
    st !! self = Some (Block c d0 n0 k0) -> d <> [] ->
    hooks_in_force c = DEFAULT_PARSING_HOOKS ->
    Block_parse parse_raw self (RList [RList (map RStr d); RList l1]) b st
    = (r', st', res) ->
    is_ok res = all_first well_formed (statements_count l1) l1.
Proof.
  intros Hl self d b st c d0 n0 k0 r' st' res Hs Hne Hh H.
  assert (Hlt : (self < length st)%nat) by (eapply lookup_lt_Some; eauto).
  rewrite (Block_parse_eq _ _ _ _ _ _ _ _ _ _ Hs Hne) in H.
  match type of H with context [Statements_parse _ ?k _ _ ?s2] =>
    set (st2 := s2) in *; set (contents := k) in *
  end.
  assert (Hs2 : exists n k, st2 !! self = Some (Block c d0 n k)).
  { do 2 eexists. subst st2. rewrite lookup_app_l by (rewrite length_insert; lia).
    apply list_lookup_insert_eq; assumption. }
  destruct Hs2 as (n2 & k2 & Hs2).
  assert (Hc2 : exists cx, st2 !! contents = Some (Statements cx [] None) /\
                           hooks_in_force cx = DEFAULT_PARSING_HOOKS).
  { subst st2 contents. rewrite lookup_app_r; rewrite length_insert; [|lia].
    replace (S (length st) - length st)%nat with 1%nat by lia.
    eexists; split; [reflexivity|]. rewrite hooks_of_child. exact Hh. }
  destruct Hc2 as (cx & Hc2 & Hhx).
  destruct (Statements_parse parse_raw contents (RList l1) b st2)
    as [[p1' st3] r] eqn:Hp.
  pose proof (Statements_parse_basic l1 (all_basic l1) _ _ _ _ _ _ _
                Hc2 eq_refl Hp) as (Hev & _).
  rewrite <- (Statements_parse_decided l1 Hl _ _ _ _ _ _ _ _ _ Hc2 Hhx Hp).
  destruct r as [[]|e]; [|injection H as <- <- <-; reflexivity].
  destruct (Hev _ _ Hs2) as (o3 & Ho3 & _ & _ & He3).
  rewrite He3 in Ho3 by (subst contents; lia).
  unfold set_block_data in H. rewrite Ho3 in H.
  injection H as <- <- <-. reflexivity.
Qed.

Lemma first_match_default ctx r :
  hooks_in_force ctx = DEFAULT_PARSING_HOOKS ->
  first_match ctx r =
  if Block_should_parse r then Some Block_t
  else if Sentence_should_parse r then Some Sentence_t
  else if Statements_should_parse r then Some Statements_t
  else None.
Proof. intros H. unfold first_match. rewrite H. reflexivity. Qed.

Lemma hooks_context_in_force ctx :
  hooks_in_force (Some (context_in_force ctx)) = hooks_in_force ctx.
Proof. destruct ctx as [[p [h|]]|]; reflexivity. Qed.

Lemma parse_raw_decided_all (r : raw) : parse_raw_decided r.
Proof.
  induction r as [r IH] using raw_depth_ind.
  intros ctx b st r' st' res Hh H.
  rewrite parse_raw_eq, choose_parser_first_match in H.
  rewrite (first_match_default _ _ Hh) in H. rewrite well_formed_eq.
  set (c := Some (context_in_force ctx)) in *.
  assert (Hhc : hooks_in_force c = DEFAULT_PARSING_HOOKS)
    by (subst c; rewrite hooks_context_in_force; exact Hh).
  assert (Hnew : forall t, (st ++ [new t c]) !! length st = Some (new t c)).
  { intros t. rewrite lookup_app_r by lia. rewrite Nat.sub_diag. reflexivity. }
  destruct (Block_should_parse r) eqn:Hb;
    [|destruct (Sentence_should_parse r) eqn:Hse;
      [|destruct (Statements_should_parse r) eqn:Hst]].
  - unfold parse_method in H. rewrite Hnew in H. cbn [new] in H.
    apply Block_should_parse_shape in Hb as (d & l1 & -> & Hne).
    destruct (Block_parse parse_raw (length st) _ b _) as [[r1 st1] r2] eqn:Hp.
    erewrite <- (Block_parse_decided l1); [| |apply (Hnew Block_t)|exact Hne|exact Hhc|exact Hp].
    + destruct r2; injection H as <- <- <-; reflexivity.
    + apply Forall_forall. intros e He. apply IH.
      apply list_elem_of_In, depth_elem in He.
      pose proof (depth_elem [RList (map RStr d); RList l1] (RList l1)
                    ltac:(simpl; auto)). lia.
  - unfold parse_method in H. rewrite Hnew in H. cbn [new] in H.
    apply Sentence_should_parse_strings in Hse as (d & -> & Hne).
    rewrite (Sentence_parse_strings _ _ _ _ _ _ (Hnew Sentence_t)) in H.
    injection H as <- <- <-. reflexivity.
  - unfold parse_method in H. rewrite Hnew in H. cbn [new] in H.
    destruct r as [|l|]; try discriminate Hst.
    destruct (Statements_parse parse_raw (length st) _ b _) as [[r1 st1] r2] eqn:Hp.
    erewrite <- (Statements_parse_decided l); [| |apply (Hnew Statements_t)|exact Hhc|exact Hp].
    + destruct r2; injection H as <- <- <-; reflexivity.
    + apply Forall_forall. intros e He. apply IH.
      apply depth_elem, list_elem_of_In; assumption.
  - injection H as <- <- <-. destruct r as [|l|]; try reflexivity. discriminate Hst.
Qed.

(** ** [iterate] returns on parsed nodes *)

Lemma res_all_ok {A B} (f : A -> res B) (l : list A) :
  Forall (fun x => is_ok (f x) = true) l -> is_ok (res_all f l) = true.
Proof.
  induction 1 as [|x l Hx _ IH]; simpl; [reflexivity|].
  destruct (f x); [|discriminate Hx]. simpl.
  destruct (res_all f l); [reflexivity|discriminate IH].
Qed.

Lemma parse_elems_iterable (l : list raw) :
  Forall parse_raw_iterable l ->
  forall (self : loc) b n (st : store) l' st' ds,
    is_Some (st !! self) ->
    parse_elems parse_raw self b n l st = (l', st', Ok ds) ->
    forall (st'' : store) fuel expanded match_,
      keeps_from (length st) st' st'' ->
      (forall e, In e l -> (depth e <= fuel)%nat) ->
      Forall (fun x => is_ok (iterate fuel st'' x expanded match_) = true) ds.
Proof.
  induction 1 as [|elem rest Helem _ IH];
    intros self b n st l' st' ds [o Ho] H st'' fuel expanded match_ Hk Hd.
  - destruct n; simpl in H; injection H as <- <- <-; constructor.
  - destruct n as [|n]; simpl in H; [injection H as <- <- <-; constructor|].
    rewrite (child_context_Some _ _ _ Ho) in H.
    destruct (parse_raw elem _ b st) as [[elem' st1] [x|e]] eqn:Hp;
      [|discriminate H].
    destruct (parse_elems parse_raw self b n rest st1)
      as [[rest' st2] [ds'|e]] eqn:Hr; [|discriminate H].
    injection H as <- <- <-.
    pose proof (parse_raw_basic_all _ _ _ _ _ _ _ Hp) as (Hext & _).
    pose proof (parse_elems_basic rest (all_basic rest) _ _ _ _ _ _ _
      ltac:(exists o; apply Hext, Ho) Hr) as (Hext2 & _).
    constructor.
    + eapply (Helem _ _ _ _ _ _ Hp).
      * intros k o' Hle Hk'. apply Hk; [assumption|]. apply Hext2, Hk'.
      * apply Hd. left. reflexivity.
    + eapply IH; [|exact Hr| |].
      * exists o. apply Hext, Ho.
      * eapply keeps_from_weaken; [|exact Hk]. apply extends_length, Hext.
      * intros e He. apply Hd. right. exact He.
Qed.

Lemma Statements_parse_iterable (l : list raw) :
  Forall parse_raw_iterable l ->
  forall (self : loc) b (st : store) c d0 tw0 r' st',
    st !! self = Some (Statements c d0 tw0) ->
    Statements_parse parse_raw self (RList l) b st = (r', st', Ok tt) ->
    forall (st'' : store) fuel expanded match_,
      keeps_from (length st) st' st'' ->
      (forall o, st' !! self = Some o -> st'' !! self = Some o) ->
      (depth (RList l) <= fuel)%nat ->
      is_ok (iterate fuel st'' self expanded match_) = true.
Proof.
  intros Hl self b st c d0 tw0 r' st' Hs H st'' fuel expanded match_ Hk Hself Hd.
  assert (Hlt : (self < length st)%nat) by (eapply lookup_lt_Some; eauto).
  rewrite (Statements_parse_eq _ _ _ _ _ _ _ _ Hs) in H.
  match type of H with context [parse_elems _ _ _ ?n _ ?s1] =>
    set (st1 := s1) in *; set (n0 := n) in *
  end.
  destruct (parse_elems parse_raw self b n0 l st1)
    as [[l' st2] [ds|e]] eqn:Hp; [|discriminate H].
  assert (Hs1 : exists tw, st1 !! self = Some (Statements c d0 tw))
    by (eexists; apply list_lookup_insert_eq; assumption).
  destruct Hs1 as (tw & Hs1).
  pose proof (parse_elems_basic l (all_basic l) _ _ _ _ _ _ _
                ltac:(eauto) Hp) as (Hext & _).
  unfold set_statements_data in H. rewrite (Hext _ _ Hs1) in H.
  injection H as <- <-.
  destruct fuel as [|fuel]; [simpl in Hd; lia|].
  rewrite iterate_S. unfold get_obj.
  rewrite (Hself (Statements c ds tw)); cycle 1.
  { apply list_lookup_insert_eq. apply lookup_lt_Some in Hs1.
    apply extends_length in Hext. lia. }
  cbn [res_bind]. unfold res_map.
  match goal with |- is_ok (res_bind ?x _) = true =>
    assert (Hall : is_ok x = true); [|destruct x; [reflexivity|discriminate Hall]]
  end.
  apply res_all_ok.
  eapply (parse_elems_iterable l Hl); [|exact Hp| |].
  - eauto.
  - subst st1. rewrite length_insert. intros k o Hle Hko. apply Hk; [assumption|].
    rewrite list_lookup_insert_ne by lia. exact Hko.
  - intros e He. apply depth_elem in He. lia.
Qed.

Lemma Block_parse_iterable (l1 : list raw) :
  Forall parse_raw_iterable l1 ->
  forall (self : loc) (d : list string) b (st : store) c d0 n0 k0 r' st',
    st !! self = Some (Block c d0 n0 k0) -> d <> [] ->
    Block_parse parse_raw self (RList [RList (map RStr d); RList l1]) b st
    = (r', st', Ok tt) ->
    forall (st'' : store) fuel expanded match_,
      keeps_from (length st) st' st'' ->
      (forall o, st' !! self = Some o -> st'' !! self = Some o) ->
      (depth (RList [RList (map RStr d); RList l1]) <= fuel)%nat ->
      is_ok (iterate fuel st'' self expanded match_) = true.
Proof.
  intros Hl self d b st c d0 n0 k0 r' st' Hs Hne H st'' fuel expanded match_
    Hk Hself Hd.
  assert (Hlt : (self < length st)%nat) by (eapply lookup_lt_Some; eauto).
  rewrite (Block_parse_eq _ _ _ _ _ _ _ _ _ _ Hs Hne) in H.
  match type of H with context [Statements_parse _ ?k _ _ ?s2] =>
    set (st2 := s2) in *; set (contents := k) in *
  end.
  destruct (Statements_parse parse_raw contents (RList l1) b st2)
    as [[p1' st3] [[]|e]] eqn:Hp; [|discriminate H].
  assert (Hlen2 : length st2 = S (S (length st))).
  { subst st2. rewrite length_app, length_insert. simpl. lia. }
  assert (Hs2 : st2 !! self = Some (Block c d0 (Some (length st)) (Some contents))).
  { subst st2. rewrite lookup_app_l by (rewrite length_insert; lia).
    apply list_lookup_insert_eq; assumption. }
  assert (Hc2 : exists cx, st2 !! contents = Some (Statements cx [] None)).
  { subst st2 contents. rewrite lookup_app_r; rewrite length_insert; [|lia].
    replace (S (length st) - length st)%nat with 1%nat by lia.
    eexists; reflexivity. }
  destruct Hc2 as (cxc & Hc2).
  pose proof (Statements_parse_basic l1 (all_basic l1) _ _ _ _ _ _ _
                Hc2 eq_refl Hp) as (Hev & _).
  destruct (Hev _ _ Hs2) as (o3 & Ho3 & _ & _ & He3).
  rewrite He3 in Ho3 by (subst contents; lia). clear He3 o3.
  unfold set_block_data in H. rewrite Ho3 in H. injection H as <- <-.
  assert (Hk3 : keeps_from (length st) st3 st'').
  { intros k o Hle Hko. apply Hk; [assumption|].
    rewrite list_lookup_insert_ne by lia. exact Hko. }
  destruct fuel as [|fuel]; [simpl in Hd; lia|].
  rewrite iterate_S. unfold get_obj.
  rewrite (Hself (Block c [length st; contents] (Some (length st)) (Some contents)));
    cycle 1.
  { apply list_lookup_insert_eq. eapply lookup_lt_Some; exact Ho3. }
  cbn [res_bind]. destruct expanded; [|reflexivity].
  assert (Hit : is_ok (iterate fuel st'' contents true match_) = true).
  { eapply (Statements_parse_iterable l1 Hl _ _ _ _ _ _ _ _ Hc2 Hp).
    - eapply keeps_from_weaken; [|exact Hk3]. lia.
    - intros o Ho. apply Hk3; [subst contents; lia|exact Ho].
    - simpl in Hd |- *. lia. }
  destruct (iterate fuel st'' contents true match_); [reflexivity|discriminate Hit].
Qed.

Lemma parse_raw_iterable_all (r : raw) : parse_raw_iterable r.
Proof.
  induction r as [r IH] using raw_depth_ind.
  intros ctx b st r' st' p H st'' fuel expanded match_ Hk Hd.
  pose proof (parse_raw_basic_all _ _ _ _ _ _ _ H) as (_ & _ & Hp & _).
  specialize (Hp _ eq_refl). subst p.
  rewrite parse_raw_eq, choose_parser_first_match in H.
  destruct (first_match ctx r) as [t|] eqn:Hfm; [|discriminate H].
  pose proof (first_match_should_parse _ _ _ Hfm) as Hsp.
  set (c := Some (context_in_force ctx)) in *.
  assert (Hnew : (st ++ [new t c]) !! length st = Some (new t c)).
  { rewrite lookup_app_r by lia. rewrite Nat.sub_diag. reflexivity. }
  destruct (parse_method parse_raw (length st) r b (st ++ [new t c]))
    as [[r1 st1] [[]|e]] eqn:Hm; [|discriminate H].
  injection H as <- <-.
  assert (Hself : forall o, st1 !! length st = Some o -> st'' !! length st = Some o).
  { intros o Ho. apply Hk; [lia|exact Ho]. }
  assert (Hk1 : keeps_from (length (st ++ [new t c])) st1 st'').
  { eapply keeps_from_weaken; [|exact Hk]. rewrite length_app. lia. }
  unfold parse_method in Hm. rewrite Hnew in Hm.
  destruct t; cbn [should_parse new] in Hsp, Hm, Hnew.
  - apply Block_should_parse_shape in Hsp as (d & l1 & -> & Hne).
    eapply (Block_parse_iterable l1); [|exact Hnew|exact Hne|exact Hm| | |];
      try assumption.
    apply Forall_forall. intros e He. apply IH.
    apply list_elem_of_In, depth_elem in He.
    pose proof (depth_elem [RList (map RStr d); RList l1] (RList l1)
                  ltac:(simpl; auto)). lia.
  - apply Sentence_should_parse_strings in Hsp as (d & -> & Hne).
    rewrite (Sentence_parse_strings _ _ _ _ _ _ Hnew) in Hm.
    injection Hm as <- <-.
    destruct fuel as [|fuel]; [simpl in Hd; lia|].
    rewrite iterate_S. unfold get_obj.
    rewrite (Hself (Sentence c (if b then spaced_spec d else d))); [reflexivity|].
    apply list_lookup_insert_eq. rewrite length_app. simpl. lia.
  - destruct r as [|l|]; try discriminate.
    eapply (Statements_parse_iterable l); [|exact Hnew|exact Hm| | |];
      try assumption.
    apply Forall_forall. intros e He. apply IH.
    apply depth_elem, list_elem_of_In; assumption.
Qed.

(** ** The trees that parsing builds, and [set_tabs] on them *)

Lemma linked_retabs n :
  forall (st st' : store) par (p : loc),
    retabs st st' -> linked n st par p -> linked n st' par p.
Proof.
  induction n as [|n IH]; intros st st' par p Hr H; [exact H|].
  simpl in H |- *. pose proof (Hr p) as Hp.
  destruct (st !! p) as [[c d|c ds tw|c data [nm|] [k|]]|]; try contradiction.
  - destruct Hp as (o' & -> & d' & -> & Hd). auto.
  - destruct Hp as (o' & -> & tw' & -> & _). destruct H as [Hpar Hall].
    split; [exact Hpar|]. eapply Forall_impl; [exact Hall|].
    intros q Hq. eapply IH; eauto.
  - destruct Hp as (o' & -> & ->).
    destruct H as ((cn & dn & Hn & Hne) & (ck & dk & twk & Hk) & Hl).
    split; [|split].
    + pose proof (Hr nm) as Hnm. rewrite Hn in Hnm.
      destruct Hnm as (o' & -> & d' & -> & Hd). eauto.
    + pose proof (Hr k) as Hkk. rewrite Hk in Hkk.
      destruct Hkk as (o' & -> & tw' & -> & _). eauto.
    + eapply IH; eauto.
Qed.

Lemma linked_mono n :
  forall m (st : store) par (p : loc),
    (n <= m)%nat -> linked n st par p -> linked m st par p.
Proof.
  induction n as [|n IH]; intros m st par p Hle H; [contradiction|].
  destruct m as [|m]; [lia|]. simpl in H |- *.
  destruct (st !! p) as [[c d|c ds tw|c data [nm|] [k|]]|]; try contradiction.
  - exact H.
  - destruct H as [Hpar Hall]. split; [exact Hpar|].
    eapply Forall_impl; [exact Hall|]. intros q Hq. eapply IH; [|exact Hq]. lia.
  - destruct H as (Hn & Hk & Hl). repeat split; auto. eapply IH; [|exact Hl]. lia.
Qed.

Lemma get_tabs_S fuel (st : store) (self : loc) :
  get_tabs (S fuel) st self =
  res_bind (get_obj self st) (fun o =>
    match o with
    | Sentence _ d => Sentence_get_tabs d
    | Statements _ d _ =>
        match d with
        | first :: _ => get_tabs fuel st first
        | [] => Ok EmptyString
        end
    | Block _ _ names _ =>
        match names with
        | Some n => get_tabs fuel st n
        | None => Raise AttributeError
        end
    end).
Proof. reflexivity. Qed.

Lemma Sentence_get_tabs_total d : d <> [] -> exists t, Sentence_get_tabs d = Ok t.
Proof.
  destruct d as [|first d]; [congruence|]. intros _. unfold Sentence_get_tabs.
  simpl. destruct (negb (Str.isspace first)); eauto.
Qed.

Lemma get_tabs_linked n :
  forall (st : store) par (p : loc) fuel,
    linked n st par p -> (n <= fuel)%nat -> exists t, get_tabs fuel st p = Ok t.
Proof.
  induction n as [|n IH]; intros st par p fuel H Hle; [contradiction|].
  destruct fuel as [|fuel]; [lia|]. rewrite get_tabs_S. unfold get_obj.
  simpl in H.
  destruct (st !! p) as [[c d|c ds tw|c data [nm|] [k|]]|]; try contradiction;
    cbn [res_bind].
  - apply Sentence_get_tabs_total, H.
  - destruct H as [_ Hall]. destruct ds as [|first ds]; [eauto|].
    inversion Hall; subst. eapply IH; [eassumption|lia].
  - destruct H as ((cn & dn & Hn & Hne) & _ & Hl).
    destruct n as [|n]; [contradiction|]. destruct fuel as [|fuel]; [lia|].
    rewrite get_tabs_S. unfold get_obj. rewrite Hn. cbn [res_bind].
    apply Sentence_get_tabs_total, Hne.
Qed.

Lemma linked_tabbable n (st : store) par (p : loc) :
  linked n st par p -> tabbable n st p.
Proof.
  intros H st' fuel Hr Hle. eapply get_tabs_linked; [|exact Hle].
  eapply linked_retabs; eauto.
Qed.

Lemma tabbable_retabs H (st st' : store) q :
  retabs st st' -> tabbable H st q -> tabbable H st' q.
Proof.
  intros Hr Ht st'' fuel Hr' Hle. apply Ht; [|exact Hle].
  eapply retabs_trans; eauto.
Qed.

Lemma tabbable_mono H H' (st : store) q :
  (H <= H')%nat -> tabbable H st q -> tabbable H' st q.
Proof. intros Hle Ht st' fuel Hr Hf. apply Ht; [exact Hr|lia]. Qed.

Lemma for_each_total {A} (f : A -> M unit) (Q : store -> A -> Prop) (l : list A) :
  (forall x (st : store), Q st x -> exists st', f x st = (st', Ok tt)) ->
  (forall x y (st st' : store) r, Q st y -> f x st = (st', r) -> Q st' y) ->
  forall st : store, Forall (Q st) l -> exists st', for_each f l st = (st', Ok tt).
Proof.
  intros Hf Hq. induction l as [|x l IH]; intros st Hall; simpl.
  - eexists; reflexivity.
  - inversion Hall as [|? ? Hx Hl]; subst. unfold bind.
    destruct (Hf x st Hx) as (st1 & E). rewrite E.
    apply IH. eapply Forall_impl; [exact Hl|]. intros y Hy. eapply Hq; eauto.
Qed.

Lemma set_tabs_linked H n :
  forall (st : store) par (p : loc) tabs F,
    linked n st par p -> (n <= H)%nat -> (n + H <= F)%nat ->
    (forall q, par = Some q -> tabbable H st q) ->
    exists st', set_tabs F p tabs st = (st', Ok tt).
Proof.
  induction n as [|n IH]; intros st par p tabs F Hl HnH HF Hpar; [contradiction|].
  destruct F as [|F]; [lia|]. rewrite set_tabs_S.
  pose proof Hl as Hl0. simpl in Hl.
  destruct (st !! p) as [[c d|c ds tw|c data [nm|] [k|]]|] eqn:Hp;
    try contradiction.
  - destruct d as [|first d]; [congruence|].
    rewrite (Sentence_set_tabs_eq _ _ _ _ _ _ Hp).
    destruct (Str.isspace first); eauto.
  - destruct Hl as [Hc Hall]. unfold bind.
    destruct (for_each_total (fun statement => set_tabs F statement tabs)
                (fun st1 q => retabs st st1 /\ linked n st1 (Some p) q) ds)
      with (st := st) as (st1 & E).
    + intros x st1 [Hr Hx]. eapply IH; [exact Hx|lia|lia|].
      intros q [= <-]. eapply tabbable_mono; [|eapply linked_tabbable].
      * exact HnH.
      * eapply linked_retabs; eauto.
    + intros x y st1 st2 r [Hr Hy] Hx.
      pose proof (set_tabs_retabs _ _ _ _ _ _ Hx) as Hr2.
      split; [eapply retabs_trans; eauto|eapply linked_retabs; eauto].
    + eapply Forall_impl; [exact Hall|]. intros q Hq.
      split; [apply retabs_refl|exact Hq].
    + rewrite E.
      assert (Hr1 : retabs st st1)
        by (eapply for_each_retabs; [|exact E];
            intros ? ? ? ? Hx; eapply set_tabs_retabs; exact Hx).
      rewrite Hc. destruct par as [q|]; [|eexists; reflexivity].
      unfold reading. destruct (Hpar q eq_refl st1 F Hr1 ltac:(lia)) as (t & ->).
      pose proof (Hr1 p) as Hp1. rewrite Hp in Hp1.
      destruct Hp1 as (o' & Ho' & tw' & -> & _).
      unfold set_trailing_whitespace. rewrite Ho'. eexists; reflexivity.
  - destruct Hl as ((cn & dn & Hn & Hne) & (ck & dk & twk & Hk) & Hlk).
    unfold bind.
    assert (Hnm : exists st1, set_tabs F nm tabs st = (st1, Ok tt)).
    { destruct F as [|F]; [destruct n; [contradiction|lia]|].
      rewrite set_tabs_S, Hn. destruct dn as [|first dn]; [congruence|].
      rewrite (Sentence_set_tabs_eq _ _ _ _ _ _ Hn).
      destruct (Str.isspace first); eauto. }
    destruct Hnm as (st1 & E). rewrite E.
    pose proof (set_tabs_retabs _ _ _ _ _ _ E) as Hr1.
    eapply IH; [eapply linked_retabs; eauto|lia|lia|].
    intros q [= <-]. eapply tabbable_mono; [exact HnH|].
    eapply linked_tabbable. eapply linked_retabs; eauto.
Qed.

Lemma spaced_spec_nonempty (ws : list string) : ws <> [] -> spaced_spec ws <> [].
Proof. destruct ws; [congruence|discriminate]. Qed.

Lemma parse_elems_linked (l : list raw) :
  Forall parse_raw_linked l ->
  forall (self : loc) b n (st : store) l' st' ds,
    is_Some (st !! self) ->
    parse_elems parse_raw self b n l st = (l', st', Ok ds) ->
    forall (st'' : store) m,
      keeps_from (length st) st' st'' ->
      (forall e, In e l -> (depth e <= m)%nat) ->
      Forall (linked m st'' (Some self)) ds.
Proof.
  induction 1 as [|elem rest Helem _ IH];
    intros self b n st l' st' ds [o Ho] H st'' m Hk Hd.
  - destruct n; simpl in H; injection H as <- <- <-; constructor.
  - destruct n as [|n]; simpl in H; [injection H as <- <- <-; constructor|].
    rewrite (child_context_Some _ _ _ Ho) in H.
    destruct (parse_raw elem _ b st) as [[elem' st1] [x|e]] eqn:Hp;
      [|discriminate H].
    destruct (parse_elems parse_raw self b n rest st1)
      as [[rest' st2] [ds'|e]] eqn:Hr; [|discriminate H].
    injection H as <- <- <-.
    pose proof (parse_raw_basic_all _ _ _ _ _ _ _ Hp) as (Hext & _).
    pose proof (parse_elems_basic rest (all_basic rest) _ _ _ _ _ _ _
      ltac:(exists o; apply Hext, Ho) Hr) as (Hext2 & _).
    constructor.
    + eapply (Helem _ _ _ _ _ _ Hp).
      * intros k o' Hle Hk'. apply Hk; [assumption|]. apply Hext2, Hk'.
      * apply Hd. left. reflexivity.
    + eapply IH; [|exact Hr| |].
      * exists o. apply Hext, Ho.
      * eapply keeps_from_weaken; [|exact Hk]. apply extends_length, Hext.
      * intros e He. apply Hd. right. exact He.
Qed.

Lemma Statements_parse_linked (l : list raw) :
  Forall parse_raw_linked l ->
  forall (self : loc) b (st : store) c d0 tw0 r' st',
    st !! self = Some (Statements c d0 tw0) ->
    Statements_parse parse_raw self (RList l) b st = (r', st', Ok tt) ->
    forall (st'' : store) n,
      keeps_from (length st) st' st'' ->
      (forall o, st' !! self = Some o -> st'' !! self = Some o) ->
      (depth (RList l) <= n)%nat ->
      linked n st'' (parent_of c) self.
Proof.
  intros Hl self b st c d0 tw0 r' st' Hs H st'' n Hk Hself Hd.
  assert (Hlt : (self < length st)%nat) by (eapply lookup_lt_Some; eauto).
  rewrite (Statements_parse_eq _ _ _ _ _ _ _ _ Hs) in H.
  match type of H with context [parse_elems _ _ _ ?n _ ?s1] =>
    set (st1 := s1) in *; set (n0 := n) in *
  end.
  destruct (parse_elems parse_raw self b n0 l st1)
    as [[l' st2] [ds|e]] eqn:Hp; [|discriminate H].
  assert (Hs1 : exists tw, st1 !! self = Some (Statements c d0 tw))
    by (eexists; apply list_lookup_insert_eq; assumption).
  destruct Hs1 as (tw & Hs1).
  pose proof (parse_elems_basic l (all_basic l) _ _ _ _ _ _ _
                ltac:(eauto) Hp) as (Hext & _).
  unfold set_statements_data in H. rewrite (Hext _ _ Hs1) in H.
  injection H as <- <-.
  destruct n as [|n]; [simpl in Hd; lia|].
  cbn [linked].
  rewrite (Hself (Statements c ds tw)); cycle 1.
  { apply list_lookup_insert_eq. apply lookup_lt_Some in Hs1.
    apply extends_length in Hext. lia. }
  split; [reflexivity|].
  eapply (parse_elems_linked l Hl); [|exact Hp| |].
  - eauto.
  - subst st1. rewrite length_insert. intros k o Hle Hko. apply Hk; [assumption|].
    rewrite list_lookup_insert_ne by lia. exact Hko.
  - intros e He. apply depth_elem in He. lia.
Qed.

Lemma Block_parse_linked (l1 : list raw) :
  Forall parse_raw_linked l1 ->
  forall (self : loc) (d : list string) b (st : store) c d0 n0 k0 r' st',
    st !! self = Some (Block c d0 n0 k0) -> d <> [] ->
    Block_parse parse_raw self (RList [RList (map RStr d); RList l1]) b st
    = (r', st', Ok tt) ->
    forall (st'' : store) n par,
      keeps_from (length st) st' st'' ->
      (forall o, st' !! self = Some o -> st'' !! self = Some o) ->
      (depth (RList [RList (map RStr d); RList l1]) <= n)%nat ->
      linked n st'' par self.
Proof.
  intros Hl self d b st c d0 n0 k0 r' st' Hs Hne H st'' n par Hk Hself Hd.
  assert (Hlt : (self < length st)%nat) by (eapply lookup_lt_Some; eauto).
  rewrite (Block_parse_eq _ _ _ _ _ _ _ _ _ _ Hs Hne) in H.
  match type of H with context [Statements_parse _ ?k _ _ ?s2] =>
    set (st2 := s2) in *; set (contents := k) in *
  end.
  destruct (Statements_parse parse_raw contents (RList l1) b st2)
    as [[p1' st3] [[]|e]] eqn:Hp; [|discriminate H].
  assert (Hlen2 : length st2 = S (S (length st))).
  { subst st2. rewrite length_app, length_insert. simpl. lia. }
  assert (Hs2 : st2 !! self = Some (Block c d0 (Some (length st)) (Some contents))).
  { subst st2. rewrite lookup_app_l by (rewrite length_insert; lia).
    apply list_lookup_insert_eq; assumption. }
  assert (Hn2 : exists cx dn, st2 !! length st = Some (Sentence cx dn) /\ dn <> []).
  { subst st2. rewrite lookup_app_r; rewrite length_insert; [|lia].
    rewrite Nat.sub_diag. do 2 eexists. split; [reflexivity|].
    destruct b; [apply spaced_spec_nonempty|]; destruct d; simpl; congruence. }
  assert (Hc2 : exists hooks,
             st2 !! contents
             = Some (Statements (Some (mkContext (Some self) hooks)) [] None)).
  { subst st2 contents. rewrite lookup_app_r; rewrite length_insert; [|lia].
    replace (S (length st) - length st)%nat with 1%nat by lia.
    eexists; reflexivity. }
  destruct Hn2 as (cxn & dn & Hn2 & Hdn). destruct Hc2 as (hooks & Hc2).
  pose proof (Statements_parse_basic l1 (all_basic l1) _ _ _ _ _ _ _
                Hc2 eq_refl Hp) as (Hev & _).
  destruct (Hev _ _ Hs2) as (o3 & Ho3 & _ & _ & He3).
  rewrite He3 in Ho3 by (subst contents; lia). clear He3 o3.
  destruct (Hev _ _ Hn2) as (o3 & Hn3 & _ & _ & He3).
  rewrite He3 in Hn3 by (subst contents; lia). clear He3 o3.
  destruct (Hev _ _ Hc2) as (o3 & Hc3 & Hcl3 & _).
  unfold set_block_data in H. rewrite Ho3 in H. injection H as <- <-.
  assert (Hk3 : keeps_from (length st) st3 st'').
  { intros k o Hle Hko. apply Hk; [assumption|].
    rewrite list_lookup_insert_ne by lia. exact Hko. }
  destruct n as [|n]; [simpl in Hd; lia|].
  cbn [linked].
  rewrite (Hself (Block c [length st; contents] (Some (length st)) (Some contents)));
    cycle 1.
  { apply list_lookup_insert_eq. eapply lookup_lt_Some; exact Ho3. }
  split; [|split].
  - exists cxn, dn. split; [|exact Hdn]. apply Hk3; [lia|exact Hn3].
  - destruct o3 as [|ck dk twk|]; try discriminate Hcl3.
    exists ck, dk, twk. apply Hk3; [subst contents; lia|exact Hc3].
  - change (Some self) with
      (parent_of (Some (mkContext (Some self) hooks))).
    eapply (Statements_parse_linked l1 Hl _ _ _ _ _ _ _ _ Hc2 Hp).
    + eapply keeps_from_weaken; [|exact Hk3]. lia.
    + intros o Ho. apply Hk3; [subst contents; lia|exact Ho].
    + simpl in Hd |- *. lia.
Qed.

Lemma parent_context_in_force ctx :
  parent_of (Some (context_in_force ctx)) = parent_of ctx.
Proof. destruct ctx as [[p [h|]]|]; reflexivity. Qed.

Lemma parse_raw_linked_all (r : raw) : parse_raw_linked r.
Proof.
  induction r as [r IH] using raw_depth_ind.
  intros ctx b st r' st' p H st'' n Hk Hd.
  pose proof (parse_raw_basic_all _ _ _ _ _ _ _ H) as (_ & _ & Hp & _).
  specialize (Hp _ eq_refl). subst p.
  rewrite parse_raw_eq, choose_parser_first_match in H.
  destruct (first_match ctx r) as [t|] eqn:Hfm; [|discriminate H].
  pose proof (first_match_should_parse _ _ _ Hfm) as Hsp.
  rewrite <- parent_context_in_force.
  set (c := Some (context_in_force ctx)) in *.
  assert (Hnew : (st ++ [new t c]) !! length st = Some (new t c)).
  { rewrite lookup_app_r by lia. rewrite Nat.sub_diag. reflexivity. }
  destruct (parse_method parse_raw (length st) r b (st ++ [new t c]))
    as [[r1 st1] [[]|e]] eqn:Hm; [|discriminate H].
  injection H as <- <-.
  assert (Hself : forall o, st1 !! length st = Some o -> st'' !! length st = Some o).
  { intros o Ho. apply Hk; [lia|exact Ho]. }
  assert (Hk1 : keeps_from (length (st ++ [new t c])) st1 st'').
  { eapply keeps_from_weaken; [|exact Hk]. rewrite length_app. lia. }
  unfold parse_method in Hm. rewrite Hnew in Hm.
  destruct t; cbn [should_parse new] in Hsp, Hm, Hnew.
  - apply Block_should_parse_shape in Hsp as (d & l1 & -> & Hne).
    eapply (Block_parse_linked l1); [|exact Hnew|exact Hne|exact Hm| | |];
      try assumption.
    apply Forall_forall. intros e He. apply IH.
    apply list_elem_of_In, depth_elem in He.
    pose proof (depth_elem [RList (map RStr d); RList l1] (RList l1)
                  ltac:(simpl; auto)). lia.
  - apply Sentence_should_parse_strings in Hsp as (d & -> & Hne).
    rewrite (Sentence_parse_strings _ _ _ _ _ _ Hnew) in Hm.
    injection Hm as <- <-.
    destruct n as [|n]; [simpl in Hd; lia|].
    cbn [linked].
    rewrite (Hself (Sentence c (if b then spaced_spec d else d))).
    + destruct b; [apply spaced_spec_nonempty|]; exact Hne.
    + apply list_lookup_insert_eq. rewrite length_app. simpl. lia.
  - destruct r as [|l|]; try discriminate.
    eapply (Statements_parse_linked l); [|exact Hnew|exact Hm| | |];
      try assumption.
    apply Forall_forall. intros e He. apply IH.
    apply depth_elem, list_elem_of_In; assumption.
Qed.

Lemma set_tabs_parsed (r : raw) ctx b (st : store) r' st' p tabs :
  parse_raw r ctx b st = (r', st', Ok p) -> parent_of ctx = None ->
  exists st'', set_tabs (2 * depth r) p tabs st' = (st'', Ok tt).
Proof.
  intros H Hpar.
  pose proof (parse_raw_linked_all r _ _ _ _ _ _ H st' (depth r)
                ltac:(intros k o _ Hk; exact Hk) (le_n _)) as Hl.
  rewrite Hpar in Hl.
  eapply (set_tabs_linked (depth r)); [exact Hl|lia|lia|].
  intros q [=].
Qed.

(** * More of the module *)

(** ** Certbot comments, and the words of a sentence *)

Lemma spaces_all (k : nat) :
  Str.all_chars Str.isspace_char (Nat.iter k (String.append " ") EmptyString) = true
  /\ Str.mem Str.nl_char (Nat.iter k (String.append " ") EmptyString) = false.
Proof.
  induction k as [|k [IH1 IH2]]; [split; reflexivity|].
  change (Nat.iter (S k) (String.append " ") EmptyString)
    with (String " "%char (Nat.iter k (String.append " ") EmptyString)).
  simpl. rewrite IH1, IH2. split; reflexivity.
Qed.

Lemma spaces_isspace (n : Z) :
  (1 <= n)%Z -> Str.isspace (py_str_mul " " n) = true.
Proof.
  intros Hn. unfold py_str_mul.
  destruct (Z.to_nat n) as [|k] eqn:E; [lia|].
  pose proof (spaces_all (S k)) as [H _].
  change (Nat.iter (S k) (String.append " ") EmptyString)
    with (String " "%char (Nat.iter k (String.append " ") EmptyString)) in *.
  exact H.
Qed.

Lemma spaces_empty (n : Z) : (n <= 0)%Z -> py_str_mul " " n = EmptyString.
Proof.
  intros Hn. unfold py_str_mul. replace (Z.to_nat n) with 0%nat by lia. reflexivity.
Qed.

Lemma certbot_comment_eq ctx (n : Z) (st : store) :
  _certbot_comment ctx n st
  = (st ++ [Sentence ctx [py_str_mul " " n; "#"; COMMENT]], Ok (length st)).
Proof.
  unfold _certbot_comment, bind, alloc.
  change (RList (RStr (py_str_mul " " n) :: map RStr COMMENT_BLOCK))
    with (RList (map RStr (py_str_mul " " n :: COMMENT_BLOCK))).
  erewrite Sentence_parse_strings; cycle 1.
  { rewrite lookup_app_r by lia. rewrite Nat.sub_diag. reflexivity. }
  rewrite insert_app_r_alt by lia. rewrite Nat.sub_diag. reflexivity.
Qed.

Lemma lookup_last_added (st : store) (o : obj) :
  (st ++ [o]) !! length st = Some o.
Proof. rewrite lookup_app_r by lia. rewrite Nat.sub_diag. reflexivity. Qed.

Lemma is_certbot_comment_loop_two (a b : string) :
  _is_certbot_comment_loop 0 [a; b]
  = Ok (String.eqb a "#" && String.eqb b COMMENT).
Proof.
  simpl. destruct (String.eqb a "#"); [|reflexivity].
  simpl. destruct (String.eqb b COMMENT); reflexivity.
Qed.

Lemma is_certbot_comment_sentence (st : store) (p : loc) c d w ws :
  st !! p = Some (Sentence c d) -> words_of d = w :: ws ->
  exists b, _is_certbot_comment st p = Ok b /\
            (b = true <-> w :: ws = COMMENT_BLOCK).
Proof.
  intros Hs Hw. unfold _is_certbot_comment, _is_comment, words, get_obj, get_sentence.
  rewrite Hs. cbn [res_bind res_map]. rewrite Hw. cbn [py_index lookup list_lookup res_bind].
  destruct (String.eqb w "#") eqn:Ew; cbn [negb].
  - apply String.eqb_eq in Ew. subst w.
    destruct ws as [|b [|x ws]]; cbn [length Nat.eqb negb COMMENT_BLOCK].
    + eexists. split; [reflexivity|]. split; discriminate.
    + rewrite is_certbot_comment_loop_two.
      eexists. split; [reflexivity|].
      rewrite String.eqb_refl. cbn [andb].
      destruct (String.eqb b COMMENT) eqn:Eb.
      * apply String.eqb_eq in Eb. subst b. split; reflexivity.
      * apply String.eqb_neq in Eb. split; [discriminate|]. intros [= E]. congruence.
    + eexists. split; [reflexivity|]. split; discriminate.
  - apply String.eqb_neq in Ew. eexists. split; [reflexivity|].
    split; [discriminate|]. intros [= E _]. congruence.
Qed.

Lemma is_comment_sentence (st : store) (p : loc) c d :
  st !! p = Some (Sentence c d) ->
  _is_comment st p = res_map (fun w => String.eqb w "#") (py_index (words_of d) 0).
Proof.
  intros Hs. unfold _is_comment, words, get_obj, get_sentence. rewrite Hs.
  cbn [res_bind res_map]. destruct (py_index (words_of d) 0); reflexivity.
Qed.

(** X5. [_is_certbot_comment] answers [True] exactly for a [Sentence] whose
    words are the two of [COMMENT_BLOCK]: the hash sign and the text
    managed by Certbot, whatever whitespace tokens lie around them.  What it
    accepts [_is_comment] accepts, and it raises exactly when [_is_comment]
    raises (on a [Sentence] without words). *)
Theorem is_certbot_comment_spec (st : store) (p : loc) :
  (_is_certbot_comment st p = Ok true <->
   exists c d, st !! p = Some (Sentence c d) /\ words_of d = COMMENT_BLOCK) /\
  (_is_certbot_comment st p = Ok true -> _is_comment st p = Ok true) /\
  (forall e, _is_certbot_comment st p = Raise e <-> _is_comment st p = Raise e).
Proof.
  destruct (st !! p) as [[c d|c ds tw|c data nm k]|] eqn:Hs.
  - destruct (words_of d) as [|w ws] eqn:Hw.
    + assert (Hc : _is_comment st p = Raise IndexError)
        by (rewrite (is_comment_sentence _ _ _ _ Hs), Hw; reflexivity).
      assert (Hcc : _is_certbot_comment st p = Raise IndexError)
        by (unfold _is_certbot_comment; rewrite Hc; reflexivity).
      rewrite Hc, Hcc. repeat split; try discriminate; auto.
      intros (c' & d' & [= <- <-] & E). rewrite Hw in E. discriminate.
    + destruct (is_certbot_comment_sentence _ _ _ _ _ _ Hs Hw) as (b & Hb & Hiff).
      assert (Hc : _is_comment st p = Ok (String.eqb w "#"))
        by (rewrite (is_comment_sentence _ _ _ _ Hs), Hw; reflexivity).
      rewrite Hb, Hc. split; [|split].
      * split.
        -- intros [= ->]. exists c, d. split; [reflexivity|]. rewrite Hw.
           apply Hiff. reflexivity.
        -- intros (c' & d' & [= <- <-] & E). rewrite Hw in E.
           f_equal. apply Hiff. exact E.
      * intros [= ->]. assert (E : w :: ws = COMMENT_BLOCK) by (apply Hiff; reflexivity).
        injection E as -> _. reflexivity.
      * intros e. split; discriminate.
  - assert (Hc : _is_comment st p = Ok false)
      by (unfold _is_comment, get_obj; rewrite Hs; reflexivity).
    unfold _is_certbot_comment. rewrite Hc. cbn [res_bind negb].
    repeat split; try discriminate. intros (c' & d' & [=] & _).
  - assert (Hc : _is_comment st p = Ok false)
      by (unfold _is_comment, get_obj; rewrite Hs; reflexivity).
    unfold _is_certbot_comment. rewrite Hc. cbn [res_bind negb].
    repeat split; try discriminate. intros (c' & d' & [=] & _).
  - assert (Hc : _is_comment st p = Raise ReferenceError)
      by (unfold _is_comment, get_obj; rewrite Hs; reflexivity).
    unfold _is_certbot_comment. rewrite Hc. cbn [res_bind].
    repeat split; try discriminate; auto. intros (c' & d' & [=] & _).
Qed.

Lemma words_of_skip (s : string) (d : list string) :
  Str.isspace s = true -> words_of (s :: d) = words_of d.
Proof. intros H. unfold words_of. simpl. rewrite H. reflexivity. Qed.

(** X4. [_certbot_comment] adds one [Sentence] with the given context: a
    token of [preceding_spaces] spaces, the hash sign, the text.  With at
    least one space both [_is_comment] and [_is_certbot_comment] recognise
    it, it dumps without whitespace to [COMMENT_BLOCK], its tabs are the
    spaces, and [set_tabs] leaves it alone.  With no space (a count of zero
    or below) the first token is the empty string, which is a word, and
    neither predicate recognises the sentence. *)
Theorem certbot_comment_recognised ctx (n : Z) (st : store) :
  let st' := st ++ [Sentence ctx [py_str_mul " " n; "#"; COMMENT]] in
  let p := length st in
  _certbot_comment ctx n st = (st', Ok p) /\
  dump 1 st' p true = Ok (RList [RStr (py_str_mul " " n); RStr "#"; RStr COMMENT]) /\
  ((1 <= n)%Z ->
   _is_comment st' p = Ok true /\
   _is_certbot_comment st' p = Ok true /\
   dump 1 st' p false = Ok (RList [RStr "#"; RStr COMMENT]) /\
   get_tabs 1 st' p = Ok (py_str_mul " " n) /\
   forall tabs, set_tabs 1 p tabs st' = (st', Ok tt)) /\
  ((n <= 0)%Z ->
   _is_comment st' p = Ok false /\
   _is_certbot_comment st' p = Ok false).
Proof.
  intros st' p.
  assert (Hs : st' !! p = Some (Sentence ctx [py_str_mul " " n; "#"; COMMENT]))
    by apply lookup_last_added.
  split; [apply certbot_comment_eq|].
  split; [rewrite dump_S; unfold get_obj; rewrite Hs; reflexivity|].
  split.
  - intros Hn. pose proof (spaces_isspace n Hn) as Hsp.
    assert (Hw : words_of [py_str_mul " " n; "#"; COMMENT] = COMMENT_BLOCK)
      by (rewrite words_of_skip by exact Hsp; reflexivity).
    split; [rewrite (is_comment_sentence _ _ _ _ Hs), Hw; reflexivity|].
    split.
    { destruct (is_certbot_comment_sentence _ _ _ _ _ _ Hs Hw) as (b & Hb & Hiff).
      rewrite Hb. f_equal. apply Hiff. reflexivity. }
    split; [rewrite dump_S; unfold get_obj; rewrite Hs; cbn [res_bind negb];
            rewrite Hw; reflexivity|].
    split.
    + rewrite get_tabs_S. unfold get_obj. rewrite Hs. cbn [res_bind].
      unfold Sentence_get_tabs. cbn [py_index lookup list_lookup res_bind].
      rewrite Hsp. cbn [negb].
      rewrite rfind_absent; [reflexivity|]. apply spaces_all.
    + intros tabs. rewrite set_tabs_S, Hs.
      rewrite (Sentence_set_tabs_eq _ _ _ _ _ _ Hs), Hsp. reflexivity.
  - intros Hn. rewrite (spaces_empty n Hn) in *.
    assert (Hc : _is_comment st' p = Ok false)
      by (rewrite (is_comment_sentence _ _ _ _ Hs); reflexivity).
    split; [exact Hc|]. unfold _is_certbot_comment. rewrite Hc. reflexivity.
Qed.

Lemma certbot_comment_recognised_witness :
  _is_certbot_comment (fst (_certbot_comment None 4 [])) 0%nat = Ok true /\
  _is_certbot_comment (fst (_certbot_comment None 0 [])) 0%nat = Ok false.
Proof.
  split.
  - destruct (certbot_comment_recognised None 4 []) as (E & _ & H & _).
    rewrite E. apply H. lia.
  - destruct (certbot_comment_recognised None 0 []) as (E & _ & _ & H).
    rewrite E. apply H. lia.
Defined.

Lemma filter_spaced_from (p : string) (ws : list string) :
  List.filter (fun w => negb (Str.isspace w)) (spaced_from p ws)
  = List.filter (fun w => negb (Str.isspace w)) ws.
Proof.
  revert p. induction ws as [|w ws IH]; intros p; [reflexivity|].
  simpl. destruct (negb (Str.isspace w) && negb (Str.isspace p)); simpl;
    rewrite IH; reflexivity.
Qed.

Lemma words_of_spaced (ws : list string) : words_of (spaced_spec ws) = words_of ws.
Proof.
  unfold words_of. f_equal. destruct ws as [|w ws]; [reflexivity|].
  simpl. rewrite filter_spaced_from. reflexivity.
Qed.

(** X8. Spacing synthesis does not change what a [Sentence] reads as: after
    [Sentence.parse] of a list of strings, with or without [add_spaces],
    [words], [dump] without whitespace and every index of [__getitem__]
    (negative ones counting from the end, [IndexError] out of range) are
    those of the tokens given. *)
Theorem words_ignore_spacing (self : loc) (d : list string) (b : bool)
    (st : store) c d0 :
  st !! self = Some (Sentence c d0) ->
  exists st',
    Sentence_parse self (RList (map RStr d)) b st = (st', Ok tt) /\
    words st' self = Ok (words_of d) /\
    dump 1 st' self false = Ok (RList (map RStr (words_of d))) /\
    forall i, Sentence___getitem__ st' self i = py_getitem (words_of d) i.
Proof.
  intros Hs. rewrite (Sentence_parse_strings _ _ _ _ _ _ Hs).
  eexists. split; [reflexivity|].
  assert (Hl : forall o, <[self := o]> st !! self = Some o)
    by (intros o; apply list_lookup_insert_eq; eapply lookup_lt_Some; exact Hs).
  assert (Hw : words_of (if b then spaced_spec d else d) = words_of d)
    by (destruct b; [apply words_of_spaced|reflexivity]).
  split; [|split].
  - unfold words, get_sentence. rewrite Hl. cbn [res_map res_bind]. rewrite Hw. reflexivity.
  - rewrite dump_S. unfold get_obj. rewrite Hl. cbn [res_bind negb]. rewrite Hw. reflexivity.
  - intros i. unfold Sentence___getitem__, words, get_sentence. rewrite Hl.
    cbn [res_map res_bind]. rewrite Hw. reflexivity.
Qed.

Lemma words_ignore_spacing_witness :
  exists st',
    Sentence_parse 0%nat (RList (map RStr ["listen"; "80"; ";"])) true
      [Sentence None []] = (st', Ok tt) /\
    Sentence___getitem__ st' 0%nat (-1) = Ok ";" /\
    Sentence___getitem__ st' 0%nat 1 = Ok "80" /\
    Sentence___getitem__ st' 0%nat 3 = Raise IndexError.
Proof.
  destruct (words_ignore_spacing 0%nat ["listen"; "80"; ";"] true
              [Sentence None []] None [] eq_refl) as (st' & E & _ & _ & H).
  exists st'. split; [exact E|]. rewrite !H. repeat split.
Defined.

(** ** Indentation *)

Lemma rfind_lower c s : (-1 <= Str.rfind c s)%Z.
Proof.
  induction s as [|d s IH]; simpl; [lia|].
  destruct (0 <=? Str.rfind c s)%Z eqn:E; [apply Z.leb_le in E; lia|].
  destruct (Ascii.eqb d c); lia.
Qed.

Lemma drop_after_last c s :
  Str.mem c (Str.drop (Z.to_nat (Str.rfind c s + 1)) s) = false.
Proof.
  induction s as [|d s IH]; [reflexivity|].
  pose proof (rfind_lower c s) as Hlow. simpl Str.rfind.
  destruct (0 <=? Str.rfind c s)%Z eqn:E.
  - apply Z.leb_le in E.
    replace (Z.to_nat (Str.rfind c s + 1 + 1)) with (S (Z.to_nat (Str.rfind c s + 1)))
      by lia.
    exact IH.
  - apply Z.leb_gt in E. assert (Er : Str.rfind c s = (-1)%Z) by lia.
    rewrite Er in IH. simpl in IH.
    destruct (Ascii.eqb d c) eqn:Ed; simpl.
    + exact IH.
    + rewrite Ascii.eqb_sym, Ed, IH. reflexivity.
Qed.

Lemma all_chars_drop p n s :
  Str.all_chars p s = true -> Str.all_chars p (Str.drop n s) = true.
Proof.
  revert s. induction n as [|n IH]; intros s H; [exact H|].
  destruct s as [|c s]; [reflexivity|]. simpl in *.
  apply andb_true_iff in H as [_ H]. auto.
Qed.

Lemma isspace_all s : Str.isspace s = true -> Str.all_chars Str.isspace_char s = true.
Proof. destruct s; [discriminate|]. intros H. exact H. Qed.

Lemma Sentence_get_tabs_indentation d t :
  Sentence_get_tabs d = Ok t ->
  Str.all_chars Str.isspace_char t = true /\ Str.mem Str.nl_char t = false.
Proof.
  unfold Sentence_get_tabs. destruct (py_index d 0) as [first|]; [|discriminate].
  cbn [res_bind]. destruct (Str.isspace first) eqn:E; cbn [negb].
  - intros [= <-]. split; [apply all_chars_drop, isspace_all, E|apply drop_after_last].
  - intros [= <-]. split; reflexivity.
Qed.

Lemma get_tabs_indentation fuel :
  forall (st : store) (self : loc) t,
    get_tabs fuel st self = Ok t ->
    Str.all_chars Str.isspace_char t = true /\ Str.mem Str.nl_char t = false.
Proof.
  induction fuel as [|fuel IH]; intros st self t H; [discriminate H|].
  rewrite get_tabs_S in H. unfold get_obj in H.
  destruct (st !! self) as [[c d|c [|first ds] tw|c data [nm|] k]|];
    cbn [res_bind] in H; try discriminate H.
  - eapply Sentence_get_tabs_indentation; exact H.
  - injection H as <-. split; reflexivity.
  - eapply IH; exact H.
  - eapply IH; exact H.
Qed.

(** X1. What [get_tabs] returns is indentation: a string of whitespace
    characters without a newline, on any object of any store.  And it does
    return on every node [parse_raw] returned, within the depth of the raw
    value. *)
Theorem get_tabs_is_indentation :
  (forall fuel (st : store) (self : loc) t,
     get_tabs fuel st self = Ok t ->
     Str.all_chars Str.isspace_char t = true /\ Str.mem Str.nl_char t = false) /\
  (forall (r : raw) ctx b (st : store) r' st' p,
     parse_raw r ctx b st = (r', st', Ok p) ->
     exists t, get_tabs (depth r) st' p = Ok t).
Proof.
  split; [exact get_tabs_indentation|].
  intros r ctx b st r' st' p H.
  eapply get_tabs_linked; [|apply le_n].
  eapply parse_raw_linked_all; [exact H| |apply le_n].
  intros k o _ Hk. exact Hk.
Qed.

Lemma get_tabs_is_indentation_witness :
  exists t, get_tabs (depth ex_block) ex_store 3%nat = Ok t /\
            Str.all_chars Str.isspace_char t = true /\
            Str.mem Str.nl_char t = false.
Proof.
  destruct get_tabs_is_indentation as [H _].
  exists "    ". split; [vm_compute; reflexivity|].
  apply (H (depth ex_block) ex_store 3%nat). vm_compute. reflexivity.
Defined.

(** ** [iterate] and its predicate *)

Lemma res_all_map {A B C} (f : A -> res B) (g : B -> C) (l : list A) :
  res_all (fun x => res_map g (f x)) l = res_map (map g) (res_all f l).
Proof.
  induction l as [|x l IH]; [reflexivity|]. simpl. rewrite IH.
  destruct (f x); [|reflexivity]. simpl. destruct (res_all f l); reflexivity.
Qed.

Lemma res_all_ext {A B} (f g : A -> res B) (l : list A) :
  (forall x, f x = g x) -> res_all f l = res_all g l.
Proof. intros H. induction l as [|x l IH]; simpl; [reflexivity|]. rewrite H, IH. reflexivity. Qed.

Lemma filter_concat {A} (g : A -> bool) (ls : list (list A)) :
  List.filter g (concat ls) = concat (map (List.filter g) ls).
Proof.
  induction ls as [|l ls IH]; [reflexivity|]. simpl.
  rewrite List.filter_app, IH. reflexivity.
Qed.

(** X2. The [match] argument of [iterate] is a filter: iterating with a
    predicate yields the objects that iterating without one yields, in the
    same order, minus those the predicate rejects; a block that is rejected
    still has its contents searched. *)
Theorem iterate_match_filters fuel (st : store) (self : loc) expanded
    (f : store -> loc -> bool) :
  iterate fuel st self expanded (Some f)
  = res_map (List.filter (f st)) (iterate fuel st self expanded None).
Proof.
  revert self. induction fuel as [|fuel IH]; intros self; [reflexivity|].
  rewrite !iterate_S. unfold get_obj.
  destruct (st !! self) as [[c d|c ds tw|c data nm k]|]; cbn [res_bind];
    [| | |reflexivity].
  - cbn [matches res_map res_bind List.filter]. destruct (f st self); reflexivity.
  - rewrite (res_all_ext _ _ ds (fun x => IH x)), res_all_map.
    destruct (res_all _ ds) as [ls|]; [|reflexivity].
    cbn [res_map res_bind]. rewrite filter_concat. reflexivity.
  - cbn [matches]. destruct expanded.
    + destruct k as [k|]; [|reflexivity]. rewrite IH.
      destruct (iterate fuel st k true None) as [rest|]; [|reflexivity].
      cbn [res_map res_bind]. rewrite List.filter_app. cbn [List.filter].
      destruct (f st self); reflexivity.
    + cbn [res_map res_bind List.filter]. destruct (f st self); reflexivity.
Qed.

(** ** Expanded and plain traversal *)

Lemma res_all_sublist {A B} (f g : A -> res (list B)) (l : list A) xs ys :
  (forall x a b, f x = Ok a -> g x = Ok b -> a `sublist_of` b) ->
  res_all f l = Ok xs -> res_all g l = Ok ys ->
  concat xs `sublist_of` concat ys.
Proof.
  intros H. revert xs ys. induction l as [|x l IH]; simpl; intros xs ys Hx Hy.
  - injection Hx as <-. injection Hy as <-. constructor.
  - destruct (f x) as [a|] eqn:Ea; simpl in Hx; [|discriminate Hx].
    destruct (res_all f l) as [xs'|]; simpl in Hx; [|discriminate Hx].
    destruct (g x) as [b|] eqn:Eb; simpl in Hy; [|discriminate Hy].
    destruct (res_all g l) as [ys'|]; simpl in Hy; [|discriminate Hy].
    injection Hx as <-. injection Hy as <-. simpl.
    apply sublist_app; [eapply H; eauto|eapply IH; eauto].
Qed.

(** X11. Expanding only adds: what [iterate] yields with [expanded] unset is
    a subsequence of what it yields with [expanded] set. *)
Theorem iterate_expanded_contains fuel (st : store) (self : loc) match_ a b :
  iterate fuel st self false match_ = Ok a ->
  iterate fuel st self true match_ = Ok b ->
  a `sublist_of` b.
Proof.
  revert self a b. induction fuel as [|fuel IH]; intros self a b Ha Hb;
    [discriminate Ha|].
  rewrite iterate_S in Ha, Hb. unfold get_obj in Ha, Hb.
  destruct (st !! self) as [[c d|c ds tw|c data nm k]|]; cbn [res_bind] in Ha, Hb;
    [| | |discriminate Ha].
  - injection Ha as <-. injection Hb as <-. reflexivity.
  - destruct (res_all (fun elem => iterate fuel st elem false match_) ds)
      as [xs|] eqn:Ex; [|discriminate Ha].
    destruct (res_all (fun elem => iterate fuel st elem true match_) ds)
      as [ys|] eqn:Ey; [|discriminate Hb].
    injection Ha as <-. injection Hb as <-.
    eapply res_all_sublist; [|exact Ex|exact Ey].
    intros x a b Ha Hb. exact (IH x a b Ha Hb).
  - destruct k as [k|]; [|discriminate Hb].
    destruct (iterate fuel st k true match_) as [rest|]; [|discriminate Hb].
    injection Ha as <-. injection Hb as <-. apply sublist_inserts_r. reflexivity.
Qed.

Lemma iterate_expanded_contains_witness :
  [1%nat; 5%nat] `sublist_of` [1%nat; 4%nat; 5%nat; 8%nat].
Proof.
  apply (iterate_expanded_contains 4
           (snd (fst (parse_raw ex_two_blocks None false []))) 0%nat None);
    vm_compute; reflexivity.
Defined.

(** ** Re-indentation changes whitespace only *)

Lemma same_words_obj_refl o : same_words_obj o o.
Proof. destruct o; simpl; eauto. Qed.

Lemma same_words_obj_trans o1 o2 o3 :
  same_words_obj o1 o2 -> same_words_obj o2 o3 -> same_words_obj o1 o3.
Proof.
  destruct o1; simpl.
  - intros (d' & -> & H1) (d'' & -> & H2). eexists. split; [reflexivity|congruence].
  - intros (tw' & ->) (tw'' & ->). eauto.
  - intros -> H. exact H.
Qed.

Lemma same_words_refl (st : store) : same_words st st.
Proof.
  intros k. destruct (st !! k) as [o|]; [|reflexivity].
  exists o. split; [reflexivity|apply same_words_obj_refl].
Qed.

Lemma same_words_trans (st1 st2 st3 : store) :
  same_words st1 st2 -> same_words st2 st3 -> same_words st1 st3.
Proof.
  intros H1 H2 k. specialize (H1 k). specialize (H2 k).
  destruct (st1 !! k) as [o1|].
  - destruct H1 as (o2 & Ho2 & Hr1). rewrite Ho2 in H2.
    destruct H2 as (o3 & Ho3 & Hr2). exists o3. split; [assumption|].
    eapply same_words_obj_trans; eauto.
  - rewrite H1 in H2. exact H2.
Qed.

Lemma same_words_insert (st : store) (self : loc) o o' :
  st !! self = Some o -> same_words_obj o o' -> same_words st (<[self := o']> st).
Proof.
  intros Hs Hr k. destruct (decide (k = self)) as [->|Hne].
  - rewrite Hs. exists o'. split; [|assumption].
    apply list_lookup_insert_eq. eapply lookup_lt_Some; eauto.
  - rewrite list_lookup_insert_ne by auto.
    destruct (st !! k) as [o1|]; [|reflexivity].
    exists o1. split; [reflexivity|apply same_words_obj_refl].
Qed.

Lemma isspace_newline_tabs tabs :
  Str.all_chars Str.isspace_char tabs = true ->
  Str.isspace (String.append Str.nl tabs) = true.
Proof.
  intros H. change (String.append Str.nl tabs) with (String Str.nl_char tabs).
  simpl. exact H.
Qed.

Lemma all_chars_append p s1 s2 :
  Str.all_chars p s1 = true -> Str.all_chars p s2 = true ->
  Str.all_chars p (String.append s1 s2) = true.
Proof.
  intros H1 H2. induction s1 as [|c s1 IH]; [exact H2|].
  change (String.append (String c s1) s2) with (String c (String.append s1 s2)).
  simpl in *. apply andb_true_iff in H1 as [Hc H1]. rewrite Hc. simpl. auto.
Qed.

Lemma Sentence_set_tabs_same_words (self : loc) tabs (st st' : store) r :
  Str.all_chars Str.isspace_char tabs = true ->
  Sentence_set_tabs self tabs st = (st', r) -> same_words st st'.
Proof.
  intros Hws H. destruct (st !! self) as [[c [|first d]| |]|] eqn:Hs.
  2:{ rewrite (Sentence_set_tabs_eq _ _ _ _ _ _ Hs) in H.
      destruct (Str.isspace first); injection H as <- <-;
        [apply same_words_refl|].
      eapply same_words_insert; [exact Hs|]. simpl.
      eexists. split; [reflexivity|].
      apply words_of_skip, isspace_newline_tabs, Hws. }
  all: unfold Sentence_set_tabs, bind, reading, get_sentence, lift in H;
    rewrite Hs in H; simpl in H; injection H as <- <-; apply same_words_refl.
Qed.

Lemma for_each_same_words {A} (f : A -> M unit) (l : list A) :
  (forall x (st st' : store) r, f x st = (st', r) -> same_words st st') ->
  forall (st st' : store) r, for_each f l st = (st', r) -> same_words st st'.
Proof.
  intros Hf. induction l as [|x l IH]; simpl; intros st st' r H.
  - injection H as <- <-. apply same_words_refl.
  - unfold bind in H. destruct (f x st) as [st1 [[]|e]] eqn:Hx.
    + eapply same_words_trans; [eapply Hf; exact Hx|]. eapply IH; exact H.
    + injection H as <- <-. eapply Hf; exact Hx.
Qed.

Lemma set_tabs_same_words fuel :
  forall (self : loc) tabs (st st' : store) r,
    Str.all_chars Str.isspace_char tabs = true ->
    set_tabs fuel self tabs st = (st', r) -> same_words st st'.
Proof.
  induction fuel as [|fuel IH]; intros self tabs st st' r Hws H.
  { injection H as <- <-. apply same_words_refl. }
  rewrite set_tabs_S in H.
  destruct (st !! self) as [[c d|c d tw|c d [n|] k]|] eqn:Hs;
    try (injection H as <- <-; apply same_words_refl).
  - eapply Sentence_set_tabs_same_words; eauto.
  - unfold bind in H.
    assert (Hch : forall x (s s' : store) r0,
              set_tabs fuel x tabs s = (s', r0) -> same_words s s')
      by (intros; eapply IH; eauto).
    destruct (for_each _ d st) as [st1 [[]|e]] eqn:Hf;
      [|injection H as <- <-; eapply for_each_same_words; [|exact Hf]; exact Hch].
    assert (Hr1 : same_words st st1)
      by (eapply for_each_same_words; [|exact Hf]; exact Hch).
    destruct (parent_of c) as [p|] eqn:Hp;
      [|injection H as <- <-; exact Hr1].
    unfold reading in H. destruct (get_tabs fuel st1 p) as [t|e];
      [|injection H as <- <-; exact Hr1].
    eapply same_words_trans; [exact Hr1|].
    pose proof (Hr1 self) as Hself. rewrite Hs in Hself.
    destruct Hself as (o' & Ho' & tw' & ->).
    unfold set_trailing_whitespace in H. rewrite Ho' in H.
    injection H as <- <-. eapply same_words_insert; [exact Ho'|].
    simpl. eauto.
  - unfold bind in H. destruct (set_tabs fuel n tabs st) as [st1 [[]|e]] eqn:Hn.
    + eapply same_words_trans; [eapply IH; eauto|].
      destruct k as [k|]; [|injection H as <- <-; apply same_words_refl].
      eapply IH; [|exact H]. apply all_chars_append; [exact Hws|reflexivity].
    + injection H as <- <-. eapply IH; eauto.
Qed.

Lemma same_words_dump (st st' : store) :
  same_words st st' ->
  forall fuel (p : loc), dump fuel st' p false = dump fuel st p false.
Proof.
  intros Hsw. induction fuel as [|fuel IH]; intros p; [reflexivity|].
  rewrite !dump_S. unfold get_obj. pose proof (Hsw p) as Hp.
  destruct (st !! p) as [[c d|c ds tw|c data nm k]|].
  - destruct Hp as (o' & -> & d' & -> & Hw). cbn [res_bind negb]. rewrite Hw. reflexivity.
  - destruct Hp as (o' & -> & tw' & ->). cbn [res_bind].
    rewrite (res_all_ext _ _ ds (fun x => IH x)).
    destruct (res_all _ ds); cbn [res_bind]; [|reflexivity].
    destruct tw, tw'; reflexivity.
  - destruct Hp as (o' & -> & ->). cbn [res_bind].
    rewrite (res_all_ext _ _ data (fun x => IH x)). reflexivity.
  - rewrite Hp. reflexivity.
Qed.

Lemma same_words_words (st st' : store) :
  same_words st st' -> forall p : loc, words st' p = words st p.
Proof.
  intros Hsw p. unfold words, get_sentence. pose proof (Hsw p) as Hp.
  destruct (st !! p) as [[c d|c ds tw|c data nm k]|].
  - destruct Hp as (o' & -> & d' & -> & Hw). cbn [res_map res_bind]. rewrite Hw. reflexivity.
  - destruct Hp as (o' & -> & tw' & ->). reflexivity.
  - destruct Hp as (o' & -> & ->). reflexivity.
  - rewrite Hp. reflexivity.
Qed.

(** X3. [set_tabs] with a [tabs] of whitespace changes whitespace only:
    whether it returns or raises, afterwards every object dumps without
    whitespace as before, has the words it had, and [iterate] without a
    predicate yields what it yielded. *)
Theorem set_tabs_keeps_words fuel (self : loc) tabs (st st' : store) r :
  Str.all_chars Str.isspace_char tabs = true ->
  set_tabs fuel self tabs st = (st', r) ->
  (forall fuel' (p : loc), dump fuel' st' p false = dump fuel' st p false) /\
  (forall p : loc, words st' p = words st p) /\
  (forall fuel' (p : loc) expanded,
     iterate fuel' st' p expanded None = iterate fuel' st p expanded None).
Proof.
  intros Hws H. pose proof (set_tabs_same_words _ _ _ _ _ _ Hws H) as Hsw.
  split; [intros; apply same_words_dump; exact Hsw|].
  split; [apply same_words_words; exact Hsw|].
  intros fuel'. induction fuel' as [|fuel' IH]; intros p expanded; [reflexivity|].
  rewrite !iterate_S. unfold get_obj. pose proof (Hsw p) as Hp.
  destruct (st !! p) as [[c d|c ds tw|c data nm k]|].
  - destruct Hp as (o' & -> & d' & -> & Hw). reflexivity.
  - destruct Hp as (o' & -> & tw' & ->). cbn [res_bind].
    rewrite (res_all_ext _ _ ds (fun x => IH x expanded)). reflexivity.
  - destruct Hp as (o' & -> & ->). cbn [res_bind matches].
    destruct expanded; [|reflexivity]. destruct k; [|reflexivity].
    rewrite IH. reflexivity.
  - rewrite Hp. reflexivity.
Qed.

Lemma set_tabs_keeps_words_witness :
  dump 3 ex_retabbed 0%nat false = dump 3 ex_store 0%nat false /\
  dump 3 ex_store 0%nat false
  = Ok (RList [RList [RStr "server"];
               RList [RList [RStr "listen"; RStr "80"; RStr ";"]]]).
Proof.
  split; [|vm_compute; reflexivity].
  apply (set_tabs_keeps_words 4 0%nat "  " ex_store ex_retabbed (Ok tt));
    vm_compute; reflexivity.
Defined.

(** ** Spacing synthesis changes whitespace only *)

Lemma same_words_length (st st' : store) :
  same_words st st' -> length st' = length st.
Proof.
  intros H. destruct (Nat.lt_trichotomy (length st') (length st)) as [Hlt|[He|Hgt]];
    [|exact He|].
  - pose proof (H (length st')) as Hk.
    destruct (lookup_lt_is_Some_2 st _ Hlt) as [o Ho]. rewrite Ho in Hk.
    destruct Hk as (o' & Ho' & _). apply lookup_lt_Some in Ho'. lia.
  - pose proof (H (length st)) as Hk.
    rewrite (lookup_ge_None_2 st (length st)) in Hk by lia.
    apply lookup_ge_None_1 in Hk. lia.
Qed.

Lemma same_words_snoc (st st' : store) o o' :
  same_words st st' -> same_words_obj o o' -> same_words (st ++ [o]) (st' ++ [o']).
Proof.
  intros H Ho k. pose proof (same_words_length _ _ H) as Hlen.
  destruct (Nat.lt_trichotomy k (length st)) as [Hlt|[->|Hgt]].
  - rewrite !lookup_app_l by lia. apply H.
  - rewrite lookup_last_added. rewrite <- Hlen, lookup_last_added. eauto.
  - rewrite (lookup_ge_None_2 (st ++ [o])) by (rewrite length_app; simpl; lia).
    apply lookup_ge_None_2. rewrite length_app. simpl. lia.
Qed.

Lemma same_words_insert2 (st st' : store) (k : loc) o o' :
  same_words st st' -> same_words_obj o o' ->
  same_words (<[k := o]> st) (<[k := o']> st').
Proof.
  intros H Ho j. pose proof (same_words_length _ _ H) as Hlen.
  destruct (decide (j = k)) as [->|Hne].
  - destruct (Nat.lt_ge_cases k (length st)) as [Hlt|Hge].
    + rewrite !list_lookup_insert_eq by lia. eauto.
    + rewrite !list_insert_ge by lia. apply H.
  - rewrite !list_lookup_insert_ne by auto. apply H.
Qed.

Lemma same_words_context (st st' : store) (self : loc) :
  same_words st st' ->
  match st !! self with
  | Some o => exists o', st' !! self = Some o' /\ class_of o' = class_of o /\
                         context_of o' = context_of o
  | None => st' !! self = None
  end.
Proof.
  intros H. specialize (H self). destruct (st !! self) as [o|]; [|exact H].
  destruct H as (o' & Ho' & Hr). exists o'. split; [exact Ho'|].
  destruct o; simpl in Hr.
  - destruct Hr as (d' & -> & _). split; reflexivity.
  - destruct Hr as (tw' & ->). split; reflexivity.
  - subst o'. split; reflexivity.
Qed.

Lemma same_words_child_context (st st' : store) (self : loc) :
  same_words st st' -> child_context self st' = child_context self st.
Proof.
  intros H. apply (same_words_context _ _ self) in H.
  unfold child_context, get_obj. destruct (st !! self) as [o|].
  - destruct H as (o' & -> & _ & Hc). cbn [res_bind]. rewrite Hc. reflexivity.
  - rewrite H. reflexivity.
Qed.

Lemma same_words_set_statements_data (st st' : store) (self : loc) d :
  same_words st st' ->
  snd (set_statements_data self d st') = snd (set_statements_data self d st) /\
  same_words (fst (set_statements_data self d st))
             (fst (set_statements_data self d st')).
Proof.
  intros H. unfold set_statements_data. pose proof (H self) as Hs.
  destruct (st !! self) as [[c d0|c d0 tw|c d0 nm k]|].
  - destruct Hs as (o' & -> & d' & -> & _). split; [reflexivity|exact H].
  - destruct Hs as (o' & -> & tw' & ->). split; [reflexivity|].
    apply same_words_insert2; [exact H|]. simpl. eauto.
  - destruct Hs as (o' & -> & ->). split; [reflexivity|exact H].
  - rewrite Hs. split; [reflexivity|exact H].
Qed.

Lemma same_words_set_block_data (st st' : store) (self : loc) d :
  same_words st st' ->
  snd (set_block_data self d st') = snd (set_block_data self d st) /\
  same_words (fst (set_block_data self d st))
             (fst (set_block_data self d st')).
Proof.
  intros H. unfold set_block_data. pose proof (H self) as Hs.
  destruct (st !! self) as [[c d0|c d0 tw|c d0 nm k]|].
  - destruct Hs as (o' & -> & d' & -> & _). split; [reflexivity|exact H].
  - destruct Hs as (o' & -> & tw' & ->). split; [reflexivity|exact H].
  - destruct Hs as (o' & -> & ->). split; [reflexivity|].
    apply same_words_insert2; [exact H|]. reflexivity.
  - rewrite Hs. split; [reflexivity|exact H].
Qed.

Lemma parse_elems_spacing (l : list raw) :
  Forall parse_raw_spacing l ->
  forall (self : loc) n (stA stB : store) lA stA' resA lB stB' resB,
    same_words stB stA ->
    parse_elems parse_raw self true n l stA = (lA, stA', resA) ->
    parse_elems parse_raw self false n l stB = (lB, stB', resB) ->
    resA = resB /\ same_words stB' stA'.
Proof.
  induction 1 as [|elem rest Helem _ IH];
    intros self n stA stB lA stA' resA lB stB' resB Hsw HA HB.
  - destruct n; simpl in HA, HB; injection HA as <- <- <-;
      injection HB as <- <- <-; auto.
  - destruct n as [|n]; simpl in HA, HB;
      [injection HA as <- <- <-; injection HB as <- <- <-; auto|].
    rewrite (same_words_child_context _ _ self Hsw) in HA.
    destruct (child_context self stB) as [ctx|e];
      [|injection HA as <- <- <-; injection HB as <- <- <-; auto].
    destruct (parse_raw elem (Some ctx) true stA) as [[eA sA1] rA1] eqn:HpA.
    destruct (parse_raw elem (Some ctx) false stB) as [[eB sB1] rB1] eqn:HpB.
    destruct (Helem _ _ _ _ _ _ _ _ _ Hsw HpA HpB) as [-> Hsw1].
    destruct rB1 as [x|e];
      [|injection HA as <- <- <-; injection HB as <- <- <-; auto].
    destruct (parse_elems parse_raw self true n rest sA1) as [[rA sA2] rA2] eqn:HrA.
    destruct (parse_elems parse_raw self false n rest sB1) as [[rB sB2] rB2] eqn:HrB.
    destruct (IH _ _ _ _ _ _ _ _ _ _ Hsw1 HrA HrB) as [-> Hsw2].
    injection HA as <- <- <-. injection HB as <- <- <-. auto.
Qed.

Lemma Statements_parse_spacing (l : list raw) :
  Forall parse_raw_spacing l ->
  forall (self : loc) (stA stB : store) c d0 tw0 rA stA' resA rB stB' resB,
    same_words stB stA ->
    stB !! self = Some (Statements c d0 tw0) ->
    Statements_parse parse_raw self (RList l) true stA = (rA, stA', resA) ->
    Statements_parse parse_raw self (RList l) false stB = (rB, stB', resB) ->
    resA = resB /\ same_words stB' stA'.
Proof.
  intros Hl self stA stB c d0 tw0 rA stA' resA rB stB' resB Hsw Hs HA HB.
  pose proof (Hsw self) as Hself. rewrite Hs in Hself.
  destruct Hself as (o' & HsA & tw0' & ->).
  rewrite (Statements_parse_eq _ _ _ _ _ _ _ _ HsA) in HA.
  rewrite (Statements_parse_eq _ _ _ _ _ _ _ _ Hs) in HB.
  set (n := match trailing_whitespace l with
            | Some _ => (length l - 1)%nat | None => length l end) in *.
  assert (Hsw1 : same_words
            (<[self := Statements c d0
                 match trailing_whitespace l with Some s => Some s | None => tw0 end]> stB)
            (<[self := Statements c d0
                 match trailing_whitespace l with Some s => Some s | None => tw0' end]> stA)).
  { apply same_words_insert2; [exact Hsw|]. simpl. eauto. }
  destruct (parse_elems parse_raw self true n l _) as [[lA sA2] rA2] eqn:HeA.
  destruct (parse_elems parse_raw self false n l _) as [[lB sB2] rB2] eqn:HeB.
  destruct (parse_elems_spacing l Hl _ _ _ _ _ _ _ _ _ _ Hsw1 HeA HeB) as [-> Hsw2].
  destruct rB2 as [d|e];
    [|injection HA as <- <- <-; injection HB as <- <- <-; auto].
  destruct (same_words_set_statements_data _ _ self d Hsw2) as [Hr Hsw3].
  destruct (set_statements_data self d sA2) as [sA3 rA3].
  destruct (set_statements_data self d sB2) as [sB3 rB3].
  simpl in Hr, Hsw3. injection HA as <- <- <-. injection HB as <- <- <-. auto.
Qed.

Lemma words_of_app_space (d : list string) : words_of (d ++ [" "]) = words_of d.
Proof.
  unfold words_of. rewrite List.filter_app. simpl. rewrite app_nil_r. reflexivity.
Qed.

Lemma Block_parse_spacing (d : list string) (l1 : list raw) :
  Forall parse_raw_spacing l1 -> d <> [] ->
  forall (self : loc) (stA stB : store) c d0 n0 k0 rA stA' resA rB stB' resB,
    same_words stB stA ->
    stB !! self = Some (Block c d0 n0 k0) ->
    Block_parse parse_raw self (RList [RList (map RStr d); RList l1]) true stA
    = (rA, stA', resA) ->
    Block_parse parse_raw self (RList [RList (map RStr d); RList l1]) false stB
    = (rB, stB', resB) ->
    resA = resB /\ same_words stB' stA'.
Proof.
  intros Hl Hd self stA stB c d0 n0 k0 rA stA' resA rB stB' resB Hsw Hs HA HB.
  pose proof (Hsw self) as Hself. rewrite Hs in Hself.
  destruct Hself as (o' & HsA & ->).
  pose proof (same_words_length _ _ Hsw) as Hlen.
  rewrite (Block_parse_eq _ _ _ _ _ _ _ _ _ _ HsA Hd) in HA.
  rewrite (Block_parse_eq _ _ _ _ _ _ _ _ _ _ Hs Hd) in HB.
  cbv zeta in HA, HB. rewrite Hlen in HA.
  set (ctx := Some (mkContext (Some self)
                (match c with Some c => parsing_hooks c | None => None end))) in *.
  set (blk := Block c d0 (Some (length stB)) (Some (S (length stB)))) in *.
  assert (Hsw2 : same_words
            (<[self := blk]> stB ++ [Sentence ctx d; Statements ctx [] None])
            (<[self := blk]> stA
               ++ [Sentence ctx (spaced_spec (d ++ [" "])); Statements ctx [] None])).
  { change (same_words
      (<[self := blk]> stB ++ ([Sentence ctx d] ++ [Statements ctx [] None]))
      (<[self := blk]> stA
         ++ ([Sentence ctx (spaced_spec (d ++ [" "]))] ++ [Statements ctx [] None]))).
    rewrite !app_assoc. apply same_words_snoc; [|simpl; eauto].
    apply same_words_snoc; [apply same_words_insert2; [exact Hsw|reflexivity]|].
    simpl. eexists. split; [reflexivity|].
    rewrite words_of_spaced. apply words_of_app_space. }
  assert (Hk : (<[self := blk]> stB ++ [Sentence ctx d; Statements ctx [] None])
               !! S (length stB) = Some (Statements ctx [] None)).
  { rewrite lookup_app_r; rewrite length_insert; [|lia].
    replace (S (length stB) - length stB)%nat with 1%nat by lia. reflexivity. }
  destruct (Statements_parse parse_raw (S (length stB)) (RList l1) true _)
    as [[pA sA3] rA3] eqn:HpA.
  destruct (Statements_parse parse_raw (S (length stB)) (RList l1) false _)
    as [[pB sB3] rB3] eqn:HpB.
  destruct (Statements_parse_spacing l1 Hl _ _ _ _ _ _ _ _ _ _ _ _ Hsw2 Hk HpA HpB)
    as [-> Hsw3].
  destruct rB3 as [[]|e];
    [|injection HA as <- <- <-; injection HB as <- <- <-; auto].
  destruct (same_words_set_block_data _ _ self [length stB; S (length stB)] Hsw3)
    as [Hr Hsw4].
  destruct (set_block_data self _ sA3) as [sA4 rA4].
  destruct (set_block_data self _ sB3) as [sB4 rB4].
  simpl in Hr, Hsw4. injection HA as <- <- <-. injection HB as <- <- <-. auto.
Qed.

Lemma parse_raw_spacing_all (r : raw) : parse_raw_spacing r.
Proof.
  induction r as [r IH] using raw_depth_ind.
  intros ctx stA stB rA stA' resA rB stB' resB Hsw HA HB.
  pose proof (same_words_length _ _ Hsw) as Hlen.
  rewrite parse_raw_eq, choose_parser_first_match in HA, HB.
  destruct (first_match ctx r) as [t|] eqn:Hfm;
    [|injection HA as <- <- <-; injection HB as <- <- <-; auto].
  pose proof (first_match_should_parse _ _ _ Hfm) as Hsp.
  rewrite Hlen in HA.
  set (c := Some (context_in_force ctx)) in *.
  assert (Hsw1 : same_words (stB ++ [new t c]) (stA ++ [new t c]))
    by (apply same_words_snoc; [exact Hsw|apply same_words_obj_refl]).
  assert (HlA : (stA ++ [new t c]) !! length stB = Some (new t c))
    by (rewrite <- Hlen; apply lookup_last_added).
  assert (HlB : (stB ++ [new t c]) !! length stB = Some (new t c))
    by apply lookup_last_added.
  assert (Hm : forall r1 sA2 x1 r2 sB2 x2,
    parse_method parse_raw (length stB) r true (stA ++ [new t c]) = (r1, sA2, x1) ->
    parse_method parse_raw (length stB) r false (stB ++ [new t c]) = (r2, sB2, x2) ->
    x1 = x2 /\ same_words sB2 sA2).
  { unfold parse_method. rewrite HlA, HlB. intros r1 sA2 x1 r2 sB2 x2 HmA HmB.
    destruct t; cbn [new should_parse] in *.
    - apply Block_should_parse_shape in Hsp as (d & l1 & -> & Hd).
      eapply (Block_parse_spacing d l1); [|exact Hd|exact Hsw1|exact HlB|exact HmA|exact HmB].
      apply Forall_forall. intros e He. apply IH.
      apply list_elem_of_In, depth_elem in He.
      pose proof (depth_elem [RList (map RStr d); RList l1] (RList l1)
                    ltac:(simpl; auto)). lia.
    - apply Sentence_should_parse_strings in Hsp as (d & -> & Hd).
      rewrite (Sentence_parse_strings _ _ _ _ _ _ HlA) in HmA.
      rewrite (Sentence_parse_strings _ _ _ _ _ _ HlB) in HmB.
      injection HmA as <- <- <-. injection HmB as <- <- <-.
      split; [reflexivity|]. apply same_words_insert2; [exact Hsw1|].
      simpl. eexists. split; [reflexivity|]. apply words_of_spaced.
    - destruct r as [|l|]; try discriminate Hsp.
      eapply (Statements_parse_spacing l); [|exact Hsw1|exact HlB|exact HmA|exact HmB].
      apply Forall_forall. intros e He. apply IH.
      apply depth_elem, list_elem_of_In; assumption. }
  destruct (parse_method parse_raw (length stB) r true _) as [[r1 sA2] x1].
  destruct (parse_method parse_raw (length stB) r false _) as [[r2 sB2] x2].
  destruct (Hm _ _ _ _ _ _ eq_refl eq_refl) as [-> Hsw2].
  destruct x2; injection HA as <- <- <-; injection HB as <- <- <-; auto.
Qed.

(** X9. [add_spaces] changes whitespace only: parsing the same raw value
    from the same store with and without it gives the same outcome (the same
    node, or the same error), and stores in which every object dumps without
    whitespace alike and has the same words. *)
Theorem add_spaces_changes_whitespace_only (r : raw) ctx (st : store) :
  let '(_, stA, resA) := parse_raw r ctx true st in
  let '(_, stB, resB) := parse_raw r ctx false st in
  resA = resB /\
  (forall fuel (p : loc), dump fuel stA p false = dump fuel stB p false) /\
  (forall p : loc, words stA p = words stB p).
Proof.
  destruct (parse_raw r ctx true st) as [[rA stA] resA] eqn:HA.
  destruct (parse_raw r ctx false st) as [[rB stB] resB] eqn:HB.
  destruct (parse_raw_spacing_all r _ _ _ _ _ _ _ _ _ (same_words_refl st) HA HB)
    as [Hres Hsw].
  split; [exact Hres|]. split.
  - intros fuel p. apply same_words_dump. exact Hsw.
  - apply same_words_words. exact Hsw.
Qed.

(** ** The contexts of a parsed tree; errors; the frame *)

Lemma context_in_force_eq ctx :
  context_in_force ctx = mkContext (parent_of ctx) (Some (hooks_in_force ctx)).
Proof. destruct ctx as [[p [h|]]|]; reflexivity. Qed.

Lemma parse_elems_built (l : list raw) :
  Forall parse_raw_built l ->
  forall (self : loc) b n (st : store) l' st' ds o par hooks,
    st !! self = Some o -> context_of o = Some (mkContext par (Some hooks)) ->
    parse_elems parse_raw self b n l st = (l', st', Ok ds) ->
    forall (st'' : store) m,
      keeps_from (length st) st' st'' ->
      (forall e, In e l -> (depth e <= m)%nat) ->
      Forall (built m st'' hooks (Some self)) ds.
Proof.
  induction 1 as [|elem rest Helem _ IH];
    intros self b n st l' st' ds o par hooks Ho Hc H st'' m Hk Hd.
  - destruct n; simpl in H; injection H as <- <- <-; constructor.
  - destruct n as [|n]; simpl in H; [injection H as <- <- <-; constructor|].
    rewrite (child_context_Some _ _ _ Ho), Hc in H. cbn [parsing_hooks] in H.
    destruct (parse_raw elem _ b st) as [[elem' st1] [x|e]] eqn:Hp;
      [|discriminate H].
    destruct (parse_elems parse_raw self b n rest st1)
      as [[rest' st2] [ds'|e]] eqn:Hr; [|discriminate H].
    injection H as <- <- <-.
    pose proof (parse_raw_basic_all _ _ _ _ _ _ _ Hp) as (Hext & _).
    pose proof (parse_elems_basic rest (all_basic rest) _ _ _ _ _ _ _
      ltac:(exists o; apply Hext, Ho) Hr) as (Hext2 & _).
    constructor.
    + apply (Helem _ _ _ _ _ _ Hp).
      * intros k o' Hle Hk'. apply Hk; [assumption|]. apply Hext2, Hk'.
      * apply Hd. left. reflexivity.
    + eapply IH; [apply Hext, Ho|exact Hc|exact Hr| |].
      * eapply keeps_from_weaken; [|exact Hk]. apply extends_length, Hext.
      * intros e He. apply Hd. right. exact He.
Qed.

Lemma Statements_parse_built (l : list raw) :
  Forall parse_raw_built l ->
  forall (self : loc) b (st : store) par hooks d0 tw0 r' st',
    st !! self = Some (Statements (Some (mkContext par (Some hooks))) d0 tw0) ->
    Statements_parse parse_raw self (RList l) b st = (r', st', Ok tt) ->
    forall (st'' : store) n,
      keeps_from (length st) st' st'' ->
      (forall o, st' !! self = Some o -> st'' !! self = Some o) ->
      (depth (RList l) <= n)%nat ->
      built n st'' hooks par self.
Proof.
  intros Hl self b st par hooks d0 tw0 r' st' Hs H st'' n Hk Hself Hd.
  assert (Hlt : (self < length st)%nat) by (eapply lookup_lt_Some; eauto).
  rewrite (Statements_parse_eq _ _ _ _ _ _ _ _ Hs) in H.
  match type of H with context [parse_elems _ _ _ ?n _ ?s1] =>
    set (st1 := s1) in *; set (n0 := n) in *
  end.
  destruct (parse_elems parse_raw self b n0 l st1)
    as [[l' st2] [ds|e]] eqn:Hp; [|discriminate H].
  assert (Hs1 : exists tw,
    st1 !! self = Some (Statements (Some (mkContext par (Some hooks))) d0 tw))
    by (eexists; apply list_lookup_insert_eq; assumption).
  destruct Hs1 as (tw & Hs1).
  pose proof (parse_elems_basic l (all_basic l) _ _ _ _ _ _ _
                ltac:(eauto) Hp) as (Hext & _).
  unfold set_statements_data in H. rewrite (Hext _ _ Hs1) in H.
  injection H as <- <-.
  destruct n as [|n]; [simpl in Hd; lia|].
  cbn [built].
  rewrite (Hself (Statements (Some (mkContext par (Some hooks))) ds tw)); cycle 1.
  { apply list_lookup_insert_eq. apply lookup_lt_Some in Hs1.
    apply extends_length in Hext. lia. }
  split; [reflexivity|].
  eapply (parse_elems_built l Hl); [exact Hs1|reflexivity|exact Hp| |].
  - subst st1. rewrite length_insert. intros k o Hle Hko. apply Hk; [assumption|].
    rewrite list_lookup_insert_ne by lia. exact Hko.
  - intros e He. apply depth_elem in He. lia.
Qed.

Lemma Block_parse_built (l1 : list raw) :
  Forall parse_raw_built l1 ->
  forall (self : loc) (d : list string) b (st : store) par hooks d0 n0 k0 r' st',
    st !! self = Some (Block (Some (mkContext par (Some hooks))) d0 n0 k0) ->
    d <> [] ->
    Block_parse parse_raw self (RList [RList (map RStr d); RList l1]) b st
    = (r', st', Ok tt) ->
    forall (st'' : store) n,
      keeps_from (length st) st' st'' ->
      (forall o, st' !! self = Some o -> st'' !! self = Some o) ->
      (depth (RList [RList (map RStr d); RList l1]) <= n)%nat ->
      built n st'' hooks par self.
Proof.
  intros Hl self d b st par hooks d0 n0 k0 r' st' Hs Hne H st'' n Hk Hself Hd.
  assert (Hlt : (self < length st)%nat) by (eapply lookup_lt_Some; eauto).
  rewrite (Block_parse_eq _ _ _ _ _ _ _ _ _ _ Hs Hne) in H.
  cbn [parsing_hooks] in H.
  set (c := Some (mkContext par (Some hooks))) in *.
  set (cc := Some (mkContext (Some self) (Some hooks))) in *.
  match type of H with context [Statements_parse _ ?k _ _ ?s2] =>
    set (st2 := s2) in *; set (contents := k) in *
  end.
  destruct (Statements_parse parse_raw contents (RList l1) b st2)
    as [[p1' st3] [[]|e]] eqn:Hp; [|discriminate H].
  assert (Hlen2 : length st2 = S (S (length st))).
  { subst st2. rewrite length_app, length_insert. simpl. lia. }
  assert (Hs2 : st2 !! self = Some (Block c d0 (Some (length st)) (Some contents))).
  { subst st2. rewrite lookup_app_l by (rewrite length_insert; lia).
    apply list_lookup_insert_eq; assumption. }
  assert (Hn2 : exists dn, st2 !! length st = Some (Sentence cc dn)).
  { subst st2. rewrite lookup_app_r; rewrite length_insert; [|lia].
    rewrite Nat.sub_diag. eexists. reflexivity. }
  assert (Hc2 : st2 !! contents = Some (Statements cc [] None)).
  { subst st2 contents. rewrite lookup_app_r; rewrite length_insert; [|lia].
    replace (S (length st) - length st)%nat with 1%nat by lia. reflexivity. }
  destruct Hn2 as (dn & Hn2).
  pose proof (Statements_parse_basic l1 (all_basic l1) _ _ _ _ _ _ _
                Hc2 eq_refl Hp) as (Hev & _).
  destruct (Hev _ _ Hs2) as (o3 & Ho3 & _ & _ & He3).
  rewrite He3 in Ho3 by (subst contents; lia). clear He3 o3.
  destruct (Hev _ _ Hn2) as (o3 & Hn3 & _ & _ & He3).
  rewrite He3 in Hn3 by (subst contents; lia). clear He3 o3.
  destruct (Hev _ _ Hc2) as (o3 & Hc3 & Hcl3 & Hcx3 & _).
  unfold set_block_data in H. rewrite Ho3 in H. injection H as <- <-.
  assert (Hk3 : keeps_from (length st) st3 st'').
  { intros k o Hle Hko. apply Hk; [assumption|].
    rewrite list_lookup_insert_ne by lia. exact Hko. }
  destruct n as [|n]; [simpl in Hd; lia|].
  cbn [built].
  rewrite (Hself (Block c [length st; contents] (Some (length st)) (Some contents)));
    cycle 1.
  { apply list_lookup_insert_eq. eapply lookup_lt_Some; exact Ho3. }
  split; [reflexivity|]. split; [reflexivity|]. split; [|split].
  - exists dn. apply Hk3; [lia|exact Hn3].
  - destruct o3 as [|ck dk twk|]; try discriminate Hcl3.
    simpl in Hcx3. subst ck.
    exists dk, twk. apply Hk3; [subst contents; lia|exact Hc3].
  - eapply (Statements_parse_built l1 Hl _ _ _ _ _ _ _ _ _ Hc2 Hp).
    + eapply keeps_from_weaken; [|exact Hk3]. lia.
    + intros o Ho. apply Hk3; [subst contents; lia|exact Ho].
    + simpl in Hd |- *. lia.
Qed.

Lemma parse_raw_built_all (r : raw) : parse_raw_built r.
Proof.
  induction r as [r IH] using raw_depth_ind.
  intros ctx b st r' st' p H st'' n Hk Hd.
  pose proof (parse_raw_basic_all _ _ _ _ _ _ _ H) as (_ & _ & Hp & _).
  specialize (Hp _ eq_refl). subst p.
  rewrite parse_raw_eq, choose_parser_first_match in H.
  destruct (first_match ctx r) as [t|] eqn:Hfm; [|discriminate H].
  pose proof (first_match_should_parse _ _ _ Hfm) as Hsp.
  rewrite context_in_force_eq in H.
  set (c := Some (mkContext (parent_of ctx) (Some (hooks_in_force ctx)))) in *.
  assert (Hnew : (st ++ [new t c]) !! length st = Some (new t c)).
  { rewrite lookup_app_r by lia. rewrite Nat.sub_diag. reflexivity. }
  destruct (parse_method parse_raw (length st) r b (st ++ [new t c]))
    as [[r1 st1] [[]|e]] eqn:Hm; [|discriminate H].
  injection H as <- <-.
  assert (Hself : forall o, st1 !! length st = Some o -> st'' !! length st = Some o).
  { intros o Ho. apply Hk; [lia|exact Ho]. }
  assert (Hk1 : keeps_from (length (st ++ [new t c])) st1 st'').
  { eapply keeps_from_weaken; [|exact Hk]. rewrite length_app. lia. }
  unfold parse_method in Hm. rewrite Hnew in Hm.
  destruct t; cbn [should_parse new] in Hsp, Hm, Hnew.
  - apply Block_should_parse_shape in Hsp as (d & l1 & -> & Hne).
    eapply (Block_parse_built l1); [|exact Hnew|exact Hne|exact Hm| | |];
      try assumption.
    apply Forall_forall. intros e He. apply IH.
    apply list_elem_of_In, depth_elem in He.
    pose proof (depth_elem [RList (map RStr d); RList l1] (RList l1)
                  ltac:(simpl; auto)). lia.
  - apply Sentence_should_parse_strings in Hsp as (d & -> & Hne).
    rewrite (Sentence_parse_strings _ _ _ _ _ _ Hnew) in Hm.
    injection Hm as <- <-.
    destruct n as [|n]; [simpl in Hd; lia|].
    cbn [built].
    rewrite (Hself (Sentence c (if b then spaced_spec d else d))); [reflexivity|].
    apply list_lookup_insert_eq. rewrite length_app. simpl. lia.
  - destruct r as [|l|]; try discriminate.
    eapply (Statements_parse_built l); [|exact Hnew|exact Hm| | |];
      try assumption.
    apply Forall_forall. intros e He. apply IH.
    apply depth_elem, list_elem_of_In; assumption.
Qed.

(** X10. Contexts of a parsed tree: every object [parse_raw] makes carries
    the hooks the call dispatched with, and as parent the object that holds
    it: the [Statements] for each of its statements, the [Block] for its
    names and its contents; the node returned has the parent of the context
    given.  The data of a [Block] are its names and its contents. *)
Theorem parse_raw_sets_parents (r : raw) ctx b (st : store) r' st' p :
  parse_raw r ctx b st = (r', st', Ok p) ->
  built (depth r) st' (hooks_in_force ctx) (parent_of ctx) p.
Proof.
  intros H. eapply parse_raw_built_all; [exact H| |apply le_n].
  intros k o _ Hk. exact Hk.
Qed.

Lemma parse_raw_sets_parents_witness :
  built 3 ex_store DEFAULT_PARSING_HOOKS None 0%nat.
Proof.
  apply (parse_raw_sets_parents ex_block None false [] ex_block ex_store 0%nat).
  vm_compute. reflexivity.
Defined.

(** X6. The accesses of the parsers are guarded: [parse_raw] raises no
    [IndexError], no [AttributeError] and no [TypeError], whatever the raw
    value, the context, the flag and the store.  The first element of a
    block, the last element of a list of statements, the [isspace] of a
    token and the hooks of the context are there whenever they are read.
    (Running out of stack on deeply nested input is the interpreter's
    matter and not part of this statement.) *)
Theorem parse_raw_accesses_guarded (r : raw) ctx b (st : store) :
  snd (parse_raw r ctx b st) <> Raise IndexError /\
  snd (parse_raw r ctx b st) <> Raise AttributeError /\
  snd (parse_raw r ctx b st) <> Raise TypeError.
Proof.
  destruct (parse_raw r ctx b st) as [[r' st'] [p|e]] eqn:H; cbn [snd].
  - repeat split; discriminate.
  - pose proof (parse_raw_basic_all _ _ _ _ _ _ _ H) as (_ & He & _).
    rewrite (He e eq_refl). repeat split; discriminate.
Qed.

(** X7. Without [add_spaces], and with no context or a context that has its
    hooks, [parse_raw] touches nothing that was there before the call, the
    parent its context names included: the caller's raw value is as it
    was, no object of the store has changed, objects are only added, and
    the node returned is the first one added.  (A context without hooks is
    completed in place, and with [add_spaces] the names of a block are
    appended to: an object sharing that context or that list would see
    it, so neither case is part of this statement.) *)
Theorem parse_raw_frame (r : raw) ctx (st : store) r' st' res :
  match ctx with Some c => parsing_hooks c <> None | None => True end ->
  parse_raw r ctx false st = (r', st', res) ->
  r' = r /\
  (forall (k : loc) o, st !! k = Some o -> st' !! k = Some o) /\
  (length st <= length st')%nat /\
  (forall p, res = Ok p -> p = length st /\ (length st < length st')%nat).
Proof.
  intros _ H.
  pose proof (parse_raw_basic_all _ _ _ _ _ _ _ H) as (Hext & _ & Hp & Hfm).
  split; [eapply parse_raw_pure_all; exact H|].
  split; [exact Hext|]. split; [apply extends_length, Hext|].
  intros p ->. split; [apply Hp; reflexivity|].
  destruct (first_match ctx r); [|destruct Hfm; discriminate].
  destruct Hfm as (o & Ho & _). eapply lookup_lt_Some; exact Ho.
Qed.

Lemma parse_raw_frame_witness :
  exists st',
    parse_raw ex_plain_block
      (Some (mkContext (Some 2%nat) (Some DEFAULT_PARSING_HOOKS))) false ex_store
    = (ex_plain_block, st', Ok 4%nat) /\
    (forall (k : loc) o, ex_store !! k = Some o -> st' !! k = Some o).
Proof.
  set (c := Some (mkContext (Some 2%nat) (Some DEFAULT_PARSING_HOOKS))).
  set (P := parse_raw ex_plain_block c false ex_store).
  exists (snd (fst P)).
  split; [vm_compute; reflexivity|].
  apply (parse_raw_frame ex_plain_block c ex_store (fst (fst P)) (snd (fst P)) (snd P)).
  - simpl. discriminate.
  - vm_compute. reflexivity.
Defined.

(** ** Dumping without whitespace *)

Lemma map_first_take (f : raw -> raw) n (l : list raw) :
  map_first f n l = map f (take n l).
Proof.
  revert n. induction l as [|e l IH]; intros [|n]; simpl; try reflexivity.
  rewrite IH. reflexivity.
Qed.

Lemma texts_RStr (d : list string) : texts (map RStr d) = d.
Proof. induction d as [|s d IH]; simpl; [|rewrite IH]; reflexivity. Qed.

Lemma bare_eq hooks (l : list raw) :
  bare hooks (RList l) =
  match find (fun type_ => should_parse type_ (RList l)) hooks with
  | Some Sentence_t => RList (map RStr (words_of (texts l)))
  | Some Statements_t => RList (map (bare hooks) (take (statements_count l) l))
  | Some Block_t =>
      match l with
      | RList names :: RList body :: _ =>
          RList [RList (map RStr (words_of (texts names)));
                 RList (map (bare hooks) (take (statements_count body) body))]
      | _ => RList l
      end
  | None => RList l
  end.
Proof.
  cbn [bare]. destruct (find _ hooks) as [[| |]|]; try reflexivity.
  - destruct l as [|[|names|] [|[|body|] rest]]; try reflexivity.
    rewrite map_first_take. reflexivity.
  - rewrite map_first_take. reflexivity.
Qed.

Lemma parse_elems_bare (l : list raw) :
  Forall parse_raw_bare l ->
  forall (self : loc) b n (st : store) l' st' ds o,
    st !! self = Some o ->
    parse_elems parse_raw self b n l st = (l', st', Ok ds) ->
    forall (st'' : store) fuel,
      keeps_from (length st) st' st'' ->
      (forall e, In e (take n l) -> (depth e <= fuel)%nat) ->
      res_all (fun x => dump fuel st'' x false) ds
      = Ok (map (bare (hooks_in_force (context_of o))) (take n l)).
Proof.
  induction 1 as [|elem rest Helem _ IH];
    intros self b n st l' st' ds o Ho H st'' fuel Hk Hd.
  - destruct n; simpl in H; injection H as <- <- <-; reflexivity.
  - destruct n as [|n]; simpl in H; [injection H as <- <- <-; reflexivity|].
    rewrite (child_context_Some _ _ _ Ho) in H.
    destruct (parse_raw elem _ b st) as [[elem' st1] [x|e]] eqn:Hp;
      [|discriminate].
    destruct (parse_elems parse_raw self b n rest st1)
      as [[rest' st2] [ds'|e]] eqn:Hr; [|discriminate].
    injection H as <- <- <-.
    pose proof (parse_raw_basic_all _ _ _ _ _ _ _ Hp) as (Hext & _).
    pose proof (parse_elems_basic rest (all_basic rest) _ _ _ _ _ _ _
      ltac:(exists o; apply Hext, Ho) Hr) as (Hext2 & _).
    simpl take. simpl res_all.
    erewrite (Helem _ _ _ _ _ _ Hp); cycle 1.
    { intros k o' Hle Hk'. apply Hk; [assumption|]. apply Hext2, Hk'. }
    { apply Hd. left. reflexivity. }
    rewrite hooks_of_child.
    simpl. erewrite IH; [reflexivity|apply Hext, Ho|exact Hr| |].
    + eapply keeps_from_weaken; [|exact Hk]. apply extends_length, Hext.
    + intros e He. apply Hd. right. exact He.
Qed.

Lemma Statements_parse_bare (l : list raw) :
  Forall parse_raw_bare l ->
  forall (self : loc) b (st : store) c d0 tw0 r' st',
    st !! self = Some (Statements c d0 tw0) ->
    Statements_parse parse_raw self (RList l) b st = (r', st', Ok tt) ->
    forall (st'' : store) fuel,
      keeps_from (length st) st' st'' ->
      (forall o, st' !! self = Some o -> st'' !! self = Some o) ->
      (depth (RList l) <= fuel)%nat ->
      dump fuel st'' self false
      = Ok (RList (map (bare (hooks_in_force c)) (take (statements_count l) l))).
Proof.
  intros Hl self b st c d0 tw0 r' st' Hs H st'' fuel Hk Hself Hd.
  assert (Hlt : (self < length st)%nat) by (eapply lookup_lt_Some; eauto).
  rewrite (Statements_parse_eq _ _ _ _ _ _ _ _ Hs) in H.
  fold (statements_count l) in H.
  match type of H with context [parse_elems _ _ _ _ _ ?s1] =>
    set (st1 := s1) in *
  end.
  destruct (parse_elems parse_raw self b (statements_count l) l st1)
    as [[l' st2] [ds|e]] eqn:Hp; [|discriminate H].
  assert (Hs1 : exists tw, st1 !! self = Some (Statements c d0 tw))
    by (eexists; apply list_lookup_insert_eq; assumption).
  destruct Hs1 as (tw & Hs1).
  pose proof (parse_elems_basic l (all_basic l) _ _ _ _ _ _ _
                ltac:(eauto) Hp) as (Hext & _).
  unfold set_statements_data in H. rewrite (Hext _ _ Hs1) in H.
  injection H as <- <-.
  destruct fuel as [|fuel]; [simpl in Hd; lia|].
  rewrite dump_S. unfold get_obj.
  rewrite (Hself (Statements c ds tw)); cycle 1.
  { apply list_lookup_insert_eq. apply lookup_lt_Some in Hs1.
    apply extends_length in Hext. lia. }
  simpl res_bind.
  erewrite (parse_elems_bare l Hl); [|exact Hs1|exact Hp| |]; cycle 1.
  { subst st1. rewrite length_insert. intros k o Hle Hko. apply Hk; [assumption|].
    rewrite list_lookup_insert_ne by lia. exact Hko. }
  { intros e He. eapply depth_take; eauto. }
  simpl. destruct tw; reflexivity.
Qed.

Lemma Block_parse_bare (l1 : list raw) :
  Forall parse_raw_bare l1 ->
  forall (self : loc) (d : list string) b (st : store) c d0 n0 k0 r' st',
    st !! self = Some (Block c d0 n0 k0) -> d <> [] ->
    Block_parse parse_raw self (RList [RList (map RStr d); RList l1]) b st
    = (r', st', Ok tt) ->
    forall (st'' : store) fuel,
      keeps_from (length st) st' st'' ->
      (forall o, st' !! self = Some o -> st'' !! self = Some o) ->
      (depth (RList [RList (map RStr d); RList l1]) <= fuel)%nat ->
      dump fuel st'' self false
      = Ok (RList [RList (map RStr (words_of d));
                   RList (map (bare (hooks_in_force c))
                            (take (statements_count l1) l1))]).
Proof.
  intros Hl self d b st c d0 n0 k0 r' st' Hs Hne H st'' fuel Hk Hself Hd.
  assert (Hlt : (self < length st)%nat) by (eapply lookup_lt_Some; eauto).
  rewrite (Block_parse_eq _ _ _ _ _ _ _ _ _ _ Hs Hne) in H.
  match type of H with context [Statements_parse _ ?k _ _ ?s2] =>
    set (st2 := s2) in *; set (contents := k) in *
  end.
  destruct (Statements_parse parse_raw contents (RList l1) b st2)
    as [[p1' st3] [[]|e]] eqn:Hp; [|discriminate H].
  assert (Hlen2 : length st2 = S (S (length st))).
  { subst st2. rewrite length_app, length_insert. simpl. lia. }
  assert (Hs2 : st2 !! self = Some (Block c d0 (Some (length st)) (Some contents))).
  { subst st2. rewrite lookup_app_l by (rewrite length_insert; lia).
    apply list_lookup_insert_eq; assumption. }
  assert (Hn2 : exists cx dn, st2 !! length st = Some (Sentence cx dn) /\
                              words_of dn = words_of d).
  { subst st2. rewrite lookup_app_r; rewrite length_insert; [|lia].
    rewrite Nat.sub_diag. do 2 eexists. split; [reflexivity|].
    destruct b; [|reflexivity].
    rewrite words_of_spaced. apply words_of_app_space. }
  set (cc := Some (mkContext (Some self)
                (match c with Some c => parsing_hooks c | None => None end))) in *.
  assert (Hc2 : st2 !! contents = Some (Statements cc [] None)).
  { subst st2 contents. rewrite lookup_app_r; rewrite length_insert; [|lia].
    replace (S (length st) - length st)%nat with 1%nat by lia. reflexivity. }
  destruct Hn2 as (cxn & dn & Hn2 & Hdn).
  pose proof (Statements_parse_basic l1 (all_basic l1) _ _ _ _ _ _ _
                Hc2 eq_refl Hp) as (Hev & _).
  destruct (Hev _ _ Hs2) as (o3 & Ho3 & _ & _ & He3).
  rewrite He3 in Ho3 by (subst contents; lia). clear He3 o3.
  destruct (Hev _ _ Hn2) as (o3 & Hn3 & _ & _ & He3).
  rewrite He3 in Hn3 by (subst contents; lia). clear He3 o3.
  unfold set_block_data in H. rewrite Ho3 in H. injection H as <- <-.
  assert (Hk3 : keeps_from (length st) st3 st'').
  { intros k o Hle Hko. apply Hk; [assumption|].
    rewrite list_lookup_insert_ne by lia. exact Hko. }
  destruct fuel as [|fuel]; [simpl in Hd; lia|].
  rewrite dump_S. unfold get_obj.
  rewrite (Hself (Block c [length st; contents] (Some (length st)) (Some contents)));
    cycle 1.
  { apply list_lookup_insert_eq. eapply lookup_lt_Some; exact Ho3. }
  simpl res_bind.
  assert (Hd1 : (depth (RList l1) <= fuel)%nat).
  { simpl in Hd |- *. lia. }
  destruct fuel as [|fuel]; [simpl in Hd1; lia|].
  cbn [res_all]. rewrite (dump_S _ _ (length st)). unfold get_obj at 1.
  rewrite (Hk3 (length st) _ (le_n _) Hn3). cbn [res_bind negb]. rewrite Hdn.
  erewrite (Statements_parse_bare l1 Hl _ _ _ _ _ _ _ _ Hc2 Hp); cycle 1.
  { eapply keeps_from_weaken; [|exact Hk3]. lia. }
  { intros o Ho. apply Hk3; [subst contents; lia|exact Ho]. }
  { exact Hd1. }
  subst cc. rewrite hooks_of_child. reflexivity.
Qed.

Lemma parse_raw_bare_all (r : raw) : parse_raw_bare r.
Proof.
  induction r as [r IH] using raw_depth_ind.
  intros ctx b st r' st' p H st'' fuel Hk Hd.
  pose proof (parse_raw_basic_all _ _ _ _ _ _ _ H) as (_ & _ & Hp & _).
  specialize (Hp _ eq_refl). subst p.
  rewrite parse_raw_eq, choose_parser_first_match in H.
  destruct (first_match ctx r) as [t|] eqn:Hfm; [|discriminate H].
  pose proof (first_match_should_parse _ _ _ Hfm) as Hsp.
  unfold first_match in Hfm.
  set (c := Some (context_in_force ctx)) in *.
  assert (Hc : hooks_in_force c = hooks_in_force ctx)
    by apply hooks_context_in_force.
  assert (Hnew : (st ++ [new t c]) !! length st = Some (new t c)).
  { rewrite lookup_app_r by lia. rewrite Nat.sub_diag. reflexivity. }
  destruct (parse_method parse_raw (length st) r b (st ++ [new t c]))
    as [[r1 st1] [[]|e]] eqn:Hm; [|discriminate H].
  injection H as <- <-.
  assert (Hself : forall o, st1 !! length st = Some o -> st'' !! length st = Some o).
  { intros o Ho. apply Hk; [lia|exact Ho]. }
  assert (Hk1 : keeps_from (length (st ++ [new t c])) st1 st'').
  { eapply keeps_from_weaken; [|exact Hk]. rewrite length_app. lia. }
  unfold parse_method in Hm. rewrite Hnew in Hm.
  destruct t; cbn [should_parse new] in Hsp, Hm, Hnew.
  - apply Block_should_parse_shape in Hsp as (d & l1 & -> & Hne).
    rewrite bare_eq, Hfm, texts_RStr, <- Hc.
    eapply (Block_parse_bare l1); [|exact Hnew|exact Hne|exact Hm| | |];
      try assumption.
    apply Forall_forall. intros e He. apply IH.
    apply list_elem_of_In, depth_elem in He.
    pose proof (depth_elem [RList (map RStr d); RList l1] (RList l1)
                  ltac:(simpl; auto)). lia.
  - apply Sentence_should_parse_strings in Hsp as (d & -> & Hne).
    rewrite (Sentence_parse_strings _ _ _ _ _ _ Hnew) in Hm.
    injection Hm as <- <-.
    rewrite bare_eq, Hfm, texts_RStr.
    destruct fuel as [|fuel]; [simpl in Hd; lia|].
    rewrite dump_S. unfold get_obj.
    rewrite (Hself (Sentence c (if b then spaced_spec d else d))).
    + cbn [res_bind negb]. destruct b; [rewrite words_of_spaced|]; reflexivity.
    + apply list_lookup_insert_eq. rewrite length_app. simpl. lia.
  - destruct r as [|l|]; try discriminate.
    rewrite bare_eq, Hfm, <- Hc.
    eapply (Statements_parse_bare l); [|exact Hnew|exact Hm| | |];
      try assumption.
    apply Forall_forall. intros e He. apply IH.
    apply depth_elem, list_elem_of_In; assumption.
Qed.

(** X12. Dumping a parsed node without whitespace gives the raw value laid
    bare, with or without [add_spaces]: each sentence reduced to its words,
    each list of statements without its trailing whitespace, each block as
    its names and its body, by first-match dispatch over the hooks of the
    context. *)
Theorem dump_without_spaces (r : raw) ctx b (st : store) r' st' p fuel :
  parse_raw r ctx b st = (r', st', Ok p) -> (depth r <= fuel)%nat ->
  dump fuel st' p false = Ok (bare (hooks_in_force ctx) r).
Proof.
  intros H Hd. eapply parse_raw_bare_all; [exact H| |exact Hd].
  intros k o _ Hk. exact Hk.
Qed.

Lemma dump_without_spaces_witness :
  dump 3 (snd (fst (parse_raw ex_block None true []))) 0%nat false
  = Ok (RList [RList [RStr "server"];
               RList [RList [RStr "listen"; RStr "80"; RStr ";"]]]).
Proof.
  set (P := parse_raw ex_block None true []).
  apply (dump_without_spaces ex_block None true [] (fst (fst P)) (snd (fst P)) 0%nat 3).
  - vm_compute. reflexivity.
  - vm_compute. lia.
Defined.

(** ** Sentences under [Statements.set_tabs] *)




(** ** What [iterate] yields satisfies the predicate *)

Lemma iterate_accepted fuel :
  forall (st : store) (self : loc) expanded (f : store -> loc -> bool) out,
    iterate fuel st self expanded (Some f) = Ok out ->
    Forall (fun x => f st x = true) out.
Proof.
  induction fuel as [|fuel IH]; intros st self expanded f out H;
    [discriminate H|].
  rewrite iterate_S in H. unfold get_obj in H.
  destruct (st !! self) as [o|] eqn:Hs; [|discriminate H]. simpl in H.
  assert (Hown : Forall (fun x => f st x = true) (if f st self then [self] else [])).
  { destruct (f st self) eqn:E; constructor; [exact E|constructor]. }
  destruct o as [c d|c d tw|c d n k].
  - injection H as <-. exact Hown.
  - destruct (res_all _ d) as [outs|] eqn:Hall; simpl in H; [|discriminate H].
    injection H as <-. apply Forall_concat.
    eapply res_all_Forall; [|exact Hall]. intros x y Hx. eapply IH; exact Hx.
  - destruct expanded.
    + destruct k as [k|]; [|discriminate H].
      destruct (iterate fuel st k true (Some f)) as [rest|] eqn:Hk; simpl in H;
        [|discriminate H].
      injection H as <-. apply Forall_app. split; [exact Hown|].
      eapply IH; exact Hk.
    + injection H as <-. exact Hown.
Qed.

(** * The statements of the specification *)

(** C1. Round trip.  Whenever [parse_raw], without spacing synthesis, returns
    a node for [r], it leaves [r] as it was and the node dumps, whitespace
    included, to [r] (in the store the parse left, nothing having changed it
    since); the recursion [dump] needs is the depth of [r].  Under the default
    hooks the raw values for which a node is returned are exactly the
    well-formed ones, so for every well-formed [r] parsing and dumping gives
    [r] back. *)
Theorem round_trip (r : raw) ctx (st : store) :
  (forall r' st' p,
     parse_raw r ctx false st = (r', st', Ok p) ->
     r' = r /\
     forall fuel, (depth r <= fuel)%nat -> dump fuel st' p true = Ok r) /\
  (hooks_in_force ctx = DEFAULT_PARSING_HOOKS -> well_formed r = true ->
   exists st' p,
     parse_raw r ctx false st = (r, st', Ok p) /\
     dump (depth r) st' p true = Ok r) /\
  (hooks_in_force ctx = DEFAULT_PARSING_HOOKS -> well_formed r = false ->
   exists r' st',
     parse_raw r ctx false st = (r', st', Raise MisconfigurationError)).
Proof.
  assert (Hrt : forall r' st' p,
    parse_raw r ctx false st = (r', st', Ok p) ->
    r' = r /\
    forall fuel, (depth r <= fuel)%nat -> dump fuel st' p true = Ok r).
  { intros r' st' p H. split; [eapply parse_raw_pure_all; exact H|].
    intros fuel Hd. eapply parse_raw_roundtrip_all; [exact H| |exact Hd].
    intros k o _ Hk. exact Hk. }
  split; [exact Hrt|]. split.
  - intros Hh Hwf.
    destruct (parse_raw r ctx false st) as [[r' st'] res] eqn:H.
    pose proof (parse_raw_decided_all _ _ _ _ _ _ _ Hh H) as Hd.
    rewrite Hwf in Hd. destruct res as [p|e]; [|discriminate Hd].
    destruct (Hrt _ _ _ eq_refl) as [-> Hdump].
    exists st', p. split; [reflexivity|]. apply Hdump, le_n.
  - intros Hh Hwf.
    destruct (parse_raw r ctx false st) as [[r' st'] res] eqn:H.
    pose proof (parse_raw_decided_all _ _ _ _ _ _ _ Hh H) as Hd.
    rewrite Hwf in Hd. destruct res as [p|e]; [discriminate Hd|].
    pose proof (parse_raw_basic_all _ _ _ _ _ _ _ H) as (_ & Herr & _).
    rewrite (Herr e eq_refl). eauto.
Qed.

Lemma round_trip_witness :
  exists st' p,
    parse_raw ex_block None false [] = (ex_block, st', Ok p) /\
    dump (depth ex_block) st' p true = Ok ex_block.
Proof.
  destruct (round_trip ex_block None []) as (_ & H & _).
  apply H; reflexivity.
Defined.

(** C2. Dispatch is first match wins: [_choose_parser] makes an object of the
    first hook, in the order of the context, whose [should_parse] accepts the
    raw value; what [parse_raw] returns is an object of that class; and for a
    raw value that both [Block] and [Statements] accept, the default order
    makes a [Block], never a [Statements].  The object made is then parsed:
    [parse_raw] is the [parse] method of the chosen class run on the new
    object with the raw value, its errors passed on; a raw value dispatched
    to [Sentence] leaves a sentence holding its tokens; and whatever node is
    returned dumps, without whitespace, to the raw value laid bare and, when
    no spacing was added, with whitespace to the raw value itself. *)
Theorem dispatch_first_match :
  (forall (c : ParseContext) hooks (r : raw) (st : store),
     parsing_hooks c = Some hooks ->
     _choose_parser c r st =
     match find (fun type_ => should_parse type_ r) hooks with
     | Some t => (st ++ [new t (Some c)], Ok (length st))
     | None => (st, Raise MisconfigurationError)
     end) /\
  (forall (r : raw) ctx b (st : store) r' st' p,
     parse_raw r ctx b st = (r', st', Ok p) ->
     exists t o, first_match ctx r = Some t /\
                 st' !! p = Some o /\ class_of o = t) /\
  (forall (r : raw) ctx b (st : store) r' st' res,
     Block_should_parse r = true -> Statements_should_parse r = true ->
     hooks_in_force ctx = DEFAULT_PARSING_HOOKS ->
     parse_raw r ctx b st = (r', st', res) ->
     (exists o, st' !! (length st) = Some o /\ class_of o = Block_t) /\
     (forall p, res = Ok p ->
        exists o, st' !! p = Some o /\ class_of o = Block_t /\
                  class_of o <> Statements_t)) /\
  (forall (r : raw) ctx b (st : store),
     parse_raw r ctx b st =
     match first_match ctx r with
     | None => (r, st, Raise MisconfigurationError)
     | Some t =>
         match parse_method parse_raw (length st) r b
                 (st ++ [new t (Some (context_in_force ctx))]) with
         | (r', st2, Raise e) => (r', st2, Raise e)
         | (r', st2, Ok _) => (r', st2, Ok (length st))
         end
     end) /\
  (forall (d : list string) ctx b (st : store),
     first_match ctx (RList (map RStr d)) = Some Sentence_t ->
     parse_raw (RList (map RStr d)) ctx b st =
     (RList (map RStr d),
      st ++ [Sentence (Some (context_in_force ctx))
               (if b then spaced_spec d else d)],
      Ok (length st))) /\
  (forall (r : raw) ctx b (st : store) r' st' p,
     parse_raw r ctx b st = (r', st', Ok p) ->
     dump (depth r) st' p false = Ok (bare (hooks_in_force ctx) r) /\
     (b = false -> dump (depth r) st' p true = Ok r)).
Proof.
  split; [|split; [|split; [|split; [|split]]]].
  - intros c hooks r st Hh. unfold _choose_parser. rewrite Hh.
    apply choose_parser_loop_find.
  - intros r ctx b st r' st' p H.
    pose proof (parse_raw_basic_all _ _ _ _ _ _ _ H) as (_ & _ & Hp & Hfm).
    rewrite (Hp _ eq_refl).
    destruct (first_match ctx r) as [t|]; [|destruct Hfm; discriminate].
    destruct Hfm as (o & Ho & Hc & _). eauto.
  - intros r ctx b st r' st' res Hb _ Hh H.
    pose proof (parse_raw_basic_all _ _ _ _ _ _ _ H) as (_ & _ & Hp & Hfm).
    assert (Hf : first_match ctx r = Some Block_t).
    { unfold first_match. rewrite Hh. simpl. rewrite Hb. reflexivity. }
    rewrite Hf in Hfm. destruct Hfm as (o & Ho & Hc & _).
    split; [eauto|]. intros p ->. rewrite (Hp _ eq_refl).
    exists o. rewrite Hc. repeat split; auto; discriminate.
  - intros r ctx b st. rewrite parse_raw_eq, choose_parser_first_match.
    destruct (first_match ctx r); reflexivity.
  - intros d ctx b st Hfm.
    rewrite parse_raw_eq, choose_parser_first_match, Hfm.
    unfold parse_method. cbn [new]. rewrite lookup_last_added.
    erewrite Sentence_parse_strings by apply lookup_last_added.
    rewrite insert_app_r_alt by lia. rewrite Nat.sub_diag. reflexivity.
  - intros r ctx b st r' st' p H. split.
    + eapply parse_raw_bare_all; [exact H| |apply le_n].
      intros k o _ Hk. exact Hk.
    + intros ->. eapply parse_raw_roundtrip_all; [exact H| |apply le_n].
      intros k o _ Hk. exact Hk.
Qed.

Lemma dispatch_first_match_witness :
  (exists o, ex_store !! 0%nat = Some o /\
             class_of o = Block_t /\ class_of o <> Statements_t) /\
  dump 3 ex_store 0%nat false
  = Ok (RList [RList [RStr "server"];
               RList [RList [RStr "listen"; RStr "80"; RStr ";"]]]) /\
  dump 3 ex_store 0%nat true = Ok ex_block.
Proof.
  destruct dispatch_first_match as (_ & _ & H & _ & _ & Hd).
  assert (Hp : parse_raw ex_block None false [] = (ex_block, ex_store, Ok 0%nat))
    by (vm_compute; reflexivity).
  split.
  - destruct (H ex_block None false [] ex_block ex_store (Ok 0%nat)
                eq_refl eq_refl eq_refl Hp) as [_ Hres].
    exact (Hres _ eq_refl).
  - destruct (Hd ex_block None false [] ex_block ex_store 0%nat Hp) as [Hb Ht].
    split; [exact Hb|exact (Ht eq_refl)].
Defined.

(** C3. A list with an element that is neither a string nor a list does not
    parse: [parse_raw] raises [MisconfigurationError] and returns no node.
    For the list of "foo" and 42: [Sentence] and [Block] reject it,
    [Statements] accepts it, and no hook accepts the element 42 (nor, for
    that matter, the element "foo", which is dispatched first). *)
Theorem non_token_element_fails :
  (forall (l : list raw) (z : Z) ctx b (st : store),
     In (RInt z) l ->
     exists r' st',
       parse_raw (RList l) ctx b st = (r', st', Raise MisconfigurationError)) /\
  (forall ctx b (st : store),
     exists r' st',
       parse_raw (RList [RStr "foo"; RInt 42]) ctx b st
       = (r', st', Raise MisconfigurationError)) /\
  Sentence_should_parse (RList [RStr "foo"; RInt 42]) = false /\
  Block_should_parse (RList [RStr "foo"; RInt 42]) = false /\
  Statements_should_parse (RList [RStr "foo"; RInt 42]) = true /\
  (forall ctx b (st : store),
     parse_raw (RInt 42) ctx b st = (RInt 42, st, Raise MisconfigurationError)) /\
  (forall ctx b (st : store),
     parse_raw (RStr "foo") ctx b st
     = (RStr "foo", st, Raise MisconfigurationError)).
Proof.
  split; [exact parse_raw_RInt_element|].
  split; [intros; apply parse_raw_RInt_element with (z := 42%Z); simpl; auto|].
  repeat split.
  - intros ctx b st. rewrite parse_raw_eq, choose_parser_first_match.
    rewrite first_match_RInt. reflexivity.
  - intros ctx b st. rewrite parse_raw_eq, choose_parser_first_match.
    rewrite first_match_RStr. reflexivity.
Qed.

Lemma non_token_element_fails_witness :
  exists r' st',
    parse_raw (RList [RStr "foo"; RInt 42]) None false []
    = (r', st', Raise MisconfigurationError).
Proof.
  destruct non_token_element_fails as (H & _).
  apply (H [RStr "foo"; RInt 42] 42%Z None false []).
  simpl. right. left. reflexivity.
Defined.



(** C5, as stated, fails on its own example: after [set_tabs] with two spaces
    on the parsed block the body still has its four spaces, not six. *)
Lemma Block_set_tabs_body_counterexample :
  set_tabs 4 0%nat "  " ex_store = (ex_retabbed, Ok tt) /\
  get_tabs 4 ex_retabbed 2%nat = Ok "    " /\
  get_tabs 4 ex_retabbed 2%nat <> Ok "      ".
Proof.
  split; [vm_compute; reflexivity|].
  split; [vm_compute; reflexivity|]. vm_compute. discriminate.
Qed.

(** C5, amended. [Block.set_tabs] calls [set_tabs] with [tabs] on the names
    and then with [tabs] and four more spaces on the contents.  A [Sentence]
    whose first token is whitespace is left as it is; otherwise a newline
    followed by [tabs] is put in front, after which [get_tabs] returns [tabs]
    (for whitespace [tabs] without a newline).  On the example the header
    gets the two spaces, the body sentence keeps its four, and the trailing
    whitespace becomes a newline and two spaces; on a block whose lines have
    no whitespace of their own the header gets [tabs] and every line of the
    body [tabs] and four more spaces.  On every block that [parse_raw]
    returned for a context without parent, [set_tabs] returns. *)
Theorem Block_set_tabs_spec :
  (forall fuel (st : store) (self : loc) c d n k tabs,
     st !! self = Some (Block c d (Some n) (Some k)) ->
     set_tabs (S fuel) self tabs st =
     (run set_tabs fuel n tabs in
      set_tabs fuel k (String.append tabs "    ")) st) /\
  (forall fuel (st : store) (self : loc) c first d tabs,
     st !! self = Some (Sentence c (first :: d)) ->
     set_tabs (S fuel) self tabs st =
     if Str.isspace first then (st, Ok tt)
     else (<[self := Sentence c (String.append Str.nl tabs :: first :: d)]> st,
           Ok tt)) /\
  (forall tabs d,
     Str.all_chars Str.isspace_char tabs = true ->
     Str.mem Str.nl_char tabs = false ->
     Sentence_get_tabs (String.append Str.nl tabs :: d) = Ok tabs) /\
  (set_tabs 4 0%nat "  " ex_store = (ex_retabbed, Ok tt) /\
   dump 3 ex_retabbed 0%nat true =
     Ok (RList [RList [RStr (String.append Str.nl "  "); RStr "server"; RStr " "];
                RList [RList [RStr (String.append Str.nl "    "); RStr "listen";
                              RStr " "; RStr "80"; RStr ";"];
                       RStr (String.append Str.nl "  ")]]) /\
   get_tabs 4 ex_retabbed 1%nat = Ok "  " /\
   get_tabs 4 ex_retabbed 2%nat = Ok "    ") /\
  (exists st',
     set_tabs 4 0%nat "    " ex_plain_store = (st', Ok tt) /\
     dump 3 st' 0%nat true =
       Ok (RList [RList [RStr (String.append Str.nl "    "); RStr "server";
                         RStr "name"];
                  RList [RList [RStr (String.append Str.nl "        ");
                                RStr "thing"; RStr "1"];
                         RList [RStr (String.append Str.nl "        ");
                                RStr "thing"; RStr "2"];
                         RStr (String.append Str.nl "    ")]]) /\
     get_tabs 4 st' 1%nat = Ok "    " /\
     get_tabs 4 st' 2%nat = Ok "        ") /\
  (forall (r : raw) ctx b (st : store) r' st' p tabs,
     Block_should_parse r = true ->
     hooks_in_force ctx = DEFAULT_PARSING_HOOKS -> parent_of ctx = None ->
     parse_raw r ctx b st = (r', st', Ok p) ->
     exists st'', set_tabs (2 * depth r) p tabs st' = (st'', Ok tt)).
Proof.
  split; [|split; [|split; [|split; [|split]]]].
  - intros fuel st self c d n k tabs Hs. rewrite set_tabs_S, Hs. reflexivity.
  - intros fuel st self c first d tabs Hs. rewrite set_tabs_S, Hs.
    apply Sentence_set_tabs_eq. exact Hs.
  - intros tabs d. apply Sentence_get_tabs_prepended.
  - repeat split; vm_compute; reflexivity.
  - eexists. split; [vm_compute; reflexivity|].
    repeat split; vm_compute; reflexivity.
  - intros r ctx b st r' st' p tabs _ _ Hpar H.
    eapply set_tabs_parsed; eauto.
Qed.

Lemma Block_set_tabs_spec_witness :
  set_tabs 2 0%nat "  " [Sentence None ["server"]]
  = ([Sentence None [String.append Str.nl "  "; "server"]], Ok tt) /\
  Sentence_get_tabs [String.append Str.nl "  "; "server"] = Ok "  ".
Proof.
  destruct Block_set_tabs_spec as (_ & H2 & H3 & _). split.
  - exact (H2 1%nat [Sentence None ["server"]] 0%nat None "server" [] "  " eq_refl).
  - apply H3; reflexivity.
Defined.

(** C6. Spacing synthesis: [_space_list] puts one single-space token between
    two neighbouring tokens exactly when neither is whitespace ([spaced_spec]):
    any two such neighbours come out with a single space between them, the
    output has no two neighbours that are both non-whitespace, and single
    spaces are all that was added.  Run on its own output it changes nothing,
    and it leaves a list alone in which no two neighbours are both
    non-whitespace.  Parsing the list of
    "foo" and "bar" with synthesis gives a [Sentence] that dumps to
    "foo", " ", "bar", and that list is a fixed point. *)
Theorem spacing_synthesis :
  (forall ws : list string,
     _space_list (RList (map RStr ws)) = Ok (map RStr (spaced_spec ws))) /\
  (forall (pre post : list string) (a b : string),
     Str.isspace a = false -> Str.isspace b = false ->
     exists pre' post',
       _space_list (RList (map RStr (pre ++ a :: b :: post)))
       = Ok (map RStr (pre' ++ a :: " " :: b :: post'))) /\
  (forall (ws : list string) out,
     _space_list (RList (map RStr ws)) = Ok (map RStr out) ->
     separated out = true /\
     List.filter not_single_space out = List.filter not_single_space ws) /\
  (forall (ws : list string) out,
     _space_list (RList (map RStr ws)) = Ok out ->
     _space_list (RList out) = Ok out) /\
  (forall ws : list string,
     separated ws = true ->
     _space_list (RList (map RStr ws)) = Ok (map RStr ws)) /\
  (exists st',
     parse_raw (RList [RStr "foo"; RStr "bar"]) None true []
     = (RList [RStr "foo"; RStr "bar"], st', Ok 0%nat) /\
     dump 1 st' 0%nat true = Ok (RList [RStr "foo"; RStr " "; RStr "bar"])) /\
  _space_list (RList [RStr "foo"; RStr " "; RStr "bar"])
  = Ok [RStr "foo"; RStr " "; RStr "bar"].
Proof.
  split; [exact space_list_strings|].
  split.
  { intros pre post a b Ha Hb. rewrite space_list_strings.
    destruct (spaced_spec_between pre post a b Ha Hb) as (pre' & post' & ->).
    eauto. }
  split.
  { intros ws out H. rewrite space_list_strings in H. injection H as H.
    apply (f_equal strings_of) in H. rewrite !strings_of_RStr in H.
    injection H as <-.
    split; [apply spaced_spec_is_separated|apply spaced_spec_only_spaces]. }
  split.
  { intros ws out H. rewrite space_list_strings in H. injection H as <-.
    rewrite space_list_strings.
    rewrite spaced_spec_separated; [reflexivity|apply spaced_spec_is_separated]. }
  split.
  { intros ws H. rewrite space_list_strings, spaced_spec_separated; auto. }
  split; [eexists; split; vm_compute; reflexivity|].
  vm_compute. reflexivity.
Qed.

Lemma spacing_synthesis_witness :
  _space_list (RList (map RStr ["foo"; " "; "bar"]))
  = Ok (map RStr ["foo"; " "; "bar"]) /\
  _space_list (RList (map RStr (spaced_spec ["a"; "b"; "c"])))
  = Ok (map RStr (spaced_spec ["a"; "b"; "c"])).
Proof.
  destruct spacing_synthesis as (H1 & _ & _ & H2 & H3 & _).
  split.
  - apply H3. vm_compute. reflexivity.
  - apply (H2 ["a"; "b"; "c"]). apply H1.
Defined.

(** C7. Traversal: on a [Statements], [iterate] is the concatenation of its
    children's iterations; whatever [iterate] yields, from any object, is a
    [Block] or a [Sentence], so a [Statements] never yields itself; on a
    [Block] it yields the block (if the predicate accepts it) and, when
    [expanded], then what its contents yield; a block whose contents hold one
    sentence yields, expanded, the block and then that sentence; a list of
    two blocks yields, not expanded, the two blocks.  On a node that
    [parse_raw] returned, [iterate] does return.  The predicate decides: a
    block is yielded exactly when the predicate holds of it (always when
    there is none), its contents being searched all the same; whatever
    [iterate] yields under a predicate satisfies it; and on the block with
    one sentence the predicate that holds of sentences yields the sentence
    alone, the one that holds of everything else the block alone. *)
Theorem traversal_visibility :
  (forall fuel (st : store) (self : loc) c d tw expanded match_,
     st !! self = Some (Statements c d tw) ->
     iterate (S fuel) st self expanded match_ =
     res_map (@concat loc)
       (res_all (fun elem => iterate fuel st elem expanded match_) d)) /\
  (forall fuel (st : store) (self : loc) expanded match_ out,
     iterate fuel st self expanded match_ = Ok out ->
     Forall (visible st) out /\
     (forall c d tw, st !! self = Some (Statements c d tw) -> ~ In self out)) /\
  (forall fuel (st : store) (self : loc) c d n k expanded match_,
     st !! self = Some (Block c d n (Some k)) ->
     iterate (S fuel) st self expanded match_ =
     let own := if matches match_ st self then [self] else [] in
     if expanded then res_map (app own) (iterate fuel st k expanded match_)
     else Ok own) /\
  (forall fuel (st : store) (self : loc) c d n k ck s tw cs ds,
     st !! self = Some (Block c d n (Some k)) ->
     st !! k = Some (Statements ck [s] tw) ->
     st !! s = Some (Sentence cs ds) ->
     iterate (S (S (S fuel))) st self true None = Ok [self; s]) /\
  (forall (r : raw) ctx b (st : store) r' st' p expanded match_,
     parse_raw r ctx b st = (r', st', Ok p) ->
     exists out, iterate (depth r) st' p expanded match_ = Ok out) /\
  iterate 3 ex_store 0%nat true None = Ok [0%nat; 3%nat] /\
  (exists st',
     parse_raw ex_two_blocks None false [] = (ex_two_blocks, st', Ok 0%nat) /\
     iterate 2 st' 0%nat false None = Ok [1%nat; 5%nat] /\
     option_map class_of (st' !! 1%nat) = Some Block_t /\
     option_map class_of (st' !! 5%nat) = Some Block_t) /\
  (forall fuel (st : store) (self : loc) c d n k expanded
          (f : store -> loc -> bool),
     st !! self = Some (Block c d n (Some k)) ->
     iterate (S fuel) st self expanded (Some f) =
     let own := if f st self then [self] else [] in
     if expanded then res_map (app own) (iterate fuel st k expanded (Some f))
     else Ok own) /\
  (forall fuel (st : store) (self : loc) c d n k,
     st !! self = Some (Block c d n k) ->
     iterate (S fuel) st self false None = Ok [self]) /\
  (forall fuel (st : store) (self : loc) expanded (f : store -> loc -> bool) out,
     iterate fuel st self expanded (Some f) = Ok out ->
     Forall (fun x => f st x = true) out) /\
  iterate 3 ex_store 0%nat true (Some is_sentence) = Ok [3%nat] /\
  iterate 3 ex_store 0%nat true (Some (fun st x => negb (is_sentence st x)))
  = Ok [0%nat].
Proof.
  split; [|split; [|split; [|split; [|split; [|split; [|split; [|split; [|split; [|split; [|split]]]]]]]]]].
  - intros fuel st self c d tw expanded match_ Hs.
    rewrite iterate_S. unfold get_obj. rewrite Hs. reflexivity.
  - intros fuel st self expanded match_ out H.
    pose proof (iterate_visible _ _ _ _ _ _ H) as Hv. split; [exact Hv|].
    intros c d tw Hs Hin. rewrite Forall_forall in Hv.
    apply list_elem_of_In in Hin. destruct (Hv _ Hin) as (o & Ho & Hc).
    rewrite Hs in Ho. injection Ho as <-. apply Hc. reflexivity.
  - intros fuel st self c d n k expanded match_ Hs.
    rewrite iterate_S. unfold get_obj. rewrite Hs. reflexivity.
  - intros fuel st self c d n k ck s tw cs ds Hs Hk Hsen.
    rewrite iterate_S. unfold get_obj. rewrite Hs. cbn [res_bind matches].
    rewrite iterate_S. unfold get_obj. rewrite Hk. cbn [res_bind res_all].
    rewrite iterate_S. unfold get_obj. rewrite Hsen. reflexivity.
  - intros r ctx b st r' st' p expanded match_ H.
    pose proof (parse_raw_iterable_all r _ _ _ _ _ _ H st' (depth r) expanded
                  match_ ltac:(intros k o _ Hk; exact Hk) (le_n _)) as Hok.
    destruct (iterate (depth r) st' p expanded match_) as [out|];
      [eauto|discriminate Hok].
  - vm_compute. reflexivity.
  - eexists. split; [vm_compute; reflexivity|].
    repeat split; vm_compute; reflexivity.
  - intros fuel st self c d n k expanded f Hs.
    rewrite iterate_S. unfold get_obj. rewrite Hs. reflexivity.
  - intros fuel st self c d n k Hs.
    rewrite iterate_S. unfold get_obj. rewrite Hs. reflexivity.
  - intros fuel st self expanded f out H.
    exact (iterate_accepted _ _ _ _ _ _ H).
  - vm_compute. reflexivity.
  - vm_compute. reflexivity.
Qed.

Lemma traversal_visibility_witness :
  Forall (visible ex_store) [0%nat; 3%nat] /\
  iterate 3 ex_store 0%nat true None = Ok [0%nat; 3%nat] /\
  iterate 3 ex_store 0%nat true (Some is_sentence) = Ok [3%nat] /\
  Forall (fun x => is_sentence ex_store x = true) [3%nat] /\
  iterate 1 ex_store 0%nat false (Some is_sentence) = Ok [].
Proof.
  destruct traversal_visibility
    as (_ & H2 & _ & H4 & _ & _ & _ & Hown & _ & Hacc & Hex & _).
  assert (E : iterate 3 ex_store 0%nat true None = Ok [0%nat; 3%nat]).
  { eapply (H4 0%nat ex_store 0%nat); vm_compute; reflexivity. }
  split; [exact (proj1 (H2 _ _ _ _ _ _ E))|]. split; [exact E|].
  split; [exact Hex|]. split; [exact (Hacc _ _ _ _ _ _ Hex)|].
  exact (Hown 0%nat ex_store 0%nat
           (Some (mkContext None (Some DEFAULT_PARSING_HOOKS)))
           [1%nat; 2%nat] (Some 1%nat) 2%nat false is_sentence eq_refl).
Defined.

(** C8. [_is_comment] answers [False] for an object that is not a [Sentence]
    and compares the first word with "#" for a [Sentence] that has a word;
    for a [Sentence] with no word at all, such as the one parsed from a list
    holding a single blank token, it raises [IndexError] instead of answering
    [False]. *)
Theorem is_comment_blank_sentence :
  (forall (st : store) (self : loc) o,
     st !! self = Some o -> class_of o <> Sentence_t ->
     _is_comment st self = Ok false) /\
  (forall (st : store) (self : loc) c d w ws,
     st !! self = Some (Sentence c d) -> words_of d = w :: ws ->
     _is_comment st self = Ok (String.eqb w "#")) /\
  (forall (st : store) (self : loc) c d,
     st !! self = Some (Sentence c d) -> words_of d = [] ->
     _is_comment st self = Raise IndexError) /\
  (exists c st',
     parse_raw (RList [RStr " "]) None false [] = (RList [RStr " "], st', Ok 0%nat) /\
     st' !! 0%nat = Some (Sentence c [" "]) /\
     _is_comment st' 0%nat = Raise IndexError).
Proof.
  split; [|split; [|split]].
  - intros st self o Hs Hc. unfold _is_comment, get_obj. rewrite Hs.
    destruct o; simpl in *; congruence.
  - intros st self c d w ws Hs Hw. unfold _is_comment, words, get_obj, get_sentence.
    rewrite Hs. simpl. rewrite Hw. reflexivity.
  - intros st self c d Hs Hw. unfold _is_comment, words, get_obj, get_sentence.
    rewrite Hs. simpl. rewrite Hw. reflexivity.
  - do 2 eexists. split; [vm_compute; reflexivity|].
    split; vm_compute; reflexivity.
Qed.

Lemma is_comment_blank_sentence_witness :
  _is_comment [Sentence None [" "]] 0%nat = Raise IndexError /\
  _is_comment [Sentence None ["#"; " "; "x"]] 0%nat = Ok true /\
  _is_comment [Statements None [] None] 0%nat = Ok false.
Proof.
  destruct is_comment_blank_sentence as (H1 & H2 & H3 & _).
  split; [|split].
  - eapply H3; reflexivity.
  - eapply (H2 _ _ _ _ "#"); reflexivity.
  - eapply H1; [reflexivity|]. simpl. discriminate.
Defined.

(** C9, as stated, fails: a token with two quotes on each side loses all
    four when read as a word, not one on each side. *)
Lemma words_single_quote_counterexample :
  exists c st',
    parse_raw (RList [RStr ex_quoted]) None false []
    = (RList [RStr ex_quoted], st', Ok 0%nat) /\
    st' !! 0%nat = Some (Sentence c [ex_quoted]) /\
    words st' 0%nat = Ok ["a"] /\
    words st' 0%nat
    <> Ok (map strip_one_quote_spec
             (List.filter (fun w => negb (Str.isspace w)) [ex_quoted])).
Proof.
  do 2 eexists. split; [vm_compute; reflexivity|].
  split; [vm_compute; reflexivity|].
  split; [vm_compute; reflexivity|]. vm_compute. discriminate.
Qed.

(** C9, amended. The words of a [Sentence] are its non-whitespace tokens, in
    order, each without its whole leading run and whole trailing run of quote
    characters; what lies between the two runs is kept as it is. *)
Theorem words_strip_quotes (st : store) (self : loc) c d :
  st !! self = Some (Sentence c d) ->
  exists ws,
    words st self = Ok ws /\
    ws = map (Str.strip quotes)
           (List.filter (fun w => negb (Str.isspace w)) d) /\
    Forall2 (stripped_of quotes)
      (List.filter (fun w => negb (Str.isspace w)) d) ws.
Proof.
  intros Hs. unfold words, get_sentence. rewrite Hs. simpl.
  eexists. split; [reflexivity|]. split; [reflexivity|].
  unfold words_of. induction (List.filter _ d) as [|t l IH]; simpl;
    constructor; [apply strip_spec|exact IH].
Qed.

Lemma words_strip_quotes_witness :
  exists ws,
    words [Sentence None [ex_quoted; " "; "b"]] 0%nat = Ok ws /\
    ws = map (Str.strip quotes)
           (List.filter (fun w => negb (Str.isspace w)) [ex_quoted; " "; "b"]) /\
    Forall2 (stripped_of quotes)
      (List.filter (fun w => negb (Str.isspace w)) [ex_quoted; " "; "b"]) ws.
Proof.
  apply (words_strip_quotes [Sentence None [ex_quoted; " "; "b"]] 0%nat None
           [ex_quoted; " "; "b"]).
  reflexivity.
Defined.

(** C10. [Block.parse] and its input: with spacing synthesis the names list
    of the caller's raw value has a single-space token appended (whatever the
    parse then returns or raises), so the value differs from what was passed;
    without synthesis the caller's raw value is as it was.  A raw value that
    [Block.should_parse] rejects is refused before anything is touched. *)
Theorem Block_parse_appends_to_names (self : loc) (r : raw) (st : store)
    c d0 n0 k0 :
  st !! self = Some (Block c d0 n0 k0) ->
  (Block_should_parse r = true ->
   exists names body,
     r = RList [RList names; body] /\
     (forall r' st' res,
        Block_parse parse_raw self r true st = (r', st', res) ->
        r' <> r /\
        exists body', r' = RList [RList (names ++ [RStr " "]); body']) /\
     (forall r' st' res,
        Block_parse parse_raw self r false st = (r', st', res) -> r' = r)) /\
  (Block_should_parse r = false ->
   forall b,
     Block_parse parse_raw self r b st = (r, st, Raise MisconfigurationError)).
Proof.
  intros Hs. split; cycle 1.
  { intros Hsp b. unfold Block_parse. rewrite Hsp. reflexivity. }
  intros Hsp. apply Block_should_parse_shape in Hsp as (d & l1 & -> & Hd).
  exists (map RStr d), (RList l1). split; [reflexivity|]. split.
  - intros r' st' res H.
    rewrite (Block_parse_eq _ _ _ _ _ _ _ _ _ _ Hs Hd) in H.
    match type of H with context [Statements_parse ?a ?b ?c ?d ?e] =>
      destruct (Statements_parse a b c d e) as [[p1' st3] [[]|e']] end.
    + destruct (set_block_data _ _ st3). injection H as <- <- <-. split.
      * intros [= E _]. apply (f_equal length) in E.
        rewrite !length_map, length_app in E. simpl in E. lia.
      * rewrite map_app. eauto.
    + injection H as <- <- <-. split.
      * intros [= E _]. apply (f_equal length) in E.
        rewrite !length_map, length_app in E. simpl in E. lia.
      * rewrite map_app. eauto.
  - intros r' st' res H. eapply (Block_parse_pure _ l1); [|exact H].
    apply Forall_forall. intros. apply parse_raw_pure_all.
Qed.

Lemma Block_parse_appends_to_names_witness :
  exists names body,
    ex_block = RList [RList names; body] /\
    (forall r' st' res,
       Block_parse parse_raw 0%nat ex_block true [Block None [] None None]
       = (r', st', res) ->
       r' <> ex_block /\
       exists body', r' = RList [RList (names ++ [RStr " "]); body']) /\
    (forall r' st' res,
       Block_parse parse_raw 0%nat ex_block false [Block None [] None None]
       = (r', st', res) -> r' = ex_block).
Proof.
  apply (Block_parse_appends_to_names 0%nat ex_block [Block None [] None None]
           None [] None None); reflexivity.
Defined.
